(** * Macaroon caveats: access checks and codecs

    A shallow embedding of the caveat layer of the macaroon library
    (caveat variants, [CaveatSet] validation, the msgpack and JSON codecs of
    a [CaveatSet]) together with the properties the specification states
    about them. *)

From Stdlib Require Import ZArith NArith Ascii String List.
From Stdlib.Strings Require Import Byte.
From stdpp Require Import base option list strings gmap.

#[global] Instance byte_eq_dec' : EqDecision byte := byte_eq_dec.

(** ** Errors *)

(** Modelled from the spec: the enumerated error values of the library
    (errors.go is not among the sources; the sources name them). *)
Inductive Sentinel :=
  | ErrBadSignature
  | ErrUndischarged
  | ErrBadDischarge
  | ErrUnregisteredCaveat
  | ErrInvalidAccess
  | ErrResourceUnspecified
  | ErrResourcesMutuallyExclusive
  | ErrUnauthorizedForResource
  | ErrUnauthorizedForAction
  | ErrUnauthorized
  | ErrBadCaveat.

#[global] Instance Sentinel_eq_dec : EqDecision Sentinel.
Proof. solve_decision. Defined.

(** Arguments handed to [fmt.Errorf] besides the wrapped error. *)
Inductive fmtarg :=
  | AStr (s : string)
  | ANum (n : Z)
  | AAction (a : N)
  | ATime (t : Z).

#[global] Instance fmtarg_eq_dec : EqDecision fmtarg.
Proof. solve_decision. Defined.

(** One failure: a bare sentinel, an [fmt.Errorf] value (its format, the
    sentinel given for [%w] if any, the other arguments), or an
    [errors.New] value. *)
Inductive failure :=
  | Sent (s : Sentinel)
  | Errorf (format : string) (wraps : option Sentinel) (args : list fmtarg)
  | errors_New (text : string).

#[global] Instance failure_eq_dec : EqDecision failure.
Proof. solve_decision. Defined.

(** A Go [error]: [nil] is the empty list, a single error is a singleton and
    a combined error lists its failures in order. *)
Abbreviation error := (list failure).

Definition is_nil (e : error) : bool :=
  match e with [] => true | _ :: _ => false end.

(** Modelled from the spec: [appendErrs] (errors.go is not among the
    sources) combines errors, "all failures concatenated", a [nil] operand
    adding nothing. *)
Definition appendErrs (errs e : error) : error := errs ++ e.

Definition failure_Is (f : failure) (target : Sentinel) : bool :=
  match f with
  | Sent s => bool_decide (s = target)
  | Errorf _ (Some s) _ => bool_decide (s = target)
  | Errorf _ None _ => false
  | errors_New _ => false
  end.

(** [errors.Is]: some failure of the (possibly combined) error is, or wraps,
    the target.  It is [false] on [nil]. *)
Definition errors_Is (e : error) (target : Sentinel) : bool :=
  existsb (fun f => failure_Is f target) e.

(** ** Actions and time *)

(** Modelled from the spec: [Action] (action.go is not among the sources)
    is a bit mask of permissions; [a.IsSubsetOf(b)] is [a ⊆ b] on the bits
    and [a.Remove(b)] clears the bits of [b]. *)
Abbreviation Action := N.

Definition IsSubsetOf (a other : Action) : bool := (N.land a other =? a)%N.

Definition Remove (a other : Action) : Action := N.ldiff a other.

(** A [time.Time] is the instant it denotes, in nanoseconds since the Unix
    epoch. *)
Abbreviation Time := Z.

Definition time_Unix (sec nsec : Z) : Time := (sec * 1000000000 + nsec)%Z.

Definition After (t u : Time) : bool := (u <? t)%Z.

Definition Before (t u : Time) : bool := (t <? u)%Z.

(** [t.Unix()], the whole seconds since the epoch, and [t.Add(d)], [d] a
    [time.Duration] in nanoseconds. *)
Definition Time_Unix (t : Time) : Z := (t / 1000000000)%Z.

Definition Time_Add (t : Time) (d : Z) : Time := (t + d)%Z.

(** ** The Access and Caveat interfaces *)

Class Access (A : Type) := {
  GetAction : A -> Action;
  Now : A -> Time;
  Access_Validate : A -> error
}.

Abbreviation CaveatType := N.

(** The reserved type codes (caveat_type.go is not among the sources, so
    their values are parameters). *)
Class CaveatCodes := {
  Cav3P : CaveatType;
  CavIfPresent : CaveatType;
  CavValidityWindow : CaveatType;
  CavBindToParentToken : CaveatType;
  CavMinUserDefined : CaveatType;
  CavUnregistered : CaveatType
}.

(** Caveats registered from outside the package: each value [u : U] stands
    for a value of one of the user's Go types. *)
Class UserCaveat (U A : Type) := {
  U_CaveatType : U -> CaveatType;
  U_Prohibits : U -> A -> error;
  U_IsAttestation : U -> bool
}.

Section Caveats.
Context {U A : Type} {access_A : Access A} {user_U : UserCaveat U A}
  {codes : CaveatCodes}.

(** The caveat variants.  A [CaveatSet] is its [Caveats] slice; the [Ifs]
    of an [IfPresent] is held by value, so the embedding ranges over the
    [IfPresent] values whose [Ifs] pointer is set. *)
#[local] Unset Elimination Schemes.
Inductive Caveat :=
  | Caveat3P (Location : string) (VID CID rn : list byte)
  | IfPresent (Ifs : list Caveat) (Else : Action)
  | ValidityWindow (NotBefore NotAfter : Z)
  | BindToParentToken (prefix : list byte)
  | UserDefined (u : U).

#[local] Set Elimination Schemes.

(** [CaveatSet]: the struct has the one field [Caveats]. *)
#[local] Abbreviation CaveatSet := (list Caveat).

Definition NewCaveatSet (caveats : list Caveat) : CaveatSet := [] ++ caveats.

Definition Caveat_CaveatType (c : Caveat) : CaveatType :=
  match c with
  | Caveat3P _ _ _ _ => Cav3P
  | IfPresent _ _ => CavIfPresent
  | ValidityWindow _ _ => CavValidityWindow
  | BindToParentToken _ => CavBindToParentToken
  | UserDefined u => U_CaveatType u
  end.

Definition IsAttestation (c : Caveat) : bool :=
  match c with
  | Caveat3P _ _ _ _ => false
  | IfPresent _ _ => false
  | ValidityWindow _ _ => false
  | BindToParentToken _ => false
  | UserDefined u => U_IsAttestation u
  end.

(** One round of the loop of [IfPresent.Prohibits]: [st] is
    [(merr, ifBranch)]. *)
Definition ifs_step (st : error * bool) (cErr : error) : error * bool :=
  if negb (errors_Is cErr ErrResourceUnspecified)
  then (appendErrs st.1 cErr, true)
  else st.

Fixpoint Prohibits (c : Caveat) (f : A) : error :=
  match c with
  | Caveat3P _ _ _ _ =>
      [Errorf "%w (3rd party caveat)" (Some ErrBadCaveat) []]
  | IfPresent Ifs Else =>
      let st :=
        fold_left (fun st cc => ifs_step st (Prohibits cc f)) Ifs ([], false) in
      if negb st.2 && negb (IsSubsetOf (GetAction f) Else)
      then [Errorf "%w access %s (%s not allowed)"
              (Some ErrUnauthorizedForAction)
              [AAction (GetAction f); AAction (Remove (GetAction f) Else)]]
      else st.1
  | ValidityWindow NotBefore NotAfter =>
      let na := time_Unix NotAfter 0 in
      if After (Now f) na
      then [Errorf "%w: token only valid until %s" (Some ErrUnauthorized)
              [ATime na]]
      else
        let nb := time_Unix NotBefore 0 in
        if Before (Now f) nb
        then [Errorf "%w: token not valid until %s" (Some ErrUnauthorized)
                [ATime nb]]
        else []
  | BindToParentToken _ =>
      [Errorf "%w (bind-to-parent)" (Some ErrBadCaveat) []]
  | UserDefined u => U_Prohibits u f
  end.

Definition validateAccess (c : CaveatSet) (access : A) : error :=
  fold_left
    (fun merr caveat =>
       if IsAttestation caveat then merr
       else appendErrs merr (Prohibits caveat access))
    c [].

Definition Validate (cs : CaveatSet) (accesses : list A) : error :=
  fold_left
    (fun merr access =>
       let ferr := Access_Validate access in
       if negb (is_nil ferr) then appendErrs merr ferr
       else appendErrs merr (validateAccess cs access))
    accesses [].

Definition CaveatSet_Validate (c : CaveatSet) (accesses : list A) : error :=
  Validate c accesses.

(** *** Specification-side readings of [Validate] *)

(** The failures of the caveats that are not attestations, in order. *)
Definition caveat_failures (cs : CaveatSet) (a : A) : error :=
  concat (map (fun c => Prohibits c a)
            (filter (fun c => IsAttestation c = false) cs)).

(** What the specification's sentence makes one access contribute: the
    error of [access.Validate()], then the failures of the caveats. *)
Definition access_outcome_as_specified (cs : CaveatSet) (a : A) : error :=
  Access_Validate a ++ caveat_failures cs a.

(** What one access contributes in the code: the caveats are consulted
    only when [access.Validate()] passed. *)
Definition access_outcome (cs : CaveatSet) (a : A) : error :=
  if is_nil (Access_Validate a) then caveat_failures cs a
  else Access_Validate a.

End Caveats.

Arguments Caveat : clear implicits.
Abbreviation CaveatSet U := (list (Caveat U)).

(** Induction over caveats, with the hypothesis on every member of [Ifs]. *)
Section CaveatInduction.
Context {U : Type} (P : Caveat U -> Prop).
Hypothesis H3P : forall Location VID CID rn, P (Caveat3P Location VID CID rn).
Hypothesis HIfPresent : forall Ifs Else, Forall P Ifs -> P (IfPresent Ifs Else).
Hypothesis HValidityWindow : forall NotBefore NotAfter,
  P (ValidityWindow NotBefore NotAfter).
Hypothesis HBindToParentToken : forall prefix, P (BindToParentToken prefix).
Hypothesis HUserDefined : forall u, P (UserDefined u).

Fixpoint Caveat_ind (cav : Caveat U) : P cav :=
  match cav with
  | Caveat3P Location VID CID rn => H3P Location VID CID rn
  | IfPresent Ifs Else =>
      HIfPresent Ifs Else
        ((fix all (l : list (Caveat U)) : Forall P l :=
            match l with
            | [] => List.Forall_nil P
            | x :: l' => @List.Forall_cons _ P x l' (Caveat_ind x) (all l')
            end) Ifs)
  | ValidityWindow NotBefore NotAfter => HValidityWindow NotBefore NotAfter
  | BindToParentToken prefix => HBindToParentToken prefix
  | UserDefined u => HUserDefined u
  end.

End CaveatInduction.

(** Deep equality of caveats ([reflect.DeepEqual] on the pointed-to values:
    every field counts, exported or not). *)
Fixpoint Caveat_eqb {U : Type} `{EqDecision U} (x y : Caveat U) : bool :=
  match x, y with
  | Caveat3P l v c r, Caveat3P l' v' c' r' =>
      bool_decide (l = l') && bool_decide (v = v') && bool_decide (c = c') &&
      bool_decide (r = r')
  | IfPresent i e, IfPresent i' e' =>
      (fix all (l l' : list (Caveat U)) : bool :=
         match l, l' with
         | [], [] => true
         | a :: l, b :: l' => Caveat_eqb a b && all l l'
         | _, _ => false
         end) i i' && bool_decide (e = e')
  | ValidityWindow nb na, ValidityWindow nb' na' =>
      bool_decide (nb = nb') && bool_decide (na = na')
  | BindToParentToken p, BindToParentToken p' => bool_decide (p = p')
  | UserDefined u, UserDefined u' => bool_decide (u = u')
  | _, _ => false
  end.

Lemma Caveat_eqb_eq {U : Type} `{EqDecision U} (x y : Caveat U) :
  Caveat_eqb x y = true <-> x = y.
Proof.
  revert y. induction x as [l v c r|i e IH|nb na|p|u] using Caveat_ind;
    intros [l' v' c' r'|i' e'|nb' na'|p'|u']; cbn [Caveat_eqb];
    try (split; [discriminate | congruence]).
  - rewrite !andb_true_iff, !bool_decide_eq_true.
    split; [by intros [[[-> ->] ->] ->] | by intros [= -> -> -> ->]].
  - rewrite andb_true_iff, bool_decide_eq_true.
    assert (G : (fix all (l l' : list (Caveat U)) : bool :=
         match l, l' with
         | [], [] => true
         | a :: l, b :: l' => Caveat_eqb a b && all l l'
         | _, _ => false
         end) i i' = true <-> i = i').
    { clear e e'. revert i'. induction IH as [|a i Ha IH IHi]; intros [|b i'];
        try (split; [discriminate | congruence]); [done|].
      rewrite andb_true_iff, Ha, IHi. split; [by intros [-> ->] | by intros [= -> ->]]. }
    rewrite G. split; [by intros [-> ->] | by intros [= -> ->]].
  - rewrite andb_true_iff, !bool_decide_eq_true. split; [by intros [-> ->] | by intros [= -> ->]].
  - rewrite bool_decide_eq_true. split; [by intros -> | by intros [= ->]].
  - rewrite bool_decide_eq_true. split; [by intros -> | by intros [= ->]].
Qed.

#[global] Instance Caveat_eq_dec {U : Type} `{EqDecision U} : EqDecision (Caveat U).
Proof.
  intros x y. destruct (Caveat_eqb x y) eqn:E.
  - left. by apply Caveat_eqb_eq.
  - right. intros Heq. apply Caveat_eqb_eq in Heq. congruence.
Defined.

(** ** Looking caveats up in a set *)

Section GetCaveats.
Context {U : Type}.

(** One round of the loop of [GetCaveats[T]]: [T] is the type assertion
    [cav.(T)], which looks at the dynamic type of [cav] and hands the value
    on as it is; the call on [typed.Ifs] starts from an empty [ret]. *)
Fixpoint GetCaveats_round (T : Caveat U -> bool) (ret : list (Caveat U))
    (cav : Caveat U) : list (Caveat U) :=
  let ret := if T cav then ret ++ [cav] else ret in
  match cav with
  | IfPresent Ifs _ => ret ++ fold_left (GetCaveats_round T) Ifs []
  | _ => ret
  end.

Definition GetCaveats (T : Caveat U -> bool) (c : CaveatSet U) : list (Caveat U) :=
  fold_left (GetCaveats_round T) c [].

(** What one caveat adds to [ret]: itself when it is a [T], then what its
    [Ifs] hold. *)
Definition found_in (T : Caveat U -> bool) (cav : Caveat U) : list (Caveat U) :=
  (if T cav then [cav] else []) ++
  match cav with IfPresent Ifs _ => GetCaveats T Ifs | _ => [] end.

(** [cav] is in the set [c], or in the [Ifs] of an [IfPresent] that is. *)
Inductive occurs_in : Caveat U -> CaveatSet U -> Prop :=
  | occurs_here cav c : cav ∈ c -> occurs_in cav c
  | occurs_nested cav Ifs Else c :
      IfPresent Ifs Else ∈ c -> occurs_in cav Ifs -> occurs_in cav c.

(** The assertions of [cav] to the pointer types of [IfPresent] and of
    [ValidityWindow]. *)
Definition is_IfPresent (cav : Caveat U) : bool :=
  match cav with IfPresent _ _ => true | _ => false end.

Definition is_ValidityWindow (cav : Caveat U) : bool :=
  match cav with ValidityWindow _ _ => true | _ => false end.

(** The caveat types of caveats.go, as opposed to those registered from
    outside the package. *)
Definition is_builtin (cav : Caveat U) : bool :=
  match cav with UserDefined _ => false | _ => true end.

(** No caveat registered from outside the package, at any depth. *)
Fixpoint builtin_only (cav : Caveat U) : bool :=
  match cav with
  | IfPresent Ifs _ => forallb builtin_only Ifs
  | UserDefined _ => false
  | _ => true
  end.

End GetCaveats.

(** ** msgpack *)

(** A msgpack stream, one token per header or scalar: an array of [n]
    values is [TArrayLen n] followed by the tokens of its [n] values.
    Integers carry their value, whatever the width they are packed in. *)
Inductive token :=
  | TNil
  | TBool (b : bool)
  | TInt (z : Z)
  | TStr (s : string)
  | TBin (bs : list byte)
  | TArrayLen (n : N).

#[global] Instance token_eq_dec : EqDecision token.
Proof. solve_decision. Defined.

(** The outcome of a call that returns a value or an error.  Two more
    outcomes belong to the embedding only: [Absent] is a return without
    error of a value that the embedding lacks (a nil caveat, a nil [Ifs]
    pointer), and [OutOfFuel] is a recursion cut short by the fuel of a
    decoder. *)
Inductive result (X : Type) :=
  | Ok (x : X)
  | Fail (e : failure)
  | Absent (what : string)
  | OutOfFuel.

Arguments Ok {X} x.
Arguments Fail {X} e.
Arguments Absent {X} what.
Arguments OutOfFuel {X}.

Definition rbind {X Y : Type} (r : result X) (k : X -> result Y) : result Y :=
  match r with
  | Ok x => k x
  | Fail e => Fail e
  | Absent what => Absent what
  | OutOfFuel => OutOfFuel
  end.

Definition rmap {X Y : Type} (g : X -> Y) (r : result X) : result Y :=
  rbind r (fun x => Ok (g x)).

(** [r1] then [r2], two calls of which the second does not depend on the
    value of the first: the first error met is the error, also after a
    value that the embedding lacks. *)
Definition rthen {X Y Z : Type} (r1 : result X) (r2 : result Y)
    (g : X -> Y -> Z) : result Z :=
  match r1 with
  | Ok x => rmap (g x) r2
  | Fail e => Fail e
  | Absent what =>
      match r2 with
      | Fail e => Fail e
      | OutOfFuel => OutOfFuel
      | _ => Absent what
      end
  | OutOfFuel => OutOfFuel
  end.

(** The outcomes that the code has: a value or an error. *)
Definition plain {X : Type} (r : result X) : Prop :=
  match r with Ok _ | Fail _ => True | _ => False end.

(** An encoder call appends tokens to the output, or fails. *)
Abbreviation Enc := (result (list token)).

Definition enc_seq (e1 e2 : Enc) : Enc :=
  rbind e1 (fun o1 => rbind e2 (fun o2 => Ok (o1 ++ o2))).

Infix ">>>" := enc_seq (at level 61, left associativity).

(** A decoder call consumes tokens of the input and returns a value, or
    fails. *)
Definition Dec (X : Type) : Type := list token -> result (X * list token).

(** What is left of the input is no longer than the input. *)
Definition consumes {X : Type} (d : Dec X) : Prop :=
  forall s x rest, d s = Ok (x, rest) -> (length rest <= length s)%nat.

(** A call that returns, and takes one token when it returns a value. *)
Definition reads {X : Type} (d : Dec X) : Prop :=
  forall s, d s <> OutOfFuel /\
            forall x rest, d s = Ok (x, rest) -> exists t, s = t :: rest.

Definition dret {X : Type} (x : X) : Dec X := fun s => Ok (x, s).

Definition dfail {X : Type} (e : failure) : Dec X := fun _ => Fail e.

Definition dbind {X Y : Type} (d : Dec X) (k : X -> Dec Y) : Dec Y :=
  fun s => rbind (d s) (fun xs => k xs.1 xs.2).

Definition dlift {X : Type} (r : result X) : Dec X :=
  fun s => rbind r (fun x => Ok (x, s)).

Notation "x <- d ;; k" := (dbind d (fun x => k))
  (at level 62, d at next level, right associativity).

Definition uint64_of (z : Z) : N := Z.to_N (z mod 2 ^ 64).

Definition int64_of (z : Z) : Z := ((z + 2 ^ 63) mod 2 ^ 64 - 2 ^ 63)%Z.

Definition EOF : failure := errors_New "unexpected EOF".

Definition invalid_code (what : string) : failure :=
  Errorf "msgpack: invalid code decoding %s" None [AStr what].

(** The calls of the msgpack encoder and decoder that the package makes. *)
Module msgpack.

Definition EncodeArrayLen (n : N) : Enc := Ok [TArrayLen n].
Definition EncodeUint (n : N) : Enc := Ok [TInt (Z.of_N n)].
Definition EncodeInt (z : Z) : Enc := Ok [TInt z].
Definition EncodeString (s : string) : Enc := Ok [TStr s].
(** A byte slice of no bytes is read as the nil slice, which is packed as
    nil. *)
Definition EncodeBytes (bs : list byte) : Enc :=
  match bs with [] => Ok [TNil] | _ :: _ => Ok [TBin bs] end.
Definition EncodeBool (b : bool) : Enc := Ok [TBool b].

(** [DecodeArrayLen] answers [-1] on nil. *)
Definition DecodeArrayLen : Dec Z := fun s =>
  match s with
  | TArrayLen n :: s' => Ok (Z.of_N n, s')
  | TNil :: s' => Ok ((-1)%Z, s')
  | _ :: _ => Fail (invalid_code "array length")
  | [] => Fail EOF
  end.

(** Integers are converted to the requested type as by a Go conversion. *)
Definition DecodeUint : Dec N := fun s =>
  match s with
  | TInt z :: s' => Ok (uint64_of z, s')
  | _ :: _ => Fail (invalid_code "uint64")
  | [] => Fail EOF
  end.

Definition DecodeInt64 : Dec Z := fun s =>
  match s with
  | TInt z :: s' => Ok (int64_of z, s')
  | _ :: _ => Fail (invalid_code "int64")
  | [] => Fail EOF
  end.

(** The str and bin families are read alike, and nil reads as empty. *)
Definition DecodeString : Dec string := fun s =>
  match s with
  | TStr x :: s' => Ok (x, s')
  | TBin bs :: s' => Ok (string_of_list_byte bs, s')
  | TNil :: s' => Ok (EmptyString, s')
  | _ :: _ => Fail (invalid_code "string length")
  | [] => Fail EOF
  end.

Definition DecodeBytes : Dec (list byte) := fun s =>
  match s with
  | TBin bs :: s' => Ok (bs, s')
  | TStr x :: s' => Ok (list_byte_of_string x, s')
  | TNil :: s' => Ok ([], s')
  | _ :: _ => Fail (invalid_code "bytes length")
  | [] => Fail EOF
  end.

Definition DecodeBool : Dec bool := fun s =>
  match s with
  | TBool b :: s' => Ok (b, s')
  | TNil :: s' => Ok (false, s')
  | _ :: _ => Fail (invalid_code "bool")
  | [] => Fail EOF
  end.

(** The header of a struct packed as the array of its [n] exported
    fields. *)
Definition DecodeStructLen (n : Z) : Dec unit :=
  l <- DecodeArrayLen ;;
  if (l =? n)%Z then dret tt
  else dfail (Errorf "msgpack: struct of %d fields expected" None [ANum n]).

End msgpack.

(** ** JSON *)

(** A JSON text is the value it denotes; a [json.RawMessage] is such a
    value, kept as it stands. *)
#[local] Unset Elimination Schemes.
Inductive json :=
  | JNull
  | JBool (b : bool)
  | JNum (z : Z)
  | JStr (s : string)
  | JArr (items : list json)
  | JObj (fields : list (string * json)).

#[local] Set Elimination Schemes.

Fixpoint json_depth (j : json) : nat :=
  match j with
  | JArr items => S (fold_right (fun x d => Nat.max (json_depth x) d) 0%nat items)
  | JObj fields =>
      S (fold_right (fun kv d => Nat.max (json_depth kv.2) d) 0%nat fields)
  | _ => 0%nat
  end.

(** What [encoding/json] leaves to others: the base64 text of a byte
    slice, and the JSON form of an [Action] (action.go is not among the
    sources). *)
Class JSONLeaves := {
  base64_encode : list byte -> string;
  base64_decode : string -> option (list byte);
  Action_MarshalJSON : Action -> result json;
  Action_UnmarshalJSON : json -> result Action
}.

Module jsonlib.

(** Keys are matched to struct fields without regard to case. *)
Definition fold_ascii (a : ascii) : ascii :=
  let n := nat_of_ascii a in
  if (65 <=? n)%nat && (n <=? 90)%nat then ascii_of_nat (n + 32) else a.

Fixpoint fold_name (s : string) : string :=
  match s with
  | EmptyString => EmptyString
  | String a s' => String (fold_ascii a) (fold_name s')
  end.

Definition type_error (what : string) : failure :=
  Errorf "json: cannot unmarshal into Go value of type %s" None [AStr what].

(** Decoding an object into a struct: the members are taken in order;
    [set] decodes the value of a member and answers the update of the
    struct that stores it in the field the key names (no update for a key
    that names no field); null leaves the struct as it is. *)
Definition decode_struct {T : Type} (what : string)
    (set : string -> json -> result (T -> T)) (j : json) (t : T) : result T :=
  match j with
  | JObj fields =>
      fold_left
        (fun acc kv => rthen acc (set (fold_name kv.1) kv.2) (fun t upd => upd t))
        fields (Ok t)
  | JNull => Ok t
  | _ => Fail (type_error what)
  end.

(** The decoders of scalar fields answer the update of the field: null
    leaves it as it is. *)
Definition decode_string (j : json) : result (string -> string) :=
  match j with
  | JStr s => Ok (fun _ => s)
  | JNull => Ok id
  | _ => Fail (type_error "string")
  end.

Definition decode_int64 (j : json) : result (Z -> Z) :=
  match j with
  | JNum z =>
      if ((- 2 ^ 63 <=? z) && (z <? 2 ^ 63))%Z then Ok (fun _ => z)
      else Fail (type_error "int64")
  | JNull => Ok id
  | _ => Fail (type_error "int64")
  end.

(** A nil byte slice is written as null, any other as base64 text. *)
Definition encode_bytes {leaves : JSONLeaves} (bs : list byte) : json :=
  match bs with [] => JNull | _ :: _ => JStr (base64_encode bs) end.

Definition decode_bytes {leaves : JSONLeaves} (j : json) : result (list byte) :=
  match j with
  | JStr s =>
      match base64_decode s with
      | Some bs => Ok bs
      | None => Fail (errors_New "illegal base64 data")
      end
  | JNull => Ok []
  | _ => Fail (type_error "[]uint8")
  end.

End jsonlib.

(** ** The caveat registry and the codecs of a [CaveatSet] *)

(** The codec methods of the caveats registered from outside the package.
    [U_zero u] is the zero value of the Go type of [u]; the decoders fill
    the value they are handed, as [dec.Decode(cav)] and
    [json.Unmarshal(body, &cav)] do; [U_valid u] says that the numbers of
    [u] are values of their Go types. *)
Class UserCodec (U : Type) := {
  U_zero : U -> U;
  U_valid : U -> bool;
  U_EncodeMsgpack : U -> Enc;
  U_DecodeMsgpack : U -> Dec U;
  U_MarshalJSON : U -> result json;
  U_UnmarshalJSON : U -> json -> result U
}.

(** Modelled from the spec: the registry (caveat_type.go is not among the
    sources) is the process-wide table filled by [RegisterCaveatType]; it
    maps a type code to the zero value of its caveat type and to its name,
    and a name to its code. *)
Record Registry (U : Type) := {
  t2c : gmap N (Caveat U);
  t2s : gmap N string;
  s2t : gmap string N
}.

Arguments t2c {U} _.
Arguments t2s {U} _.
Arguments s2t {U} _.

Definition empty_registry {U : Type} : Registry U :=
  {| t2c := ∅; t2s := ∅; s2t := ∅ |}.

Section Codec.
Context {U A : Type} {access_A : Access A} {user_U : UserCaveat U A}
  {codes : CaveatCodes} {codec_U : UserCodec U} {leaves : JSONLeaves}
  {eq_U : EqDecision U}.
Context (reg : Registry U).

#[local] Abbreviation Caveat := (Caveat U).
#[local] Abbreviation CaveatSet := (list Caveat).

Definition unregistered (t : CaveatType) : failure :=
  Errorf "%w: %d" (Some ErrUnregisteredCaveat) [ANum (Z.of_N t)].

(** Modelled from the spec: [typeToCaveat(code)] "returns a zero-valued
    instance for decoding; unknown codes fail with ErrUnregisteredCaveat". *)
Definition typeToCaveat (t : CaveatType) : result Caveat :=
  match t2c reg !! t with
  | Some zero => Ok zero
  | None => Fail (unregistered t)
  end.

(** *** Encoding *)

(** The loop of [CaveatSet.EncodeMsgpack], over the encoder [enc] of one
    caveat. *)
Definition encode_pairs (enc : Caveat -> Enc) : CaveatSet -> Enc :=
  fix loop (cavs : CaveatSet) : Enc :=
    match cavs with
    | [] => Ok []
    | cav :: cavs' =>
        msgpack.EncodeUint (Caveat_CaveatType cav) >>> enc cav >>> loop cavs'
    end.

Definition encode_set (enc : Caveat -> Enc) (c : CaveatSet) : Enc :=
  msgpack.EncodeArrayLen (N.of_nat (length c) * 2) >>> encode_pairs enc c.

(** [enc.Encode(cav)]: a struct is packed as the array of its exported
    fields, in order ([rn] is not exported); [BindToParentToken] is a byte
    slice; [IfPresent.Ifs] uses the encoder of [CaveatSet]. *)
Fixpoint Caveat_Encode (cav : Caveat) : Enc :=
  match cav with
  | Caveat3P Location VID CID _ =>
      msgpack.EncodeArrayLen 3 >>> msgpack.EncodeString Location >>>
      msgpack.EncodeBytes VID >>> msgpack.EncodeBytes CID
  | IfPresent Ifs Else =>
      msgpack.EncodeArrayLen 2 >>> encode_set Caveat_Encode Ifs >>>
      msgpack.EncodeUint Else
  | ValidityWindow NotBefore NotAfter =>
      msgpack.EncodeArrayLen 2 >>> msgpack.EncodeInt NotBefore >>>
      msgpack.EncodeInt NotAfter
  | BindToParentToken prefix => msgpack.EncodeBytes prefix
  | UserDefined u => U_EncodeMsgpack u
  end.

Definition CaveatSet_EncodeMsgpack (c : CaveatSet) : Enc :=
  encode_set Caveat_Encode c.

(** [encode(c)] runs the encoder on a fresh buffer. *)
Definition CaveatSet_MarshalMsgpack (c : CaveatSet) : result (list token) :=
  CaveatSet_EncodeMsgpack c.

(** *** Decoding *)

(** [dec.Decode(cav)]: the fields of [cav] are filled from the stream;
    [decSet] is the decoder of [CaveatSet], applied to the set [Ifs] points
    to. *)
Definition Caveat_Decode (decSet : CaveatSet -> Dec CaveatSet) (cav : Caveat)
  : Dec Caveat :=
  match cav with
  | Caveat3P _ _ _ rn =>
      _ <- msgpack.DecodeStructLen 3 ;;
      Location <- msgpack.DecodeString ;;
      VID <- msgpack.DecodeBytes ;;
      CID <- msgpack.DecodeBytes ;;
      dret (Caveat3P Location VID CID rn)
  | IfPresent Ifs _ =>
      _ <- msgpack.DecodeStructLen 2 ;;
      Ifs' <- decSet Ifs ;;
      Else <- msgpack.DecodeUint ;;
      dret (IfPresent Ifs' Else)
  | ValidityWindow _ _ =>
      _ <- msgpack.DecodeStructLen 2 ;;
      NotBefore <- msgpack.DecodeInt64 ;;
      NotAfter <- msgpack.DecodeInt64 ;;
      dret (ValidityWindow NotBefore NotAfter)
  | BindToParentToken _ =>
      prefix <- msgpack.DecodeBytes ;;
      dret (BindToParentToken prefix)
  | UserDefined u =>
      u' <- U_DecodeMsgpack u ;;
      dret (UserDefined u')
  end.

(** The loop of [CaveatSet.DecodeMsgpack]: [n] rounds are left and [c] is
    [c.Caveats]. *)
Fixpoint decode_pairs (decSet : CaveatSet -> Dec CaveatSet) (n : nat)
    (c : CaveatSet) : Dec CaveatSet :=
  match n with
  | O => dret c
  | S n' =>
      t <- msgpack.DecodeUint ;;
      cav <- dlift (typeToCaveat t) ;;
      cav' <- Caveat_Decode decSet cav ;;
      decode_pairs decSet n' (c ++ [cav'])
  end.

(** [CaveatSet.DecodeMsgpack] on the receiver [c]; [fuel] bounds the depth
    of [IfPresent] nesting that is followed. *)
Fixpoint CaveatSet_DecodeMsgpack (fuel : nat) (c : CaveatSet) : Dec CaveatSet :=
  match fuel with
  | O => fun _ => OutOfFuel
  | S fuel' =>
      aLen <- msgpack.DecodeArrayLen ;;
      if negb (Z.rem aLen 2 =? 0)%Z
      then dfail (errors_New "bad caveat container")
      else
        let nCavs := Z.quot aLen 2 in
        decode_pairs (CaveatSet_DecodeMsgpack fuel') (Z.to_nat nCavs) c
  end.

(** [DecodeCaveats]: every level of nesting takes a token of [buf], so the
    length of [buf] is fuel enough. *)
Definition DecodeCaveats (buf : list token) : result CaveatSet :=
  rbind (CaveatSet_DecodeMsgpack (S (length buf)) [] buf)
    (fun r => Ok r.1).

(** *** JSON *)

(** Modelled from the spec: the name registered for a code ([""] when there
    is none, which is what [MarshalJSON] tests for) and the code registered
    for a name ([CavUnregistered] when there is none). *)
Definition caveatTypeToString (t : CaveatType) : string :=
  default EmptyString (t2s reg !! t).

Definition caveatTypeFromString (ts : string) : CaveatType :=
  default CavUnregistered (s2t reg !! ts).

Record jsonCaveat := {
  jc_Type : string;
  jc_Body : option json
}.

Definition jsonCaveat_Marshal (jc : jsonCaveat) : json :=
  JObj [("type"%string, JStr (jc_Type jc));
        ("body"%string, default JNull (jc_Body jc))].

(** The loop of [CaveatSet.MarshalJSON], over the [json.Marshal] of one
    caveat. *)
Definition marshal_jcavs (marshal : Caveat -> result json)
  : CaveatSet -> result (list jsonCaveat) :=
  fix loop (cavs : CaveatSet) : result (list jsonCaveat) :=
    match cavs with
    | [] => Ok []
    | cav :: cavs' =>
        let ct := Caveat_CaveatType cav in
        let cts := caveatTypeToString ct in
        if bool_decide (cts = EmptyString)
        then Fail (Errorf "unregistered caveat type: %d" None [ANum (Z.of_N ct)])
        else
          rbind (marshal cav) (fun body =>
          rbind (loop cavs') (fun jcavs =>
          Ok ({| jc_Type := cts; jc_Body := Some body |} :: jcavs)))
    end.

Definition marshal_set (marshal : Caveat -> result json) (c : CaveatSet)
  : result json :=
  rbind (marshal_jcavs marshal c) (fun jcavs =>
  Ok (JArr (map jsonCaveat_Marshal jcavs))).

(** [json.Marshal(cav)]: the exported fields under their names or tags. *)
Fixpoint Caveat_MarshalJSON (cav : Caveat) : result json :=
  match cav with
  | Caveat3P Location VID CID _ =>
      Ok (JObj [("Location"%string, JStr Location);
                ("VID"%string, jsonlib.encode_bytes VID);
                ("CID"%string, jsonlib.encode_bytes CID)])
  | IfPresent Ifs Else =>
      rbind (marshal_set Caveat_MarshalJSON Ifs) (fun ifs =>
      rbind (Action_MarshalJSON Else) (fun els =>
      Ok (JObj [("ifs"%string, ifs); ("else"%string, els)])))
  | ValidityWindow NotBefore NotAfter =>
      Ok (JObj [("not_before"%string, JNum NotBefore);
                ("not_after"%string, JNum NotAfter)])
  | BindToParentToken prefix => Ok (jsonlib.encode_bytes prefix)
  | UserDefined u => U_MarshalJSON u
  end.

Definition CaveatSet_MarshalJSON (c : CaveatSet) : result json :=
  marshal_set Caveat_MarshalJSON c.

Definition set_Caveat3P (k : string) (v : json)
  : result (string * list byte * list byte -> string * list byte * list byte) :=
  if bool_decide (k = "location"%string)
  then rmap (fun upd t => (upd t.1.1, t.1.2, t.2)) (jsonlib.decode_string v)
  else if bool_decide (k = "vid"%string)
  then rmap (fun x t => (t.1.1, x, t.2)) (jsonlib.decode_bytes v)
  else if bool_decide (k = "cid"%string)
  then rmap (fun x t => (t.1.1, t.1.2, x)) (jsonlib.decode_bytes v)
  else Ok id.

Definition set_ValidityWindow (k : string) (v : json) : result (Z * Z -> Z * Z) :=
  if bool_decide (k = "not_before"%string)
  then rmap (fun upd t => (upd t.1, t.2)) (jsonlib.decode_int64 v)
  else if bool_decide (k = "not_after"%string)
  then rmap (fun upd t => (t.1, upd t.2)) (jsonlib.decode_int64 v)
  else Ok id.

(** ["ifs"] is a pointer to a [CaveatSet]: null leaves it nil, any other
    value is handed to [CaveatSet.UnmarshalJSON]. *)
Definition set_IfPresent (unmarshalSet : json -> result CaveatSet)
    (k : string) (v : json)
  : result (CaveatSet * Action -> CaveatSet * Action) :=
  if bool_decide (k = "ifs"%string)
  then match v with
       | JNull => Absent "nil Ifs"
       | _ => rmap (fun x t => (x, t.2)) (unmarshalSet v)
       end
  else if bool_decide (k = "else"%string)
  then rmap (fun x t => (t.1, x)) (Action_UnmarshalJSON v)
  else Ok id.

(** Decoding a JSON value into the value a caveat points to. *)
Definition Caveat_fill (unmarshalSet : json -> result CaveatSet)
    (cav : Caveat) (body : json) : result Caveat :=
  match cav with
  | Caveat3P Location VID CID rn =>
      rmap (fun t => Caveat3P t.1.1 t.1.2 t.2 rn)
        (jsonlib.decode_struct "macaroon.Caveat3P" set_Caveat3P body
           (Location, VID, CID))
  | IfPresent Ifs Else =>
      rmap (fun t => IfPresent t.1 t.2)
        (jsonlib.decode_struct "macaroon.IfPresent"
           (set_IfPresent unmarshalSet) body (Ifs, Else))
  | ValidityWindow NotBefore NotAfter =>
      rmap (fun t => ValidityWindow t.1 t.2)
        (jsonlib.decode_struct "macaroon.ValidityWindow"
           set_ValidityWindow body (NotBefore, NotAfter))
  | BindToParentToken _ =>
      rmap BindToParentToken (jsonlib.decode_bytes body)
  | UserDefined u => rmap UserDefined (U_UnmarshalJSON u body)
  end.

(** [json.Unmarshal(body, &cav)], [cav] being the interface that holds the
    pointer to the zero value: null sets the interface itself to nil. *)
Definition Caveat_UnmarshalJSON (unmarshalSet : json -> result CaveatSet)
    (cav : Caveat) (body : json) : result Caveat :=
  match body with
  | JNull => Absent "nil caveat"
  | _ => Caveat_fill unmarshalSet cav body
  end.

Definition set_jsonCaveat (k : string) (v : json)
  : result (jsonCaveat -> jsonCaveat) :=
  if bool_decide (k = "type"%string)
  then rmap (fun upd jc => {| jc_Type := upd (jc_Type jc); jc_Body := jc_Body jc |})
         (jsonlib.decode_string v)
  else if bool_decide (k = "body"%string)
  then Ok (fun jc => {| jc_Type := jc_Type jc; jc_Body := Some v |})
  else Ok id.

(** A loop whose rounds do not depend on one another. *)
Fixpoint mapM {X Y : Type} (f : X -> result Y) (l : list X) : result (list Y) :=
  match l with
  | [] => Ok []
  | x :: l' => rthen (f x) (mapM f l') cons
  end.

(** [json.Unmarshal(b, &jcavs)] *)
Definition unmarshal_jcavs (b : json) : result (list jsonCaveat) :=
  match b with
  | JNull => Ok []
  | JArr items =>
      mapM (fun item =>
              jsonlib.decode_struct "macaroon.jsonCaveat" set_jsonCaveat item
                {| jc_Type := EmptyString; jc_Body := None |})
        items
  | _ => Fail (jsonlib.type_error "[]macaroon.jsonCaveat")
  end.

(** One round of the loop of [CaveatSet.UnmarshalJSON]. *)
Definition unmarshal_jcav (unmarshalSet : json -> result CaveatSet)
    (jc : jsonCaveat) : result Caveat :=
  let t := caveatTypeFromString (jc_Type jc) in
  match typeToCaveat t with
  | Ok cav =>
      match jc_Body jc with
      | Some body => Caveat_UnmarshalJSON unmarshalSet cav body
      | None => Fail (errors_New "unexpected end of JSON input")
      end
  | _ => Fail (Errorf "bad caveat type: %s" None [AStr (jc_Type jc)])
  end.

(** [CaveatSet.UnmarshalJSON]; [fuel] bounds the depth of [IfPresent]
    nesting that is followed.  The receiver's caveats are replaced. *)
Fixpoint CaveatSet_UnmarshalJSON (fuel : nat) (b : json) : result CaveatSet :=
  match fuel with
  | O => OutOfFuel
  | S fuel' =>
      rbind (unmarshal_jcavs b) (fun jcavs =>
      mapM (unmarshal_jcav (CaveatSet_UnmarshalJSON fuel')) jcavs)
  end.

(** [json.Unmarshal(b, cs)]: every level of nesting is a level of [b], so
    the depth of [b] is fuel enough. *)
Definition json_Unmarshal (b : json) : result CaveatSet :=
  CaveatSet_UnmarshalJSON (S (json_depth b)) b.

(** *** Values that the codecs carry *)

(** The zero value of the Go type of a caveat, as [RegisterCaveatType]
    is given it. *)
Definition zero_of (cav : Caveat) : Caveat :=
  match cav with
  | Caveat3P _ _ _ _ => Caveat3P EmptyString [] [] []
  | IfPresent _ _ => IfPresent [] 0%N
  | ValidityWindow _ _ => ValidityWindow 0 0
  | BindToParentToken _ => BindToParentToken []
  | UserDefined u => UserDefined (U_zero u)
  end.

(** The caveat with the unexported [rn] of every [Caveat3P] left nil. *)
Fixpoint erase_rn (cav : Caveat) : Caveat :=
  match cav with
  | Caveat3P Location VID CID _ => Caveat3P Location VID CID []
  | IfPresent Ifs Else => IfPresent (map erase_rn Ifs) Else
  | _ => cav
  end.

Definition in_uint64 (n : N) : bool := (n <? 2 ^ 64)%N.

Definition in_int64 (z : Z) : bool := ((- 2 ^ 63 <=? z) && (z <? 2 ^ 63))%Z.

(** The type of the caveat was registered: its code with the zero value of
    the type, and a name with the code. *)
Definition registered_type (cav : Caveat) : bool :=
  let t := Caveat_CaveatType cav in
  in_uint64 t
  && bool_decide (t2c reg !! t = Some (zero_of cav))
  && bool_decide (caveatTypeToString t <> EmptyString)
  && bool_decide (s2t reg !! caveatTypeToString t = Some t).

(** A caveat built from registered types, whose numbers are values of their
    Go types. *)
Fixpoint well_formed (cav : Caveat) : bool :=
  registered_type cav &&
  match cav with
  | IfPresent Ifs Else => forallb well_formed Ifs && in_uint64 Else
  | ValidityWindow NotBefore NotAfter => in_int64 NotBefore && in_int64 NotAfter
  | UserDefined u => U_valid u
  | _ => true
  end.

(** No [BindToParentToken] of the nil slice, at any depth: its JSON is
    null. *)
Fixpoint bound_prefixes (cav : Caveat) : bool :=
  match cav with
  | IfPresent Ifs _ => forallb bound_prefixes Ifs
  | BindToParentToken prefix => negb (bool_decide (prefix = []))
  | _ => true
  end.

(** What the round trip of one caveat through msgpack says, for every
    fuel that covers its encoding. *)
Definition msgpack_roundtrip_at (cav : Caveat) : Prop :=
  well_formed cav = true ->
  forall o fuel rest,
    Caveat_Encode cav = Ok o -> (length o <= fuel)%nat ->
    Caveat_Decode (CaveatSet_DecodeMsgpack fuel) (zero_of cav) (o ++ rest) =
      Ok (erase_rn cav, rest).

(** What the round trip of one caveat through JSON says, for every fuel
    that covers its JSON form. *)
Definition json_roundtrip_at (cav : Caveat) : Prop :=
  well_formed cav = true -> bound_prefixes cav = true ->
  forall j fuel,
    Caveat_MarshalJSON cav = Ok j -> (json_depth j <= fuel)%nat ->
    j <> JNull /\
    Caveat_UnmarshalJSON (CaveatSet_UnmarshalJSON fuel) (zero_of cav) j =
      Ok (erase_rn cav).

(** *** Specification-side readings of the binary form *)

(** The flat sequence "type code, value, type code, value, ..." for the
    caveats [cavs] whose encoded values are [bodies]. *)
Definition alternating (cavs : CaveatSet) (bodies : list (list token))
  : list token :=
  concat (zip_with (fun cav body => TInt (Z.of_N (Caveat_CaveatType cav)) :: body)
            cavs bodies).

(** [decoded_pairs decSet s cavs rest]: the stream [s] holds, for each
    caveat of [cavs] in turn, a registered type code followed by a value
    that decodes, into the zero value registered for the code, to that
    caveat; [rest] is what follows. *)
Inductive decoded_pairs (decSet : CaveatSet -> Dec CaveatSet)
  : list token -> CaveatSet -> list token -> Prop :=
  | decoded_done s : decoded_pairs decSet s [] s
  | decoded_next z zero s1 cav s2 cavs rest :
      typeToCaveat (uint64_of z) = Ok zero ->
      Caveat_Decode decSet zero s1 = Ok (cav, s2) ->
      decoded_pairs decSet s2 cavs rest ->
      decoded_pairs decSet (TInt z :: s1) (cav :: cavs) rest.

End Codec.

(** Modelled from the spec: [RegisterCaveatType(name, code, zero)] is
    "idempotent on (name, code, zero value) and panics on conflict"; [None]
    is the panic. *)
Definition RegisterCaveatType {U : Type} {eq_U : EqDecision U} (name : string)
    (code : CaveatType) (zero : Caveat U) (r : Registry U) : option (Registry U) :=
  match t2c r !! code with
  | Some z =>
      if bool_decide (z = zero) && bool_decide (t2s r !! code = Some name)
      then Some r else None
  | None =>
      match s2t r !! name with
      | Some _ => None
      | None =>
          Some {| t2c := <[code := zero]> (t2c r);
                  t2s := <[code := name]> (t2s r);
                  s2t := <[name := code]> (s2t r) |}
      end
  end.

(** The registrations of caveats.go, in the order of its [init] functions. *)
Definition builtin_registry {U : Type} {eq_U : EqDecision U} {codes : CaveatCodes}
  : option (Registry U) :=
  r ← RegisterCaveatType "3P" Cav3P (Caveat3P EmptyString [] [] []) empty_registry;
  r ← RegisterCaveatType "IfPresent" CavIfPresent (IfPresent [] 0%N) r;
  r ← RegisterCaveatType "ValidityWindow" CavValidityWindow (ValidityWindow 0 0) r;
  RegisterCaveatType "BindToParentToken" CavBindToParentToken
    (BindToParentToken []) r.

(** What the codecs of the registered types and of the leaves owe: decoding
    into the zero value undoes encoding, and the outcomes are those of
    code. *)
Class UserCodecLaws (U : Type) {codec_U : UserCodec U} : Prop := {
  U_msgpack_roundtrip : forall (u : U) o rest,
    U_valid u = true -> U_EncodeMsgpack u = Ok o ->
    U_DecodeMsgpack (U_zero u) (o ++ rest) = Ok (u, rest);
  U_json_roundtrip : forall (u : U) j,
    U_valid u = true -> U_MarshalJSON u = Ok j ->
    j <> JNull /\ U_UnmarshalJSON (U_zero u) j = Ok u;
  U_UnmarshalJSON_returns : forall (u : U) j, U_UnmarshalJSON u j <> OutOfFuel;
  U_EncodeMsgpack_plain : forall u : U, plain (U_EncodeMsgpack u);
  U_DecodeMsgpack_returns : forall (u : U) s, U_DecodeMsgpack u s <> OutOfFuel;
  U_DecodeMsgpack_consumes : forall u : U, consumes (U_DecodeMsgpack u)
}.

Class JSONLeavesLaws {leaves : JSONLeaves} : Prop := {
  base64_roundtrip : forall bs, base64_decode (base64_encode bs) = Some bs;
  Action_json_roundtrip : forall a j,
    Action_MarshalJSON a = Ok j -> Action_UnmarshalJSON j = Ok a;
  Action_UnmarshalJSON_returns : forall j, Action_UnmarshalJSON j <> OutOfFuel
}.

(** ** Macaroons *)

(** Modelled from the spec: the primitives of the crypto component
    (crypto.go is not among the sources): [sign] is the keyed hash of §4.2,
    [digest] the hash of a tail, [unseal] opens a sealed [VID]; [wire] gives
    the bytes that the msgpack encoder writes for a sequence of tokens. *)
Class Crypto := {
  sign : list byte -> list byte -> list byte;
  digest : list byte -> list byte;
  unseal : list byte -> list byte -> option (list byte);
  wire : list token -> list byte
}.

(** Modelled from the spec: the nonce and the macaroon entity of §3
    (macaroon.go and nonce.go are not among the sources). *)
Record Nonce := {
  KID : list byte;
  Rnd : list byte;
  Proof_ : bool
}.

(** Modelled from the spec: the macaroon entity of §3 (macaroon.go is not
    among the sources). *)
Record Macaroon (U : Type) := {
  Nonce_ : Nonce;
  Location : string;
  UnsafeCaveats : CaveatSet U;
  Tail : list byte
}.

Arguments Nonce_ {U} _.
Arguments Location {U} _.
Arguments UnsafeCaveats {U} _.
Arguments Tail {U} _.

Section Macaroons.
Context {U A : Type} {access_A : Access A} {user_U : UserCaveat U A}
  {codes : CaveatCodes} {codec_U : UserCodec U} {eq_U : EqDecision U}
  {crypto : Crypto}.
Context (reg : Registry U).

#[local] Abbreviation Caveat := (Caveat U).
#[local] Abbreviation CaveatSet := (list Caveat).
#[local] Abbreviation Macaroon := (Macaroon U).

(** Modelled from the spec: the nonce is encoded as the array of its three
    fields (nonce.go is not among the sources). *)
Definition Nonce_Encode (n : Nonce) : Enc :=
  msgpack.EncodeArrayLen 3 >>> msgpack.EncodeBytes (KID n) >>>
  msgpack.EncodeBytes (Rnd n) >>> msgpack.EncodeBool (Proof_ n).

(** Modelled from the spec: the inverse of [Nonce_Encode]. *)
Definition Nonce_Decode : Dec Nonce :=
  _ <- msgpack.DecodeStructLen 3 ;;
  kid <- msgpack.DecodeBytes ;;
  rnd <- msgpack.DecodeBytes ;;
  proof <- msgpack.DecodeBool ;;
  dret {| KID := kid; Rnd := rnd; Proof_ := proof |}.

(** Modelled from the spec: "Encode: msgpack({ nonce, location, caveats:
    CaveatSet, tail })" and "Decode: inverse; [...] Does not verify". *)
Definition Macaroon_Encode (m : Macaroon) : result (list token) :=
  msgpack.EncodeArrayLen 4 >>> Nonce_Encode (Nonce_ m) >>>
  msgpack.EncodeString (Location m) >>>
  CaveatSet_EncodeMsgpack (UnsafeCaveats m) >>> msgpack.EncodeBytes (Tail m).

(** Modelled from the spec: "Decode: inverse; [...] Does not verify"
    (macaroon.go is not among the sources). *)
Definition Macaroon_Decode (buf : list token) : result Macaroon :=
  rmap fst
    ((_ <- msgpack.DecodeStructLen 4 ;;
      nonce <- Nonce_Decode ;;
      location <- msgpack.DecodeString ;;
      caveats <- CaveatSet_DecodeMsgpack reg (length buf) [] ;;
      tail <- msgpack.DecodeBytes ;;
      dret {| Nonce_ := nonce; Location := location;
              UnsafeCaveats := caveats; Tail := tail |}) buf).

(** Modelled from the spec: [derive] and [step] of §4.2, the encoding of
    one caveat being its type code and its value, as in a [CaveatSet]. *)
Definition derive (signing_key : list byte) (n : Nonce) : result (list byte) :=
  rmap (fun o => sign signing_key (wire o)) (Nonce_Encode n).

(** Modelled from the spec: [encode(c)] of §4.2, the type code followed by
    the value. *)
Definition encode_caveat (c : Caveat) : Enc :=
  msgpack.EncodeUint (Caveat_CaveatType c) >>> Caveat_Encode c.

(** Modelled from the spec: [step(K, encode(c))] of §4.2. *)
Definition step (K : list byte) (c : Caveat) : result (list byte) :=
  rmap (fun o => sign K (wire o)) (encode_caveat c).

(** Modelled from the spec: "Mint: [...] construct Nonce { kid, rnd,
    proof=false }, compute Tail = derive(signing_key, nonce_bytes)"; the
    fresh [rnd] is an argument. *)
Definition New (kid : list byte) (location : string) (signing_key rnd : list byte)
  : result Macaroon :=
  let nonce := {| KID := kid; Rnd := rnd; Proof_ := false |} in
  rmap (fun tail => {| Nonce_ := nonce; Location := location;
                       UnsafeCaveats := []; Tail := tail |})
    (derive signing_key nonce).

(** Modelled from the spec: "Add caveats: for each c: 1. If c duplicates
    (deep-equal) an existing caveat in UnsafeCaveats, skip silently [...]
    2. Else append to UnsafeCaveats, set Tail = step(Tail, encode(c))". *)
Definition Add1 (m : Macaroon) (c : Caveat) : result Macaroon :=
  if bool_decide (c ∈ UnsafeCaveats m) then Ok m
  else
    rmap (fun tail => {| Nonce_ := Nonce_ m; Location := Location m;
                         UnsafeCaveats := UnsafeCaveats m ++ [c]; Tail := tail |})
      (step (Tail m) c).

(** Modelled from the spec: [Add] takes the caveats one after the other,
    and stops at the first one that cannot be encoded. *)
Definition Add (m : Macaroon) (caveats : list Caveat) : result Macaroon :=
  fold_left (fun r c => rbind r (fun m' => Add1 m' c)) caveats (Ok m).

(** *** Verification, modelled from §4.7 of the spec *)

(** Modelled from the spec: "starts with the prefix", which is
    [bytes.HasPrefix] (macaroon.go is not among the sources). *)
Definition HasPrefix (s prefix : list byte) : bool :=
  bool_decide (take (length prefix) s = prefix).

(** Modelled from the spec: step 2 of §4.7, the chain over the caveats; the key at which a [Caveat3P] was
    added unseals its [VID], and the [RN] found is stored under the
    location. *)
Fixpoint chain (expected : list byte) (caveats : CaveatSet)
    (rns : list (string * list byte)) : result (list byte * list (string * list byte)) :=
  match caveats with
  | [] => Ok (expected, rns)
  | c :: caveats' =>
      rbind
        (match c with
         | Caveat3P location vid _ _ =>
             match unseal expected vid with
             | Some rn => Ok (rns ++ [(location, rn)])
             | None => Fail (Sent ErrBadSignature)
             end
         | _ => Ok rns
         end) (fun rns' =>
      rbind (step expected c) (fun expected' => chain expected' caveats' rns'))
  end.

(** Modelled from the spec: steps 1 to 3 of §4.7. *)
Definition verify_signature (key : list byte) (m : Macaroon)
  : result (list (string * list byte)) :=
  rbind (derive key (Nonce_ m)) (fun K =>
  rbind (chain K (UnsafeCaveats m) []) (fun r =>
  if bool_decide (r.1 = Tail m) then Ok r.2 else Fail (Sent ErrBadSignature))).

(** Modelled from the spec: the error of a [BindToParentToken] that no
    binding id satisfies (its text is not given by the spec). *)
Definition binding_failure : failure := errors_New "token binding".

(** Modelled from the spec: step 4 of §4.7, also applied to a discharge in
    step 5: every [BindToParentToken] needs a binding id that starts with
    its prefix. *)

Fixpoint check_bindings (caveats : CaveatSet) (ids : list (list byte))
  : result unit :=
  match caveats with
  | [] => Ok tt
  | BindToParentToken prefix :: caveats' =>
      if existsb (fun tbid => HasPrefix tbid prefix) ids
      then check_bindings caveats' ids
      else Fail binding_failure
  | _ :: caveats' => check_bindings caveats' ids
  end.

(** Modelled from the spec: step 6 of §4.7, what is handed to [Validate]. *)
Definition collected (c : Caveat) : bool :=
  match c with
  | Caveat3P _ _ _ _ => false
  | BindToParentToken _ => false
  | _ => true
  end.

(** Modelled from the spec: step 5 of §4.7, for one discharge whose [RN] is
    known: its own chain, bound to
    the root or not, then its bindings against the digest of the root's
    tail. *)
Definition verify_discharge (root_tail rn : list byte) (d : Macaroon)
  : result CaveatSet :=
  rbind (derive rn (Nonce_ d)) (fun K =>
  rbind (chain K (UnsafeCaveats d) []) (fun r =>
  let plain := bool_decide (r.1 = Tail d) in
  let bound := bool_decide (sign root_tail r.1 = Tail d) in
  if xorb plain bound
  then rmap (fun _ => List.filter collected (UnsafeCaveats d))
         (check_bindings (UnsafeCaveats d) [digest root_tail])
  else Fail (Sent ErrBadSignature))).

(** Modelled from the spec: the first open slot for a location, and the
    slots that remain (step 5 of §4.7). *)
Fixpoint take_slot (location : string) (slots : list (string * list byte))
  : option (list byte * list (string * list byte)) :=
  match slots with
  | [] => None
  | (l, rn) :: slots' =>
      if bool_decide (l = location) then Some (rn, slots')
      else
        match take_slot location slots' with
        | Some (rn', rest) => Some (rn', (l, rn) :: rest)
        | None => None
        end
  end.

(** Modelled from the spec: step 5 of §4.7 over the discharges in order; a
    slot left open at the end is [ErrUndischarged]. *)
Fixpoint verify_discharges (root_tail : list byte)
    (slots : list (string * list byte)) (discharges : list (list token))
    (acc : CaveatSet) : result CaveatSet :=
  match discharges with
  | [] =>
      match slots with
      | [] => Ok acc
      | _ :: _ => Fail (Sent ErrUndischarged)
      end
  | buf :: discharges' =>
      rbind (Macaroon_Decode buf) (fun d =>
      match take_slot (Location d) slots with
      | None => verify_discharges root_tail slots discharges' acc
      | Some (rn, slots') =>
          rbind (verify_discharge root_tail rn d) (fun cs =>
          verify_discharges root_tail slots' discharges' (acc ++ cs))
      end)
  end.

(** Modelled from the spec: [Verify] of §4.7 (macaroon.go is not among the
    sources), steps 1 to 6 in order, the first failure being returned. *)
Definition Verify (m : Macaroon) (key : list byte)
    (discharges : list (list token)) (token_binding_ids : list (list byte))
  : result CaveatSet :=
  rbind (verify_signature key m) (fun slots =>
  rbind (check_bindings (UnsafeCaveats m) token_binding_ids) (fun _ =>
  verify_discharges (Tail m) slots discharges
    (List.filter collected (UnsafeCaveats m)))).

End Macaroons.

(** ** The caveats and the access of the test suite *)

Module Test.

(** [testAccess]: [now] is a [time.Time], whose zero value is the first
    instant of year 1. *)
Record testAccess := {
  action : Action;
  parentResource : option N;
  childResource : option N;
  now : Time
}.

Definition zeroTime : Time := time_Unix (-62135596800) 0.

Definition IsZero (t : Time) : bool := (t =? zeroTime)%Z.

Definition testAccess_Validate (f : testAccess) : error :=
  match childResource f, parentResource f with
  | Some _, None => [Sent ErrResourceUnspecified]
  | _, _ => []
  end.

(** [clock] is what [time.Now()] reads when the access carries no time. *)
Definition testAccess_Now (clock : Time) (f : testAccess) : Time :=
  if IsZero (now f) then clock else now f.

Definition testAccess_Access (clock : Time) : Access testAccess := {|
  GetAction := action;
  Now := testAccess_Now clock;
  Access_Validate := testAccess_Validate
|}.

Inductive testCaveat :=
  | testCaveatParentResource (ID : N) (Permission : Action)
  | testCaveatChildResource (ID : N) (Permission : Action).

#[global] Instance testCaveat_eq_dec : EqDecision testCaveat.
Proof. solve_decision. Defined.

Definition testCaveat_CaveatType {codes : CaveatCodes} (c : testCaveat)
  : CaveatType :=
  match c with
  | testCaveatParentResource _ _ => (0 + CavMinUserDefined)%N
  | testCaveatChildResource _ _ => (1 + CavMinUserDefined)%N
  end.

(** The accesses of this instance are all [*testAccess], so the
    [!isTestAccess] case of the switch does not arise. *)
Definition testCaveat_Prohibits (c : testCaveat) (tf : testAccess) : error :=
  match c with
  | testCaveatParentResource ID Permission =>
      match parentResource tf with
      | None => [Sent ErrResourceUnspecified]
      | Some r =>
          if negb (r =? ID)%N
          then [Errorf "%w resource" (Some ErrUnauthorizedForResource) []]
          else if negb (IsSubsetOf (action tf) Permission)
          then [Errorf "%w action" (Some ErrUnauthorizedForAction) []]
          else []
      end
  | testCaveatChildResource ID Permission =>
      match childResource tf with
      | None => [Sent ErrResourceUnspecified]
      | Some r =>
          if negb (r =? ID)%N
          then [Errorf "%w resource" (Some ErrUnauthorizedForResource) []]
          else if negb (IsSubsetOf (action tf) Permission)
          then [Errorf "%w action" (Some ErrUnauthorizedForAction) []]
          else []
      end
  end.

#[global] Instance testCaveat_UserCaveat {codes : CaveatCodes} :
  UserCaveat testCaveat testAccess := {
  U_CaveatType := testCaveat_CaveatType;
  U_Prohibits := testCaveat_Prohibits;
  U_IsAttestation := fun _ => false
}.

(** An assignment of distinct codes, to run the definitions on examples. *)
Definition sample_codes : CaveatCodes := {|
  Cav3P := 11%N;
  CavIfPresent := 13%N;
  CavValidityWindow := 3%N;
  CavBindToParentToken := 12%N;
  CavMinUserDefined := 281474976710656%N;
  CavUnregistered := 18446744073709551615%N
|}.

(** The codecs of the two test caveats: structs of two unsigned fields. *)
Definition testCaveat_zero (c : testCaveat) : testCaveat :=
  match c with
  | testCaveatParentResource _ _ => testCaveatParentResource 0 0
  | testCaveatChildResource _ _ => testCaveatChildResource 0 0
  end.

Definition testCaveat_valid (c : testCaveat) : bool :=
  match c with
  | testCaveatParentResource ID Permission
  | testCaveatChildResource ID Permission =>
      (ID <? 2 ^ 64)%N && (Permission <? 2 ^ 64)%N
  end.

Definition testCaveat_EncodeMsgpack (c : testCaveat) : Enc :=
  match c with
  | testCaveatParentResource ID Permission
  | testCaveatChildResource ID Permission =>
      msgpack.EncodeArrayLen 2 >>> msgpack.EncodeUint ID >>>
      msgpack.EncodeUint Permission
  end.

Definition testCaveat_DecodeMsgpack (c : testCaveat) : Dec testCaveat :=
  _ <- msgpack.DecodeStructLen 2 ;;
  ID <- msgpack.DecodeUint ;;
  Permission <- msgpack.DecodeUint ;;
  dret match c with
       | testCaveatParentResource _ _ => testCaveatParentResource ID Permission
       | testCaveatChildResource _ _ => testCaveatChildResource ID Permission
       end.

Definition decode_uint64 (j : json) : result (N -> N) :=
  match j with
  | JNum z =>
      if ((0 <=? z) && (z <? 2 ^ 64))%Z then Ok (fun _ => Z.to_N z)
      else Fail (jsonlib.type_error "uint64")
  | JNull => Ok id
  | _ => Fail (jsonlib.type_error "uint64")
  end.

Definition testCaveat_MarshalJSON {leaves : JSONLeaves} (c : testCaveat)
  : result json :=
  match c with
  | testCaveatParentResource ID Permission
  | testCaveatChildResource ID Permission =>
      rbind (Action_MarshalJSON Permission) (fun p =>
      Ok (JObj [("ID"%string, JNum (Z.of_N ID)); ("Permission"%string, p)]))
  end.

Definition set_testCaveat {leaves : JSONLeaves} (k : string) (v : json)
  : result (N * Action -> N * Action) :=
  if bool_decide (k = "id"%string)
  then rmap (fun upd t => (upd t.1, t.2)) (decode_uint64 v)
  else if bool_decide (k = "permission"%string)
  then rmap (fun x t => (t.1, x)) (Action_UnmarshalJSON v)
  else Ok id.

Definition testCaveat_UnmarshalJSON {leaves : JSONLeaves} (c : testCaveat)
    (body : json)
  : result testCaveat :=
  match c with
  | testCaveatParentResource ID Permission =>
      rmap (fun t => testCaveatParentResource t.1 t.2)
        (jsonlib.decode_struct "macaroon.testCaveatParentResource"
           set_testCaveat body (ID, Permission))
  | testCaveatChildResource ID Permission =>
      rmap (fun t => testCaveatChildResource t.1 t.2)
        (jsonlib.decode_struct "macaroon.testCaveatChildResource"
           set_testCaveat body (ID, Permission))
  end.

#[global] Instance testCaveat_UserCodec {leaves : JSONLeaves}
  : UserCodec testCaveat := {
  U_zero := testCaveat_zero;
  U_valid := testCaveat_valid;
  U_EncodeMsgpack := testCaveat_EncodeMsgpack;
  U_DecodeMsgpack := testCaveat_DecodeMsgpack;
  U_MarshalJSON := testCaveat_MarshalJSON;
  U_UnmarshalJSON := testCaveat_UnmarshalJSON
}.

(** Stand-ins for the leaves, to run the definitions on examples: one
    character per byte for the text of a byte slice, the number of the mask
    for an [Action]. *)
Definition sample_leaves : JSONLeaves := {|
  base64_encode := string_of_list_byte;
  base64_decode := fun s => Some (list_byte_of_string s);
  Action_MarshalJSON := fun a => Ok (JNum (Z.of_N a));
  Action_UnmarshalJSON := fun j =>
    match j with
    | JNum z => Ok (Z.to_N z)
    | _ => Fail (jsonlib.type_error "macaroon.Action")
    end
|}.

(** The registry once the [init] functions of the package and of its tests
    have run. *)
Definition test_registry {codes : CaveatCodes} : option (Registry testCaveat) :=
  r ← builtin_registry;
  r ← RegisterCaveatType "ParentResource" (0 + CavMinUserDefined)%N
        (UserDefined (testCaveatParentResource 0 0)) r;
  RegisterCaveatType "ChildResource" (1 + CavMinUserDefined)%N
    (UserDefined (testCaveatChildResource 0 0)) r.

Definition sample_registry : Registry testCaveat :=
  default empty_registry (@test_registry sample_codes).

(** Stand-ins for the crypto primitives, to run the definitions on
    examples: a signature is the key followed by the message, a digest is
    the message, unsealing returns the sealed bytes, and a token is written
    as its format byte. *)
Definition sample_crypto : Crypto := {|
  sign := fun key msg => key ++ msg;
  digest := fun msg => msg;
  unseal := fun _ sealed => Some sealed;
  wire := map (fun t => match t with
                        | TNil => xc0
                        | TBool _ => xc3
                        | TInt _ => xd3
                        | TStr _ => xdb
                        | TBin _ => xc6
                        | TArrayLen _ => xdd
                        end)
|}.

(** The caveats of the test suite: [cavParent(ActionRead|ActionWrite, 110)]
    and a third-party caveat as [Add3P] leaves it, its [rn] set. *)
Definition parent_110 : Caveat testCaveat :=
  UserDefined (testCaveatParentResource 110 3).

Definition third_party : Caveat testCaveat :=
  Caveat3P "https://auth" [x01; x02] [x03; x04] [x05; x06].

Definition third_party_decoded : Caveat testCaveat :=
  Caveat3P "https://auth" [x01; x02] [x03; x04] [].

(** The root of "verify - bound root token": minted, then given the
    caveat [BindToParentToken{0xde, 0xad}]. *)
Definition bound_root : Macaroon testCaveat :=
  Eval vm_compute in
    match rbind (New (crypto := sample_crypto) [x6b; x69; x64] "loc"
                   [x00; x01] [x10; x11])
            (fun m => Add (user_U := testCaveat_UserCaveat (codes := sample_codes))
                        (codec_U := testCaveat_UserCodec (leaves := sample_leaves))
                        (crypto := sample_crypto) m
                        [BindToParentToken [xde; xad]]) with
    | Ok m => m
    | _ => {| Nonce_ := {| KID := []; Rnd := []; Proof_ := false |};
              Location := EmptyString; UnsafeCaveats := []; Tail := [] |}
    end.

(** A caveat set as a freshly attenuated root holds it, with its msgpack
    and JSON forms. *)
Definition sample_set : CaveatSet testCaveat :=
  [parent_110; third_party; ValidityWindow 10 20].

Definition sample_set_decoded : CaveatSet testCaveat :=
  [parent_110; third_party_decoded; ValidityWindow 10 20].

Definition sample_set_tokens : list token :=
  Eval vm_compute in
    match CaveatSet_MarshalMsgpack
            (user_U := testCaveat_UserCaveat (codes := sample_codes))
            (codes := sample_codes)
            (codec_U := testCaveat_UserCodec (leaves := sample_leaves))
            sample_set with
    | Ok o => o
    | _ => []
    end.

Definition sample_set_json : json :=
  Eval vm_compute in
    match CaveatSet_MarshalJSON
            (user_U := testCaveat_UserCaveat (codes := sample_codes))
            (codes := sample_codes)
            (codec_U := testCaveat_UserCodec (leaves := sample_leaves))
            (leaves := sample_leaves) sample_registry sample_set with
    | Ok j => j
    | _ => JNull
    end.

Definition ActionRead : Action := 1%N.
Definition ActionWrite : Action := 2%N.

(** An access that names a child resource without its parent: its own
    [Validate()] fails. *)
Definition orphan_access : testAccess :=
  {| action := ActionRead; parentResource := None; childResource := Some 7%N;
     now := time_Unix 30 0 |}.

Definition parent_access : testAccess :=
  {| action := ActionRead; parentResource := Some 110%N; childResource := None;
     now := time_Unix 15 0 |}.

(** The accesses of the scenarios, read at a fixed wall clock. *)
Definition scenario_access : Access testAccess :=
  testAccess_Access (time_Unix 1700000000 0).

(** The resource of an access that a test caveat looks at. *)
Definition resource_of (c : testCaveat) (tf : testAccess) : option N :=
  match c with
  | testCaveatParentResource _ _ => parentResource tf
  | testCaveatChildResource _ _ => childResource tf
  end.

(** The helpers that build the caveats of the tests.  [cavExpiry] reads
    the clock twice, [clock1] then [clock2]. *)
Definition cavExpiry (clock1 clock2 : Time) (d : Z) : Caveat testCaveat :=
  ValidityWindow (Time_Unix clock1) (Time_Unix (Time_Add clock2 d)).

Definition cavParent (permission : Action) (id : N) : Caveat testCaveat :=
  UserDefined (testCaveatParentResource id permission).

Definition cavChild (permission : Action) (id : N) : Caveat testCaveat :=
  UserDefined (testCaveatChildResource id permission).

End Test.

(** ** The access of the flyio package *)

Module flyio.

(** A pointer field is [None] when nil. *)
Record Access := {
  OrgID : N;
  AppID : option N;
  Action : N;
  Feature : option string;
  Volume : option string;
  Machine : option string;
  MachineFeature : option string;
  Mutation : option string;
  SourceMachine : option string;
  Cluster : option string
}.

Definition non_nil {X : Type} (p : option X) : bool :=
  match p with Some _ => true | None => false end.

Definition GetAction (a : Access) : N := Action a.

(** [clock] is what [time.Now()] reads. *)
Definition Now (clock : Time) (a : Access) : Time := clock.

Definition Validate (f : Access) : error :=
  if (OrgID f =? 0)%N
  then [Errorf "%w org" (Some ErrResourceUnspecified) []]
  else if non_nil (AppID f) && non_nil (Feature f)
  then [Errorf "%w: app, feature" (Some ErrResourcesMutuallyExclusive) []]
  else
    let machine_feature :=
      if non_nil (MachineFeature f) && negb (non_nil (Machine f))
      then [Errorf "%w machine" (Some ErrResourceUnspecified) []]
      else [] in
    if non_nil (Machine f) || non_nil (Volume f)
    then
      if negb (non_nil (AppID f))
      then [Errorf "%w app" (Some ErrResourceUnspecified) []]
      else if non_nil (Machine f) && non_nil (Volume f)
      then [Errorf "%w: volume, machine" (Some ErrResourcesMutuallyExclusive) []]
      else machine_feature
    else machine_feature.

End flyio.

(** No caveat type registered from outside the package. *)
Definition no_user_caveats {A : Type} : UserCaveat Empty_set A := {|
  U_CaveatType := fun u : Empty_set => match u with end;
  U_Prohibits := fun (u : Empty_set) _ => match u with end;
  U_IsAttestation := fun u : Empty_set => match u with end
|}.

(** [*flyio.Access] as an [Access] of the macaroon package. *)
Definition flyio_Access (clock : Time) : Access flyio.Access := {|
  GetAction := flyio.GetAction;
  Now := flyio.Now clock;
  Access_Validate := flyio.Validate
|}.

(** An access to a machine of an app, and the same access with no
    organization. *)
Definition machine_access : flyio.Access :=
  {| flyio.OrgID := 1; flyio.AppID := Some 2%N; flyio.Action := 1;
     flyio.Feature := None; flyio.Volume := None;
     flyio.Machine := Some "m"%string; flyio.MachineFeature := Some "metrics"%string;
     flyio.Mutation := None; flyio.SourceMachine := None; flyio.Cluster := None |}.

Definition no_org_access : flyio.Access :=
  {| flyio.OrgID := 0; flyio.AppID := Some 2%N; flyio.Action := 1;
     flyio.Feature := None; flyio.Volume := None;
     flyio.Machine := Some "m"%string; flyio.MachineFeature := None;
     flyio.Mutation := None; flyio.SourceMachine := None; flyio.Cluster := None |}.

(* ===================================================================== *)
(** * Properties *)
(* ===================================================================== *)

(** ** Accumulating loops *)

Lemma fold_left_appendErrs {X : Type} (g : X -> error) (l : list X) (init : error) :
  fold_left (fun merr x => appendErrs merr (g x)) l init = init ++ concat (map g l).
Proof.
  revert init. induction l as [|x l IH]; intros init; simpl.
  - by rewrite app_nil_r.
  - rewrite IH. unfold appendErrs. by rewrite <- app_assoc.
Qed.

Lemma is_nil_true (e : error) : is_nil e = true <-> e = [].
Proof. destruct e; simpl; split; congruence. Qed.

Lemma is_nil_app (e1 e2 : error) : is_nil (e1 ++ e2) = is_nil e1 && is_nil e2.
Proof. by destruct e1. Qed.

Lemma errors_Is_app (e1 e2 : error) (t : Sentinel) :
  errors_Is (e1 ++ e2) t = errors_Is e1 t || errors_Is e2 t.
Proof. unfold errors_Is. apply existsb_app. Qed.

Lemma concat_nil_iff {X : Type} (ls : list (list X)) :
  concat ls = [] <-> Forall (fun l => l = []) ls.
Proof.
  induction ls as [|l ls IH]; simpl.
  - split; [constructor | done].
  - split.
    + intros H. apply app_eq_nil in H as [-> H]. constructor; [done | by apply IH].
    + intros H. inversion H; subst. simpl. by apply IH.
Qed.

Section CaveatProperties.
Context {U A : Type} {access_A : Access A} {user_U : UserCaveat U A}
  {codes : CaveatCodes}.

Implicit Types (c : Caveat U) (cs : CaveatSet U) (f a : A).

Lemma validateAccess_concat cs a :
  validateAccess cs a = caveat_failures cs a.
Proof.
  unfold validateAccess, caveat_failures.
  enough (G : forall init,
    fold_left (fun merr caveat =>
        if IsAttestation caveat then merr
        else appendErrs merr (Prohibits caveat a)) cs init
    = init ++ concat (map (fun c => Prohibits c a)
                        (filter (fun c => IsAttestation c = false) cs)))
    by apply (G []).
  induction cs as [|c cs IH]; intros init.
  - simpl. by rewrite app_nil_r.
  - rewrite filter_cons. cbn [fold_left]. rewrite IH.
    destruct (IsAttestation c) eqn:E.
    + by rewrite decide_False.
    + rewrite decide_True by done. simpl. unfold appendErrs. by rewrite <- app_assoc.
Qed.

Lemma Validate_concat cs (accesses : list A) :
  Validate cs accesses = concat (map (access_outcome cs) accesses).
Proof.
  unfold Validate.
  enough (G : forall init,
    fold_left (fun merr access =>
        let ferr := Access_Validate access in
        if negb (is_nil ferr) then appendErrs merr ferr
        else appendErrs merr (validateAccess cs access)) accesses init
    = init ++ concat (map (access_outcome cs) accesses))
    by apply (G []).
  induction accesses as [|a l IH]; intros init; simpl.
  - by rewrite app_nil_r.
  - rewrite IH. unfold access_outcome at 2, appendErrs.
    rewrite validateAccess_concat.
    destruct (is_nil (Access_Validate a)); simpl; by rewrite <- app_assoc.
Qed.

Lemma caveat_failures_nil cs a :
  caveat_failures cs a = [] <->
  forall c, c ∈ cs -> IsAttestation c = false -> Prohibits c a = [].
Proof.
  unfold caveat_failures. rewrite concat_nil_iff, Forall_map, Forall_forall.
  split.
  - intros H c Hc Hatt. apply H. by apply list_elem_of_filter.
  - intros H c Hc. apply list_elem_of_filter in Hc as [Hatt Hc]. by apply H.
Qed.

Lemma access_outcome_nil cs a :
  access_outcome cs a = [] <->
  Access_Validate a = [] /\
  forall c, c ∈ cs -> IsAttestation c = false -> Prohibits c a = [].
Proof.
  unfold access_outcome. destruct (is_nil (Access_Validate a)) eqn:E.
  - apply is_nil_true in E. rewrite caveat_failures_nil. tauto.
  - split; [intros Hnil | intros [Hnil _]]; by rewrite Hnil in E.
Qed.

Lemma elem_of_concat_map {X Y : Type} (g : X -> list Y) (l : list X) (y : Y) :
  y ∈ concat (map g l) <-> exists x, x ∈ l /\ y ∈ g x.
Proof.
  induction l as [|x l IH]; simpl.
  - split; [intros H; inversion H | intros (x & H & _); inversion H].
  - rewrite elem_of_app, IH. split.
    + intros [H | (x' & H1 & H2)]; [exists x | exists x']; split; auto; by constructor.
    + intros (x' & H1 & H2). apply elem_of_cons in H1 as [-> | H1]; [by left|].
      right. by exists x'.
Qed.

Lemma Validate_nil cs (accesses : list A) :
  Validate cs accesses = [] <->
  forall a, a ∈ accesses ->
    Access_Validate a = [] /\
    forall c, c ∈ cs -> IsAttestation c = false -> Prohibits c a = [].
Proof.
  rewrite Validate_concat, concat_nil_iff, Forall_map, Forall_forall.
  split; intros H a Ha; by apply access_outcome_nil, H.
Qed.

Lemma Validate_has_access_error cs (accesses : list A) a x :
  a ∈ accesses -> x ∈ Access_Validate a -> x ∈ Validate cs accesses.
Proof.
  intros Ha Hx. rewrite Validate_concat. apply elem_of_concat_map.
  exists a. split; [done|].
  unfold access_outcome. destruct (Access_Validate a); [inversion Hx | done].
Qed.

Lemma Validate_has_caveat_failure cs (accesses : list A) a c x :
  a ∈ accesses -> Access_Validate a = [] ->
  c ∈ cs -> IsAttestation c = false -> x ∈ Prohibits c a ->
  x ∈ Validate cs accesses.
Proof.
  intros Ha Hok Hc Hatt Hx. rewrite Validate_concat.
  apply elem_of_concat_map. exists a. split; [done|].
  unfold access_outcome, caveat_failures. rewrite Hok. simpl.
  apply elem_of_concat_map. exists c. split; [|done].
  by apply list_elem_of_filter.
Qed.

Lemma errors_Is_true (e : error) (t : Sentinel) :
  errors_Is e t = true <-> exists x, x ∈ e /\ failure_Is x t = true.
Proof.
  unfold errors_Is. rewrite existsb_exists.
  split; intros (x & H1 & H2); exists x; split; auto; by apply list_elem_of_In.
Qed.

(** C1 (amended): [Validate] goes through the accesses in order; an access
    whose own [Validate()] fails contributes that error and its caveats are
    not consulted, any other access contributes the failures of every
    caveat that is not an attestation.  The result is the concatenation of
    these contributions: it is [nil] exactly when every check passed, and
    every failure of every evaluated check is part of it, whatever failed
    before. *)
Theorem Validate_accumulates cs (accesses : list A) :
  Validate cs accesses = concat (map (access_outcome cs) accesses)
  /\ (Validate cs accesses = [] <->
      forall a, a ∈ accesses ->
        Access_Validate a = [] /\
        forall c, c ∈ cs -> IsAttestation c = false -> Prohibits c a = [])
  /\ (forall a x, a ∈ accesses -> x ∈ Access_Validate a ->
        x ∈ Validate cs accesses)
  /\ (forall a c x, a ∈ accesses -> Access_Validate a = [] ->
        c ∈ cs -> IsAttestation c = false -> x ∈ Prohibits c a ->
        x ∈ Validate cs accesses).
Proof.
  split; [apply Validate_concat|]. split; [apply Validate_nil|]. split.
  - intros a x. apply Validate_has_access_error.
  - intros a c x. apply Validate_has_caveat_failure.
Qed.

(** *** Caveat3P *)

(** C6: [Caveat3P.Prohibits] returns, for every access, an error wrapping
    [ErrBadCaveat]; a [Caveat3P] is not an attestation; so whenever
    [Validate] is given an access and a set holding a [Caveat3P], the result
    is an error, and it carries the [ErrBadCaveat] failure whenever that
    access itself is valid. *)
Theorem Caveat3P_always_denies (loc : string) (vid cid rn : list byte) :
  let c := Caveat3P loc vid cid rn in
  (forall f, Prohibits c f =
             [Errorf "%w (3rd party caveat)" (Some ErrBadCaveat) []])
  /\ (forall f, is_nil (Prohibits c f) = false /\
                errors_Is (Prohibits c f) ErrBadCaveat = true)
  /\ IsAttestation c = false
  /\ (forall cs (accesses : list A) a, c ∈ cs -> a ∈ accesses ->
        is_nil (Validate cs accesses) = false /\
        (Access_Validate a = [] ->
         errors_Is (Validate cs accesses) ErrBadCaveat = true)).
Proof.
  intros c. split; [done|]. split; [done|]. split; [done|].
  intros cs accesses a Hc Ha.
  set (x := Errorf "%w (3rd party caveat)" (Some ErrBadCaveat) []).
  assert (Hx : forall f, x ∈ Prohibits c f) by (intros f; apply list_elem_of_here).
  split.
  - destruct (Access_Validate a) as [|y e] eqn:E.
    + pose proof (Validate_has_caveat_failure cs accesses a c x Ha E Hc eq_refl (Hx a)) as H.
      destruct (Validate cs accesses); [inversion H | done].
    + assert (H : y ∈ Validate cs accesses).
      { apply (Validate_has_access_error cs accesses a); [done|]. rewrite E. by left. }
      destruct (Validate cs accesses); [inversion H | done].
  - intros E. apply errors_Is_true. exists x. split; [|done].
    by apply (Validate_has_caveat_failure cs accesses a c).
Qed.

(** *** ValidityWindow *)


(** *** IfPresent *)

Lemma ifs_loop_spec (f : A) (Ifs : list (Caveat U)) (st : error * bool) :
  let R_applies :=
    filter (fun r => errors_Is r ErrResourceUnspecified = false)
      (map (fun cc => Prohibits cc f) Ifs) in
  fold_left (fun st cc => ifs_step st (Prohibits cc f)) Ifs st =
  (st.1 ++ concat R_applies, st.2 || bool_decide (R_applies <> [])).
Proof.
  revert st. induction Ifs as [|cc Ifs IH]; intros st; cbn zeta in *.
  - cbn. rewrite app_nil_r, orb_false_r. by destruct st.
  - cbn [fold_left map]. rewrite IH, filter_cons. unfold ifs_step.
    destruct (errors_Is (Prohibits cc f) ErrResourceUnspecified) eqn:E;
      case_decide; try done; cbn [negb fst snd].
    simpl. unfold appendErrs. by rewrite <- app_assoc, orb_true_r.
Qed.

(** C2: with [R] the results of [Prohibits(f)] over [c.Ifs] and [R_applies]
    those that are not [ErrResourceUnspecified] ([nil] results included):
    when [R_applies] is not empty, [c.Prohibits(f)] is the combination of
    [R_applies]; otherwise it is [nil] exactly when the action of [f] is a
    subset of [c.Else], and wraps [ErrUnauthorizedForAction] when it is
    not. *)
Theorem IfPresent_Prohibits_spec (Ifs : list (Caveat U)) (Else : Action) (f : A) :
  let R := map (fun cc => Prohibits cc f) Ifs in
  let R_applies :=
    filter (fun r => errors_Is r ErrResourceUnspecified = false) R in
  (R_applies <> [] ->
     Prohibits (IfPresent Ifs Else) f = fold_left appendErrs R_applies [] /\
     (Prohibits (IfPresent Ifs Else) f = [] <-> Forall (fun r => r = []) R_applies))
  /\ (R_applies = [] ->
     (Prohibits (IfPresent Ifs Else) f = [] <->
      IsSubsetOf (GetAction f) Else = true) /\
     (IsSubsetOf (GetAction f) Else = false ->
      is_nil (Prohibits (IfPresent Ifs Else) f) = false /\
      errors_Is (Prohibits (IfPresent Ifs Else) f) ErrUnauthorizedForAction = true)).
Proof.
  intros R R_applies. cbn [Prohibits]. rewrite ifs_loop_spec.
  fold R. fold R_applies. cbn [fst snd]. rewrite orb_false_l, app_nil_l.
  assert (Hfold : fold_left appendErrs R_applies [] = concat R_applies).
  { rewrite (fold_left_appendErrs (fun r => r)), map_id. done. }
  split.
  - intros Hne. rewrite bool_decide_eq_true_2 by done. simpl.
    rewrite Hfold. split; [done | apply concat_nil_iff].
  - intros Hnil. rewrite Hnil. rewrite bool_decide_eq_false_2 by auto. simpl.
    destruct (IsSubsetOf (GetAction f) Else); simpl.
    + split; [done | discriminate].
    + split; [split; discriminate | intros _; split; reflexivity].
Qed.

End CaveatProperties.

(** ** The msgpack codec *)

Lemma enc_seq_Ok (e1 e2 : Enc) (o : list token) :
  e1 >>> e2 = Ok o <-> exists o1 o2, e1 = Ok o1 /\ e2 = Ok o2 /\ o = o1 ++ o2.
Proof.
  unfold enc_seq, rbind. split.
  - destruct e1 as [o1| | |]; try discriminate.
    destruct e2 as [o2| | |]; try discriminate.
    intros [= <-]. by exists o1, o2.
  - by intros (o1 & o2 & -> & -> & ->).
Qed.

Lemma dbind_Ok {X Y : Type} (d : Dec X) (k : X -> Dec Y) s y rest :
  dbind d k s = Ok (y, rest) <->
  exists x s', d s = Ok (x, s') /\ k x s' = Ok (y, rest).
Proof.
  unfold dbind, rbind. split.
  - destruct (d s) as [[x s']| | |]; try discriminate.
    intros H. by exists x, s'.
  - by intros (x & s' & -> & H).
Qed.

Lemma dbind_run {X Y : Type} (d : Dec X) (k : X -> Dec Y) s :
  dbind d k s = rbind (d s) (fun xs => k xs.1 xs.2).
Proof. reflexivity. Qed.

Ltac dstep := rewrite dbind_run; cbn [rbind fst snd].

Section CodecProperties.
Context {U A : Type} {access_A : Access A} {user_U : UserCaveat U A}
  {codes : CaveatCodes} {codec_U : UserCodec U} {leaves : JSONLeaves}
  {eq_U : EqDecision U}.
Context (reg : Registry U).

Implicit Types (c cavs : CaveatSet U) (cav : Caveat U) (s rest : list token).

Lemma encode_pairs_Ok (enc : Caveat U -> Enc) cavs (o : list token) :
  encode_pairs enc cavs = Ok o <->
  exists bodies, Forall2 (fun cav body => enc cav = Ok body) cavs bodies /\
                 o = alternating cavs bodies.
Proof.
  revert o. induction cavs as [|cav cavs IH]; intros o; cbn [encode_pairs].
  - split.
    + intros [= <-]. exists []. split; [constructor | done].
    + intros (bodies & HF & ->). inversion HF; subst. done.
  - rewrite enc_seq_Ok. split.
    + intros (o1 & o2 & H1 & H2 & ->).
      apply enc_seq_Ok in H1 as (t & body & [= <-] & Hbody & ->).
      apply IH in H2 as (bodies & HF & ->).
      exists (body :: bodies). split; [by constructor|].
      done.
    + intros (bodies & HF & ->). inversion HF as [|? body ? bodies' Hb HF']; subst.
      exists (TInt (Z.of_N (Caveat_CaveatType cav)) :: body), (alternating cavs bodies').
      split; [|split].
      * apply enc_seq_Ok. by exists [TInt (Z.of_N (Caveat_CaveatType cav))], body.
      * apply IH. by exists bodies'.
      * done.
Qed.

Lemma CaveatSet_EncodeMsgpack_Ok cavs (o : list token) :
  CaveatSet_EncodeMsgpack cavs = Ok o <->
  exists bodies, Forall2 (fun cav body => Caveat_Encode cav = Ok body) cavs bodies /\
    o = TArrayLen (2 * N.of_nat (length cavs)) :: alternating cavs bodies.
Proof.
  unfold CaveatSet_EncodeMsgpack, encode_set. rewrite enc_seq_Ok. split.
  - intros (o1 & o2 & [= <-] & H & ->). apply encode_pairs_Ok in H as (bodies & HF & ->).
    exists bodies. split; [done|]. simpl. by rewrite N.mul_comm.
  - intros (bodies & HF & ->).
    exists [TArrayLen (N.of_nat (length cavs) * 2)], (alternating cavs bodies).
    split; [done|]. split; [apply encode_pairs_Ok; by exists bodies|].
    simpl. by rewrite N.mul_comm.
Qed.

Lemma decode_pairs_spec (decSet : CaveatSet U -> Dec (CaveatSet U)) (n : nat)
    c s c' rest :
  decode_pairs reg decSet n c s = Ok (c', rest) <->
  exists cavs, length cavs = n /\ c' = c ++ cavs /\
               decoded_pairs reg decSet s cavs rest.
Proof.
  revert c s. induction n as [|n IH]; intros c s; cbn [decode_pairs].
  - unfold dret. split.
    + intros [= <- <-]. exists []. rewrite app_nil_r. repeat split. constructor.
    + intros (cavs & Hlen & -> & Hd). destruct cavs; [|done].
      inversion Hd; subst. by rewrite app_nil_r.
  - rewrite dbind_Ok. split.
    + intros (t & s1 & Ht & H). apply dbind_Ok in H as (zero & s1' & Hz & H).
      apply dbind_Ok in H as (cav & s2 & Hcav & H).
      apply IH in H as (cavs & Hlen & -> & Hd).
      unfold msgpack.DecodeUint in Ht. destruct s as [|[] s0]; try discriminate.
      injection Ht as <- <-.
      unfold dlift, rbind in Hz. destruct (typeToCaveat reg (uint64_of z)) eqn:Et;
        try discriminate. injection Hz as <- <-.
      exists (cav :: cavs). split; [simpl; by f_equal|]. split.
      * by rewrite <- app_assoc.
      * by econstructor.
    + intros (cavs & Hlen & -> & Hd). destruct cavs as [|cav cavs]; [done|].
      inversion Hd as [|z zero s1 ? s2 ? ? Ht Hcav Hd']; subst.
      exists (uint64_of z), s1. split; [done|].
      apply dbind_Ok. exists zero, s1. split; [unfold dlift; by rewrite Ht|].
      apply dbind_Ok. exists cav, s2. split; [done|].
      apply IH. exists cavs. split; [by injection Hlen|]. split; [|done].
      by rewrite <- app_assoc.
Qed.


Lemma even_container_header (k : N) :
  negb (Z.rem (Z.of_N (2 * k)) 2 =? 0)%Z = false /\
  Z.to_nat (Z.quot (Z.of_N (2 * k)) 2) = N.to_nat k.
Proof.
  replace (Z.of_N (2 * k)) with (Z.of_N k * 2)%Z by lia. split.
  - apply negb_false_iff, Z.eqb_eq. apply Z.rem_mul. lia.
  - rewrite Z.quot_mul by lia. lia.
Qed.


(** *** The unexported [rn] *)

Lemma erase_rn_CaveatType cav :
  Caveat_CaveatType (erase_rn cav) = Caveat_CaveatType cav.
Proof. by destruct cav. Qed.

Lemma encode_pairs_ext (enc enc' : Caveat U -> Enc) (f : Caveat U -> Caveat U) cavs :
  (forall cav, Caveat_CaveatType (f cav) = Caveat_CaveatType cav) ->
  Forall (fun cav => enc' (f cav) = enc cav) cavs ->
  encode_pairs enc' (map f cavs) = encode_pairs enc cavs.
Proof.
  intros Hty. induction 1 as [|cav cavs Hc _ IH]; [done|].
  cbn [map encode_pairs]. by rewrite Hty, Hc, IH.
Qed.

Lemma Caveat_Encode_erase_rn cav :
  Caveat_Encode (erase_rn cav) = Caveat_Encode cav.
Proof.
  induction cav as [l v c r|Ifs Else IH|nb na|p|u] using Caveat_ind; try done.
  cbn [erase_rn Caveat_Encode]. unfold encode_set.
  rewrite length_map.
  by rewrite (encode_pairs_ext Caveat_Encode Caveat_Encode erase_rn Ifs
                erase_rn_CaveatType IH).
Qed.

Lemma marshal_jcavs_ext (m m' : Caveat U -> result json) (f : Caveat U -> Caveat U) cavs :
  (forall cav, Caveat_CaveatType (f cav) = Caveat_CaveatType cav) ->
  Forall (fun cav => m' (f cav) = m cav) cavs ->
  marshal_jcavs reg m' (map f cavs) = marshal_jcavs reg m cavs.
Proof.
  intros Hty. induction 1 as [|cav cavs Hc _ IH]; [done|].
  cbn [map marshal_jcavs]. by rewrite Hty, Hc, IH.
Qed.

Lemma Caveat_MarshalJSON_erase_rn cav :
  Caveat_MarshalJSON reg (erase_rn cav) = Caveat_MarshalJSON reg cav.
Proof.
  induction cav as [l v c r|Ifs Else IH|nb na|p|u] using Caveat_ind; try done.
  cbn [erase_rn Caveat_MarshalJSON]. unfold marshal_set.
  by rewrite (marshal_jcavs_ext (Caveat_MarshalJSON reg) (Caveat_MarshalJSON reg)
                erase_rn Ifs erase_rn_CaveatType IH).
Qed.

Lemma CaveatSet_codecs_erase_rn cavs :
  CaveatSet_EncodeMsgpack (map erase_rn cavs) = CaveatSet_EncodeMsgpack cavs /\
  CaveatSet_MarshalJSON reg (map erase_rn cavs) = CaveatSet_MarshalJSON reg cavs.
Proof.
  unfold CaveatSet_EncodeMsgpack, encode_set, CaveatSet_MarshalJSON, marshal_set.
  rewrite length_map. split.
  - rewrite (encode_pairs_ext Caveat_Encode Caveat_Encode erase_rn cavs
               erase_rn_CaveatType); [done|].
    apply Forall_forall. intros cav _. apply Caveat_Encode_erase_rn.
  - rewrite (marshal_jcavs_ext (Caveat_MarshalJSON reg) (Caveat_MarshalJSON reg)
               erase_rn cavs erase_rn_CaveatType); [done|].
    apply Forall_forall. intros cav _. apply Caveat_MarshalJSON_erase_rn.
Qed.

(** C10: [rn] is in no encoding.  Two sets that differ in the [rn] of a
    [Caveat3P] and in nothing else have the same msgpack encoding and the
    same JSON encoding; so do, more generally, two sets that are equal once
    every [rn], at any depth, is left out. *)
Theorem rn_never_serialized :
  (forall (pre post : CaveatSet U) Location VID CID rn1 rn2,
     CaveatSet_EncodeMsgpack (pre ++ Caveat3P Location VID CID rn1 :: post) =
     CaveatSet_EncodeMsgpack (pre ++ Caveat3P Location VID CID rn2 :: post) /\
     CaveatSet_MarshalJSON reg (pre ++ Caveat3P Location VID CID rn1 :: post) =
     CaveatSet_MarshalJSON reg (pre ++ Caveat3P Location VID CID rn2 :: post))
  /\ (forall cavs1 cavs2 : CaveatSet U,
        map erase_rn cavs1 = map erase_rn cavs2 ->
        CaveatSet_EncodeMsgpack cavs1 = CaveatSet_EncodeMsgpack cavs2 /\
        CaveatSet_MarshalJSON reg cavs1 = CaveatSet_MarshalJSON reg cavs2).
Proof.
  assert (G : forall cavs1 cavs2 : CaveatSet U,
        map erase_rn cavs1 = map erase_rn cavs2 ->
        CaveatSet_EncodeMsgpack cavs1 = CaveatSet_EncodeMsgpack cavs2 /\
        CaveatSet_MarshalJSON reg cavs1 = CaveatSet_MarshalJSON reg cavs2).
  { intros cavs1 cavs2 Heq.
    destruct (CaveatSet_codecs_erase_rn cavs1) as [<- <-].
    destruct (CaveatSet_codecs_erase_rn cavs2) as [<- <-].
    by rewrite Heq. }
  split; [|exact G].
  intros pre post Location VID CID rn1 rn2. apply G.
  by rewrite !map_app.
Qed.

(** *** Round trip through msgpack *)

Lemma uint64_of_N (n : N) : in_uint64 n = true -> uint64_of (Z.of_N n) = n.
Proof.
  unfold in_uint64, uint64_of. intros H%N.ltb_lt.
  rewrite Z.mod_small; lia.
Qed.

Lemma int64_of_id (z : Z) : in_int64 z = true -> int64_of z = z.
Proof.
  unfold in_int64, int64_of. intros [H1%Z.leb_le H2%Z.ltb_lt]%andb_true_iff.
  rewrite Z.mod_small; lia.
Qed.

Lemma DecodeBytes_EncodeBytes (bs : list byte) o rest :
  msgpack.EncodeBytes bs = Ok o -> msgpack.DecodeBytes (o ++ rest) = Ok (bs, rest).
Proof. destruct bs; intros [= <-]; done. Qed.

Lemma EncodeBytes_length (bs : list byte) :
  exists t, msgpack.EncodeBytes bs = Ok [t].
Proof. destruct bs; eauto. Qed.

Lemma registered_type_spec cav :
  registered_type reg cav = true ->
  uint64_of (Z.of_N (Caveat_CaveatType cav)) = Caveat_CaveatType cav /\
  typeToCaveat reg (Caveat_CaveatType cav) = Ok (zero_of cav) /\
  caveatTypeToString reg (Caveat_CaveatType cav) <> EmptyString /\
  caveatTypeFromString reg (caveatTypeToString reg (Caveat_CaveatType cav)) =
    Caveat_CaveatType cav.
Proof.
  unfold registered_type. rewrite !andb_true_iff, !bool_decide_eq_true.
  intros [[[H1 H2] H3] H4]. split; [by apply uint64_of_N|]. split; [|split; [done|]].
  - unfold typeToCaveat. by rewrite H2.
  - unfold caveatTypeFromString. by rewrite H4.
Qed.

Lemma well_formed_registered cav :
  well_formed reg cav = true -> registered_type reg cav = true.
Proof. destruct cav; cbn [well_formed]; by intros [? _]%andb_true_iff. Qed.

Lemma alternating_length cavs bodies :
  Forall2 (fun cav body => True) cavs bodies ->
  Forall (fun body => S (length body) <= length (alternating cavs bodies))%nat bodies.
Proof.
  induction 1 as [|cav body cavs bodies _ _ IH]; [constructor|].
  unfold alternating in *. cbn [zip_with concat]. constructor.
  - rewrite length_app. simpl. lia.
  - eapply Forall_impl; [exact IH|]. intros b Hb. rewrite length_app. simpl in *. lia.
Qed.

(** The loop of the decoder undoes the loop of the encoder, as soon as the
    decoder of one caveat undoes its encoder. *)
Lemma decode_pairs_encode_pairs (decSet : CaveatSet U -> Dec (CaveatSet U))
    cavs bodies c0 rest :
  Forall2 (fun cav body =>
             well_formed reg cav = true /\
             forall rest', Caveat_Decode decSet (zero_of cav) (body ++ rest') =
                           Ok (erase_rn cav, rest')) cavs bodies ->
  decode_pairs reg decSet (length cavs) c0 (alternating cavs bodies ++ rest) =
    Ok (c0 ++ map erase_rn cavs, rest).
Proof.
  intros HF. revert c0. induction HF as [|cav body cavs bodies [Hwf Hd] _ IH];
    intros c0.
  - cbn. unfold dret. by rewrite app_nil_r.
  - apply well_formed_registered, registered_type_spec in Hwf as (Hu & Hz & _).
    unfold alternating. cbn [zip_with concat length decode_pairs map].
    unfold dbind at 1. cbn [msgpack.DecodeUint app rbind fst snd].
    rewrite Hu. unfold dbind at 1, dlift. rewrite Hz. cbn [rbind fst snd].
    unfold dbind at 1. rewrite <- app_assoc, Hd. cbn [rbind fst snd].
    fold (alternating cavs bodies). rewrite IH. by rewrite <- app_assoc.
Qed.

Section Roundtrip.
Context {laws_U : UserCodecLaws U} {laws_leaves : JSONLeavesLaws}.

Lemma set_msgpack_roundtrip cavs :
  Forall (msgpack_roundtrip_at reg) cavs ->
  forallb (well_formed reg) cavs = true ->
  forall o fuel rest c0,
    CaveatSet_EncodeMsgpack cavs = Ok o -> (length o <= fuel)%nat ->
    CaveatSet_DecodeMsgpack reg fuel c0 (o ++ rest) =
      Ok (c0 ++ map erase_rn cavs, rest).
Proof.
  intros HP Hwf o fuel rest c0 Henc Hfuel.
  apply CaveatSet_EncodeMsgpack_Ok in Henc as (bodies & HF & ->).
  destruct fuel as [|fuel]; [simpl in Hfuel; lia|].
  destruct (even_container_header (N.of_nat (length cavs))) as [H1 H2].
  cbn [CaveatSet_DecodeMsgpack app]. unfold dbind at 1.
  cbn [msgpack.DecodeArrayLen rbind fst snd]. rewrite H1, H2, Nat2N.id.
  apply decode_pairs_encode_pairs.
  assert (Hlen : Forall (fun body => length body <= fuel)%nat bodies).
  { eapply Forall_impl; [apply alternating_length with (cavs := cavs)|].
    - eapply Forall2_impl; [exact HF | done].
    - intros body Hb. simpl in Hfuel, Hb. lia. }
  clear Hfuel H1 H2.
  induction HF as [|cav body cavs bodies Hb HF IH]; [constructor|].
  inversion HP as [|? ? HPc HP']; subst.
  inversion Hlen as [|? ? Hl Hlen']; subst.
  cbn [forallb] in Hwf. apply andb_true_iff in Hwf as [Hw Hwf].
  constructor; [|by apply IH].
  split; [done|]. intros rest'. by apply HPc.
Qed.

Lemma Caveat_msgpack_roundtrip cav : msgpack_roundtrip_at reg cav.
Proof.
  induction cav as [l v c r|Ifs Else IH|nb na|p|u] using Caveat_ind;
    intros Hwf o fuel rest Henc Hfuel.
  - destruct v, c; injection Henc as <-; reflexivity.
  - cbn [well_formed] in Hwf.
    apply andb_true_iff in Hwf as [_ [Hifs Helse]%andb_true_iff].
    cbn [Caveat_Encode] in Henc.
    apply enc_seq_Ok in Henc as (o1 & o2 & Henc & [= <-] & ->).
    apply enc_seq_Ok in Henc as (o0 & oset & [= <-] & Hset & ->).
    rewrite length_app in Hfuel. simpl in Hfuel.
    cbn [zero_of Caveat_Decode app]. dstep. cbn. dstep. rewrite <- app_assoc.
    rewrite (set_msgpack_roundtrip Ifs IH Hifs oset fuel _ [] Hset) by lia.
    cbn. unfold dret. by rewrite uint64_of_N.
  - cbn [well_formed] in Hwf.
    apply andb_true_iff in Hwf as [_ [Hnb Hna]%andb_true_iff].
    injection Henc as <-. cbn. unfold dret. by rewrite !int64_of_id.
  - cbn [Caveat_Encode] in Henc. cbn [zero_of Caveat_Decode]. rewrite dbind_run.
    by rewrite (DecodeBytes_EncodeBytes p o rest Henc).
  - cbn [well_formed] in Hwf. apply andb_true_iff in Hwf as [_ Hv].
    cbn [Caveat_Encode] in Henc. cbn [zero_of Caveat_Decode]. rewrite dbind_run.
    by rewrite (U_msgpack_roundtrip u o rest Hv Henc).
Qed.

Lemma DecodeCaveats_MarshalMsgpack cavs o :
  forallb (well_formed reg) cavs = true ->
  CaveatSet_MarshalMsgpack cavs = Ok o ->
  DecodeCaveats reg o = Ok (map erase_rn cavs).
Proof.
  intros Hwf Henc. unfold DecodeCaveats.
  rewrite <- (app_nil_r o) at 2.
  rewrite (set_msgpack_roundtrip cavs) with (rest := []); try done.
  - apply Forall_forall. intros cav _. apply Caveat_msgpack_roundtrip.
  - lia.
Qed.

(** *** Round trip through JSON *)

Lemma decode_encode_bytes (bs : list byte) :
  jsonlib.decode_bytes (jsonlib.encode_bytes bs) = Ok bs.
Proof.
  destruct bs as [|b bs]; [done|]. cbn. by rewrite base64_roundtrip.
Qed.

Lemma marshal_jcavs_Ok (m : Caveat U -> result json) cavs jcavs :
  marshal_jcavs reg m cavs = Ok jcavs ->
  Forall2 (fun cav jc =>
             exists body, m cav = Ok body /\
               jc = {| jc_Type := caveatTypeToString reg (Caveat_CaveatType cav);
                       jc_Body := Some body |}) cavs jcavs.
Proof.
  revert jcavs. induction cavs as [|cav cavs IH]; intros jcavs; cbn [marshal_jcavs].
  - intros [= <-]. constructor.
  - case_bool_decide; [discriminate|].
    destruct (m cav) as [body| | |] eqn:Hm; try discriminate. cbn [rbind].
    destruct (marshal_jcavs reg m cavs) as [jcavs'| | |]; try discriminate.
    cbn [rbind]. intros [= <-]. constructor; [by exists body | by apply IH].
Qed.

Lemma unmarshal_jcavs_Marshal (jcavs : list jsonCaveat) :
  Forall (fun jc => is_Some (jc_Body jc)) jcavs ->
  unmarshal_jcavs (JArr (map jsonCaveat_Marshal jcavs)) = Ok jcavs.
Proof.
  cbn [unmarshal_jcavs]. induction 1 as [|[ty body] jcavs [b Hb] _ IH]; [done|].
  cbn [map mapM]. rewrite IH. cbn in Hb. subst body. reflexivity.
Qed.

Lemma json_depth_item (jc : jsonCaveat) (body : json) :
  jc_Body jc = Some body ->
  json_depth (jsonCaveat_Marshal jc) = S (json_depth body).
Proof. intros H. unfold jsonCaveat_Marshal. rewrite H. cbn. lia. Qed.

Lemma json_depth_JArr (items : list json) (x : json) :
  x ∈ items -> (S (json_depth x) <= json_depth (JArr items))%nat.
Proof.
  cbn [json_depth]. induction 1 as [x items|x y items _ IH]; cbn [fold_right]; lia.
Qed.

Lemma set_json_roundtrip cavs :
  Forall (json_roundtrip_at reg) cavs ->
  forallb (well_formed reg) cavs = true ->
  forallb bound_prefixes cavs = true ->
  forall j fuel,
    CaveatSet_MarshalJSON reg cavs = Ok j -> (json_depth j <= S fuel)%nat ->
    (exists items, j = JArr items) /\
    CaveatSet_UnmarshalJSON reg (S fuel) j = Ok (map erase_rn cavs).
Proof.
  intros HP Hwf Hbp j fuel Hm Hfuel.
  unfold CaveatSet_MarshalJSON, marshal_set in Hm.
  destruct (marshal_jcavs reg (Caveat_MarshalJSON reg) cavs) as [jcavs| | |] eqn:Hj;
    try discriminate.
  injection Hm as <-. split; [by eexists|].
  apply marshal_jcavs_Ok in Hj.
  cbn [CaveatSet_UnmarshalJSON]. rewrite unmarshal_jcavs_Marshal.
  2:{ eapply Forall2_Forall_r; [exact Hj|]. apply Forall_forall.
      intros cav _ jc (body & _ & ->). by eexists. }
  cbn [rbind].
  assert (Hd : Forall (fun jc => forall body, jc_Body jc = Some body ->
                                  (json_depth body <= fuel)%nat) jcavs).
  { apply Forall_forall. intros jc Hjc body Hbody.
    pose proof (json_depth_JArr (map jsonCaveat_Marshal jcavs) (jsonCaveat_Marshal jc))
      as Hle.
    rewrite (json_depth_item jc body Hbody) in Hle.
    specialize (Hle ltac:(by apply list_elem_of_fmap_2)). lia. }
  clear Hfuel.
  induction Hj as [|cav jc cavs jcavs (body & Hbody & ->) Hj IH]; [done|].
  inversion HP as [|? ? HPc HP']; subst.
  inversion Hd as [|? ? Hdc Hd']; subst.
  cbn [forallb] in Hwf, Hbp.
  apply andb_true_iff in Hwf as [Hw Hwf]. apply andb_true_iff in Hbp as [Hb Hbp].
  cbn [map mapM]. rewrite (IH HP' Hwf Hbp Hd'). 
  pose proof (well_formed_registered cav Hw) as Hr.
  apply registered_type_spec in Hr as (_ & Hz & _ & Hs).
  unfold unmarshal_jcav. cbn [jc_Type jc_Body]. rewrite Hs, Hz.
  destruct (HPc Hw Hb body fuel Hbody (Hdc body eq_refl)) as [_ ->]. done.
Qed.

Lemma set_Caveat3P_fields (Location : string) (VID CID : list byte) :
  jsonlib.decode_struct "macaroon.Caveat3P" set_Caveat3P
    (JObj [("Location"%string, JStr Location);
           ("VID"%string, jsonlib.encode_bytes VID);
           ("CID"%string, jsonlib.encode_bytes CID)]) (EmptyString, [], []) =
  Ok (Location, VID, CID).
Proof.
  unfold jsonlib.decode_struct. cbn [fold_left fst snd].
  change (jsonlib.fold_name "Location") with "location"%string.
  change (jsonlib.fold_name "VID") with "vid"%string.
  change (jsonlib.fold_name "CID") with "cid"%string.
  change (set_Caveat3P "location" (JStr Location))
    with (Ok (fun t : string * list byte * list byte => (Location, t.1.2, t.2))).
  change (set_Caveat3P "vid" (jsonlib.encode_bytes VID))
    with (rmap (fun x (t : string * list byte * list byte) => (t.1.1, x, t.2))
            (jsonlib.decode_bytes (jsonlib.encode_bytes VID))).
  change (set_Caveat3P "cid" (jsonlib.encode_bytes CID))
    with (rmap (fun x (t : string * list byte * list byte) => (t.1.1, t.1.2, x))
            (jsonlib.decode_bytes (jsonlib.encode_bytes CID))).
  by rewrite !decode_encode_bytes.
Qed.

Lemma set_ValidityWindow_fields (NotBefore NotAfter : Z) :
  in_int64 NotBefore = true -> in_int64 NotAfter = true ->
  jsonlib.decode_struct "macaroon.ValidityWindow" set_ValidityWindow
    (JObj [("not_before"%string, JNum NotBefore);
           ("not_after"%string, JNum NotAfter)]) (0%Z, 0%Z) =
  Ok (NotBefore, NotAfter).
Proof.
  unfold in_int64. intros Hnb Hna.
  unfold jsonlib.decode_struct. cbn [fold_left fst snd].
  change (jsonlib.fold_name "not_before") with "not_before"%string.
  change (jsonlib.fold_name "not_after") with "not_after"%string.
  change (set_ValidityWindow "not_before" (JNum NotBefore))
    with (rmap (fun upd (t : Z * Z) => (upd t.1, t.2))
            (jsonlib.decode_int64 (JNum NotBefore))).
  change (set_ValidityWindow "not_after" (JNum NotAfter))
    with (rmap (fun upd (t : Z * Z) => (t.1, upd t.2))
            (jsonlib.decode_int64 (JNum NotAfter))).
  unfold jsonlib.decode_int64. by rewrite Hnb, Hna.
Qed.

Lemma set_IfPresent_fields (unmarshalSet : json -> result (CaveatSet U))
    (jifs els : json) (Ifs : CaveatSet U) (Else : Action) :
  jifs <> JNull -> unmarshalSet jifs = Ok Ifs -> Action_UnmarshalJSON els = Ok Else ->
  jsonlib.decode_struct "macaroon.IfPresent" (set_IfPresent unmarshalSet)
    (JObj [("ifs"%string, jifs); ("else"%string, els)]) ([], 0%N) =
  Ok (Ifs, Else).
Proof.
  intros Hnn Hifs Hels.
  unfold jsonlib.decode_struct. cbn [fold_left fst snd].
  change (jsonlib.fold_name "ifs") with "ifs"%string.
  change (jsonlib.fold_name "else") with "else"%string.
  assert (H1 : set_IfPresent unmarshalSet "ifs" jifs =
               Ok (fun t : CaveatSet U * Action => (Ifs, t.2))).
  { unfold set_IfPresent. rewrite bool_decide_eq_true_2 by done.
    destruct jifs; try done; by rewrite Hifs. }
  rewrite H1.
  change (set_IfPresent unmarshalSet "else" els)
    with (rmap (fun x (t : CaveatSet U * Action) => (t.1, x))
            (Action_UnmarshalJSON els)).
  by rewrite Hels.
Qed.

Lemma json_depth_IfPresent (jifs els : json) :
  (S (json_depth jifs) <=
   json_depth (JObj [("ifs"%string, jifs); ("else"%string, els)]))%nat.
Proof. cbn. lia. Qed.

Lemma Caveat_json_roundtrip cav : json_roundtrip_at reg cav.
Proof.
  induction cav as [l v c r|Ifs Else IH|nb na|p|u] using Caveat_ind;
    intros Hwf Hbp j fuel Hm Hfuel.
  - injection Hm as <-. split; [done|].
    cbn [zero_of Caveat_UnmarshalJSON Caveat_fill]. by rewrite set_Caveat3P_fields.
  - cbn [well_formed] in Hwf.
    apply andb_true_iff in Hwf as [_ [Hifs Helse]%andb_true_iff].
    cbn [bound_prefixes] in Hbp. cbn [Caveat_MarshalJSON] in Hm.
    destruct (marshal_set reg (Caveat_MarshalJSON reg) Ifs) as [jifs| | |] eqn:Hj;
      try discriminate. cbn [rbind] in Hm.
    destruct (Action_MarshalJSON Else) as [els| | |] eqn:He; try discriminate.
    injection Hm as <-. split; [done|].
    pose proof (json_depth_IfPresent jifs els) as Hd.
    destruct fuel as [|fuel]; [lia|].
    destruct (set_json_roundtrip Ifs IH Hifs Hbp jifs fuel Hj ltac:(lia))
      as [[items ->] Hu].
    cbn [zero_of Caveat_UnmarshalJSON Caveat_fill].
    rewrite (set_IfPresent_fields _ (JArr items) els (map erase_rn Ifs) Else);
      [done|done|done|]. by apply Action_json_roundtrip.
  - cbn [well_formed] in Hwf.
    apply andb_true_iff in Hwf as [_ [Hnb Hna]%andb_true_iff].
    injection Hm as <-. split; [done|].
    cbn [zero_of Caveat_UnmarshalJSON Caveat_fill].
    by rewrite set_ValidityWindow_fields.
  - cbn [bound_prefixes] in Hbp. apply negb_true_iff, bool_decide_eq_false in Hbp.
    destruct p as [|b p]; [done|]. injection Hm as <-. split; [done|].
    cbn [zero_of Caveat_UnmarshalJSON Caveat_fill jsonlib.encode_bytes
         jsonlib.decode_bytes].
    by rewrite base64_roundtrip.
  - cbn [well_formed] in Hwf. apply andb_true_iff in Hwf as [_ Hv].
    cbn [Caveat_MarshalJSON] in Hm.
    destruct (U_json_roundtrip u j Hv Hm) as [Hnn Hu]. split; [done|].
    cbn [zero_of]. destruct j; try done; cbn [Caveat_UnmarshalJSON Caveat_fill];
      by rewrite Hu.
Qed.

Lemma json_Unmarshal_MarshalJSON cavs j :
  forallb (well_formed reg) cavs = true ->
  forallb bound_prefixes cavs = true ->
  CaveatSet_MarshalJSON reg cavs = Ok j ->
  json_Unmarshal reg j = Ok (map erase_rn cavs).
Proof.
  intros Hwf Hbp Hm. unfold json_Unmarshal.
  apply (set_json_roundtrip cavs); try done; [|lia].
  apply Forall_forall. intros cav _. apply Caveat_json_roundtrip.
Qed.

(** *** Fuel: [json_Unmarshal] has enough *)

Lemma rmap_returns {X Y : Type} (g : X -> Y) (r : result X) :
  r <> OutOfFuel -> rmap g r <> OutOfFuel.
Proof. by destruct r. Qed.

Lemma rthen_returns {X Y Z : Type} (r1 : result X) (r2 : result Y) (g : X -> Y -> Z) :
  r1 <> OutOfFuel -> r2 <> OutOfFuel -> rthen r1 r2 g <> OutOfFuel.
Proof. by destruct r1, r2. Qed.

Lemma rthen_Ok {X Y Z : Type} (r1 : result X) (r2 : result Y) (g : X -> Y -> Z) z :
  rthen r1 r2 g = Ok z <-> exists x y, r1 = Ok x /\ r2 = Ok y /\ z = g x y.
Proof.
  split.
  - destruct r1 as [x| | |], r2 as [y| | |]; try discriminate.
    intros [= <-]. by exists x, y.
  - by intros (x & y & -> & -> & ->).
Qed.

Lemma mapM_returns {X Y : Type} (f : X -> result Y) (l : list X) :
  Forall (fun x => f x <> OutOfFuel) l -> mapM f l <> OutOfFuel.
Proof.
  induction 1 as [|x l Hx _ IH]; [done|]. cbn [mapM]. by apply rthen_returns.
Qed.

Lemma decode_struct_returns {T : Type} (what : string)
    (set : string -> json -> result (T -> T)) (j : json) (t : T) :
  (forall fields, j = JObj fields ->
     Forall (fun kv => set (jsonlib.fold_name kv.1) kv.2 <> OutOfFuel) fields) ->
  jsonlib.decode_struct what set j t <> OutOfFuel.
Proof.
  intros H. destruct j as [| | | | |fields]; try done.
  specialize (H fields eq_refl). cbn [jsonlib.decode_struct].
  assert (G : forall acc : result T, acc <> OutOfFuel ->
    fold_left (fun acc kv => rthen acc (set (jsonlib.fold_name kv.1) kv.2)
                               (fun t upd => upd t)) fields acc <> OutOfFuel).
  { induction H as [|kv fields Hkv _ IH]; intros acc Hacc; [done|].
    cbn [fold_left]. apply IH. by apply rthen_returns. }
  by apply G.
Qed.

Lemma json_depth_JObj (fields : list (string * json)) (kv : string * json) :
  kv ∈ fields -> (S (json_depth kv.2) <= json_depth (JObj fields))%nat.
Proof.
  cbn [json_depth]. induction 1 as [kv fields|kv y fields _ IH]; cbn [fold_right]; lia.
Qed.

(** The raw body that [json.Unmarshal] stores in a [jsonCaveat] is a member
    of the object it reads. *)
Lemma jsonCaveat_body_member (item : json) (jc0 jc : jsonCaveat) (body : json) :
  jsonlib.decode_struct "macaroon.jsonCaveat" set_jsonCaveat item jc0 = Ok jc ->
  jc_Body jc = Some body ->
  jc_Body jc0 = Some body \/ (S (json_depth body) <= json_depth item)%nat.
Proof.
  destruct item as [| | | | |fields]; try discriminate.
  { intros [= <-] H. by left. }
  cbn [jsonlib.decode_struct].
  assert (G : forall (acc : result jsonCaveat),
    fold_left (fun acc kv => rthen acc (set_jsonCaveat (jsonlib.fold_name kv.1) kv.2)
                               (fun t upd => upd t)) fields acc = Ok jc ->
    jc_Body jc = Some body ->
    (exists a, acc = Ok a /\ jc_Body a = Some body) \/
    exists kv, kv ∈ fields /\ kv.2 = body).
  { induction fields as [|kv fields IH]; intros acc Hf Hb.
    - left. by exists jc.
    - cbn [fold_left] in Hf. destruct (IH _ Hf Hb) as [(a & Ha & Hab)|(kv' & Hin & Hkv)].
      + apply rthen_Ok in Ha as (a0 & upd & -> & Hupd & ->).
        unfold set_jsonCaveat in Hupd.
        destruct (bool_decide (jsonlib.fold_name kv.1 = "type"%string));
          [|destruct (bool_decide (jsonlib.fold_name kv.1 = "body"%string))].
        * destruct (jsonlib.decode_string kv.2) as [upd'| | |]; try discriminate.
          injection Hupd as <-. left. by exists a0.
        * injection Hupd as <-. cbn in Hab. injection Hab as <-.
          right. exists kv. split; [left | done].
        * injection Hupd as <-. left. by exists a0.
      + right. exists kv'. split; [by right | done]. }
  intros Hf Hb. destruct (G _ Hf Hb) as [(a & [= <-] & Ha)|(kv & Hin & <-)].
  - by left.
  - right. by apply json_depth_JObj.
Qed.

Lemma unmarshal_jcavs_returns (b : json) :
  unmarshal_jcavs b <> OutOfFuel /\
  forall jcavs, unmarshal_jcavs b = Ok jcavs ->
    Forall (fun jc => forall body, jc_Body jc = Some body ->
                        (S (S (json_depth body)) <= json_depth b)%nat) jcavs.
Proof.
  destruct b as [| | | |items|]; try (split; [done | discriminate]).
  { split; [done|]. intros jcavs [= <-]. constructor. }
  cbn [unmarshal_jcavs]. split.
  - apply mapM_returns, Forall_forall. intros item _.
    apply decode_struct_returns. intros fields _. apply Forall_forall.
    intros kv _. unfold set_jsonCaveat.
    destruct (bool_decide (jsonlib.fold_name kv.1 = "type"%string));
      [|by destruct (bool_decide (jsonlib.fold_name kv.1 = "body"%string))].
    apply rmap_returns. by destruct kv.2.
  - assert (G : forall l jcavs,
      mapM (fun item => jsonlib.decode_struct "macaroon.jsonCaveat" set_jsonCaveat
                          item {| jc_Type := EmptyString; jc_Body := None |}) l
        = Ok jcavs ->
      Forall (fun jc => forall body, jc_Body jc = Some body ->
                exists item, item ∈ l /\ (S (json_depth body) <= json_depth item)%nat)
        jcavs).
    { induction l as [|item l IH]; intros jcavs; cbn [mapM].
      - intros [= <-]. constructor.
      - intros (jc & jcavs' & Hjc & Hl & ->)%rthen_Ok. constructor.
        + intros body Hb.
          destruct (jsonCaveat_body_member item _ jc body Hjc Hb) as [?|Hle];
            [done|]. exists item. split; [left | done].
        + eapply Forall_impl; [by apply IH|]. intros jc' H' body Hb.
          destruct (H' body Hb) as (it & Hin & Hle). exists it. split; [by right|done]. }
    intros jcavs Hj. eapply Forall_impl; [by apply G|].
    intros jc H body Hb. destruct (H body Hb) as (item & Hin & Hle).
    pose proof (json_depth_JArr items item Hin). lia.
Qed.

Lemma decode_bytes_returns (v : json) : jsonlib.decode_bytes v <> OutOfFuel.
Proof. destruct v; try done. cbn. by destruct (base64_decode _). Qed.

Lemma decode_string_returns (v : json) : jsonlib.decode_string v <> OutOfFuel.
Proof. by destruct v. Qed.

Lemma decode_int64_returns (v : json) : jsonlib.decode_int64 v <> OutOfFuel.
Proof. destruct v; try done. cbn. by case_match. Qed.

Lemma set_Caveat3P_returns (k : string) (v : json) : set_Caveat3P k v <> OutOfFuel.
Proof.
  unfold set_Caveat3P. repeat case_bool_decide; try done; apply rmap_returns;
    auto using decode_bytes_returns, decode_string_returns.
Qed.

Lemma set_ValidityWindow_returns (k : string) (v : json) :
  set_ValidityWindow k v <> OutOfFuel.
Proof.
  unfold set_ValidityWindow. repeat case_bool_decide; try done; apply rmap_returns;
    auto using decode_int64_returns.
Qed.

Lemma set_IfPresent_returns (unmarshalSet : json -> result (CaveatSet U))
    (k : string) (v : json) :
  unmarshalSet v <> OutOfFuel -> set_IfPresent unmarshalSet k v <> OutOfFuel.
Proof.
  intros Hv. unfold set_IfPresent. repeat case_bool_decide; try done.
  - destruct v; try done; by apply rmap_returns.
  - apply rmap_returns, Action_UnmarshalJSON_returns.
Qed.

Lemma Caveat_UnmarshalJSON_returns (unmarshalSet : json -> result (CaveatSet U))
    cav (body : json) :
  (forall v, (S (json_depth v) <= json_depth body)%nat -> unmarshalSet v <> OutOfFuel) ->
  Caveat_UnmarshalJSON unmarshalSet cav body <> OutOfFuel.
Proof.
  intros Hset.
  assert (G : Caveat_fill unmarshalSet cav body <> OutOfFuel); [|by destruct body].
  destruct cav as [l v c r|Ifs Else|nb na|p|u]; cbn [Caveat_fill];
    apply rmap_returns;
    try (apply decode_struct_returns; intros fields ->; apply Forall_forall;
         intros kv Hkv).
  - apply set_Caveat3P_returns.
  - apply set_IfPresent_returns, Hset. by apply json_depth_JObj.
  - apply set_ValidityWindow_returns.
  - apply decode_bytes_returns.
  - apply U_UnmarshalJSON_returns.
Qed.

Lemma unmarshal_rounds_return (fuel : nat) :
  (forall b, (S (json_depth b) <= fuel)%nat ->
             CaveatSet_UnmarshalJSON reg fuel b <> OutOfFuel) ->
  forall b jcavs, (json_depth b <= fuel)%nat -> unmarshal_jcavs b = Ok jcavs ->
    Forall (fun jc => unmarshal_jcav reg (CaveatSet_UnmarshalJSON reg fuel) jc
                      <> OutOfFuel) jcavs.
Proof.
  intros IH b jcavs Hfuel Hj.
  destruct (unmarshal_jcavs_returns b) as [_ Hdepth].
  eapply Forall_impl; [exact (Hdepth jcavs Hj)|].
  intros jc Hjc. cbn beta in Hjc. unfold unmarshal_jcav.
  destruct (typeToCaveat reg _) as [cav| | |]; try done.
  destruct (jc_Body jc) as [body|] eqn:Hbody; [|done].
  apply Caveat_UnmarshalJSON_returns. intros v Hv. apply IH.
  specialize (Hjc body eq_refl). lia.
Qed.

Lemma CaveatSet_UnmarshalJSON_returns (fuel : nat) (b : json) :
  (S (json_depth b) <= fuel)%nat -> CaveatSet_UnmarshalJSON reg fuel b <> OutOfFuel.
Proof.
  revert b. induction fuel as [|fuel IH]; intros b Hfuel; [lia|].
  cbn [CaveatSet_UnmarshalJSON].
  destruct (unmarshal_jcavs_returns b) as [Hret _].
  destruct (unmarshal_jcavs b) as [jcavs| | |] eqn:Hj; try done. cbn [rbind].
  apply mapM_returns. apply (unmarshal_rounds_return fuel IH b); [lia | done].
Qed.

Lemma json_Unmarshal_returns (b : json) : json_Unmarshal reg b <> OutOfFuel.
Proof. apply CaveatSet_UnmarshalJSON_returns. lia. Qed.

(** *** Types that are not registered *)

Lemma decode_pairs_add (decSet : CaveatSet U -> Dec (CaveatSet U)) (k n : nat) c s :
  decode_pairs reg decSet (k + n) c s =
  rbind (decode_pairs reg decSet k c s)
    (fun r => decode_pairs reg decSet n r.1 r.2).
Proof.
  revert c s. induction k as [|k IH]; intros c s; [done|].
  cbn [Nat.add decode_pairs]. rewrite !dbind_run.
  destruct (msgpack.DecodeUint s) as [[t s1]| | |]; try done. cbn [rbind fst snd].
  rewrite !dbind_run.
  destruct (dlift (typeToCaveat reg t) s1) as [[cav s2]| | |]; try done.
  cbn [rbind fst snd]. rewrite !dbind_run.
  destruct (Caveat_Decode decSet cav s2) as [[cav' s3]| | |]; try done.
  cbn [rbind fst snd]. apply IH.
Qed.

Lemma decode_pairs_unregistered (decSet : CaveatSet U -> Dec (CaveatSet U))
    (n : nat) c (z : Z) rest :
  t2c reg !! uint64_of z = None ->
  decode_pairs reg decSet (S n) c (TInt z :: rest) = Fail (unregistered (uint64_of z)).
Proof.
  intros Hz. cbn [decode_pairs]. rewrite dbind_run. cbn. rewrite dbind_run.
  unfold dlift, typeToCaveat. by rewrite Hz.
Qed.

Lemma DecodeMsgpack_unregistered (fuel : nat) c s cavs (z : Z) rest (m : nat) :
  decoded_pairs reg (CaveatSet_DecodeMsgpack reg fuel) s cavs (TInt z :: rest) ->
  t2c reg !! uint64_of z = None ->
  CaveatSet_DecodeMsgpack reg (S fuel) c
    (TArrayLen (2 * N.of_nat (length cavs + S m)) :: s) =
  Fail (unregistered (uint64_of z)).
Proof.
  intros Hd Hz.
  destruct (even_container_header (N.of_nat (length cavs + S m))) as [H1 H2].
  cbn [CaveatSet_DecodeMsgpack]. rewrite dbind_run. cbn [msgpack.DecodeArrayLen rbind fst snd].
  rewrite H1, H2, Nat2N.id, decode_pairs_add.
  assert (Hk : decode_pairs reg (CaveatSet_DecodeMsgpack reg fuel) (length cavs) c s =
               Ok (c ++ cavs, TInt z :: rest)).
  { apply decode_pairs_spec. by exists cavs. }
  rewrite Hk. cbn [rbind fst snd]. by apply decode_pairs_unregistered.
Qed.

Lemma rthen_plain {X Y Z : Type} (r1 : result X) (r2 : result Y) (g : X -> Y -> Z) :
  plain r1 -> plain r2 -> plain (rthen r1 r2 g).
Proof. by destruct r1, r2. Qed.

Lemma mapM_plain {X Y : Type} (f : X -> result Y) (l : list X) :
  Forall (fun x => plain (f x)) l -> plain (mapM f l).
Proof.
  induction 1 as [|x l Hx _ IH]; [done|]. cbn [mapM]. by apply rthen_plain.
Qed.

Lemma unmarshal_jcavs_plain (b : json) : plain (unmarshal_jcavs b).
Proof.
  destruct b as [| | | |items|]; try done. cbn [unmarshal_jcavs].
  apply mapM_plain, Forall_forall. intros item _.
  destruct item as [| | | | |fields]; try done. cbn [jsonlib.decode_struct].
  assert (G : forall acc : result jsonCaveat, plain acc ->
    plain (fold_left (fun acc kv => rthen acc (set_jsonCaveat (jsonlib.fold_name kv.1) kv.2)
                               (fun t upd => upd t)) fields acc)).
  { induction fields as [|kv fields IH]; intros acc Hacc; [done|].
    cbn [fold_left]. apply IH, rthen_plain; [done|]. unfold set_jsonCaveat.
    repeat case_bool_decide; try done. by destruct kv.2. }
  by apply G.
Qed.

Lemma mapM_lookup {X Y : Type} (f : X -> result Y) (l : list X) (ys : list Y)
    (i : nat) (x : X) :
  mapM f l = Ok ys -> l !! i = Some x -> exists y, ys !! i = Some y /\ f x = Ok y.
Proof.
  revert ys i. induction l as [|x0 l IH]; intros ys i; [done|].
  cbn [mapM]. intros (y0 & ys' & H0 & Hl & ->)%rthen_Ok.
  destruct i as [|i]; cbn.
  - intros [= <-]. by exists y0.
  - intros Hi. by apply (IH ys').
Qed.

Lemma mapM_Fail {X Y : Type} (f : X -> result Y) (l : list X) (i : nat) (x : X) e :
  l !! i = Some x -> f x = Fail e ->
  Forall (fun x' => f x' <> OutOfFuel) l ->
  exists e', mapM f l = Fail e'.
Proof.
  revert i. induction l as [|x0 l IH]; intros i; [done|].
  intros Hi Hx Hall. inversion Hall as [|? ? H0 Hall']; subst. cbn [mapM].
  destruct i as [|i]; cbn in Hi.
  - injection Hi as ->. rewrite Hx. by exists e.
  - destruct (IH i Hi Hx Hall') as [e' ->].
    destruct (f x0) as [y| e0| |]; try done; by eexists.
Qed.

Lemma json_Unmarshal_unregistered (items : list json) (i : nat) (item : json)
    (jc : jsonCaveat) :
  items !! i = Some item ->
  jsonlib.decode_struct "macaroon.jsonCaveat" set_jsonCaveat item
    {| jc_Type := EmptyString; jc_Body := None |} = Ok jc ->
  t2c reg !! caveatTypeFromString reg (jc_Type jc) = None ->
  exists e, json_Unmarshal reg (JArr items) = Fail e.
Proof.
  intros Hi Hjc Hty. unfold json_Unmarshal.
  set (fuel := json_depth (JArr items)). cbn [CaveatSet_UnmarshalJSON].
  pose proof (unmarshal_jcavs_plain (JArr items)) as Hplain.
  destruct (unmarshal_jcavs (JArr items)) as [jcavs|e| |] eqn:Hj; try done;
    [|by exists e].
  cbn [rbind].
  destruct (mapM_lookup _ items jcavs i item Hj Hi) as (jc' & Hi' & Hjc').
  assert (jc' = jc) as -> by congruence.
  eapply (mapM_Fail _ jcavs i jc); [done| |].
  - unfold unmarshal_jcav, typeToCaveat. by rewrite Hty.
  - apply (unmarshal_rounds_return fuel) with (b := JArr items); [|done|done].
    intros b. apply CaveatSet_UnmarshalJSON_returns.
Qed.

Lemma decoded_pairs_encoded (fuel : nat) cavs bodies rest :
  forallb (well_formed reg) cavs = true ->
  Forall2 (fun cav body => Caveat_Encode cav = Ok body) cavs bodies ->
  (length (alternating cavs bodies) <= fuel)%nat ->
  decoded_pairs reg (CaveatSet_DecodeMsgpack reg fuel)
    (alternating cavs bodies ++ rest) (map erase_rn cavs) rest.
Proof.
  intros Hwf HF Hfuel.
  assert (Hd : decode_pairs reg (CaveatSet_DecodeMsgpack reg fuel) (length cavs) []
                 (alternating cavs bodies ++ rest) = Ok ([] ++ map erase_rn cavs, rest)).
  { apply decode_pairs_encode_pairs.
    assert (Hlen : Forall (fun body => length body <= fuel)%nat bodies).
    { eapply Forall_impl; [apply alternating_length with (cavs := cavs)|].
      - eapply Forall2_impl; [exact HF | done].
      - intros body Hb. simpl in Hb. lia. }
    clear Hfuel. induction HF as [|cav body cavs bodies Hb HF IH]; [constructor|].
    inversion Hlen as [|? ? Hl Hlen']; subst.
    cbn [forallb] in Hwf. apply andb_true_iff in Hwf as [Hw Hwf].
    constructor; [|by apply IH].
    split; [done|]. intros rest'. by apply Caveat_msgpack_roundtrip. }
  apply decode_pairs_spec in Hd as (cavs' & _ & Heq & Hd). cbn [app] in Heq.
  by subst cavs'.
Qed.

Lemma DecodeCaveats_unregistered cavs bodies (z : Z) rest (m : nat) :
  forallb (well_formed reg) cavs = true ->
  Forall2 (fun cav body => Caveat_Encode cav = Ok body) cavs bodies ->
  t2c reg !! uint64_of z = None ->
  DecodeCaveats reg
    (TArrayLen (2 * N.of_nat (length cavs + S m)) ::
     alternating cavs bodies ++ TInt z :: rest) =
  Fail (unregistered (uint64_of z)).
Proof.
  intros Hwf HF Hz. unfold DecodeCaveats.
  set (buf := TArrayLen _ :: _).
  assert (Hd : decoded_pairs reg (CaveatSet_DecodeMsgpack reg (length buf))
                 (alternating cavs bodies ++ TInt z :: rest) (map erase_rn cavs)
                 (TInt z :: rest)).
  { apply decoded_pairs_encoded; [done|done|].
    unfold buf. cbn [length]. rewrite length_app. lia. }
  pose proof (DecodeMsgpack_unregistered _ [] _ _ z rest m Hd Hz) as H.
  rewrite length_map in H. unfold buf at 2. by rewrite H.
Qed.

(** C4: a type that is not registered fails the whole decoding.  In the
    binary form: when the array announces more caveats than the stream has
    before a type code of no registered type, [DecodeMsgpack] returns the
    [ErrUnregisteredCaveat] error, whatever was decoded before; so does
    [DecodeCaveats] after any well-formed caveats.  In the JSON form: when
    some element of the array names a type that is not registered,
    [UnmarshalJSON] returns an error.  No caveat set is returned. *)
Theorem unregistered_types_fail_decoding :
  (forall (fuel : nat) c s cavs (z : Z) rest (m : nat),
     decoded_pairs reg (CaveatSet_DecodeMsgpack reg fuel) s cavs (TInt z :: rest) ->
     t2c reg !! uint64_of z = None ->
     CaveatSet_DecodeMsgpack reg (S fuel) c
       (TArrayLen (2 * N.of_nat (length cavs + S m)) :: s) =
     Fail (unregistered (uint64_of z)))
  /\ (forall cavs bodies (z : Z) rest (m : nat),
        forallb (well_formed reg) cavs = true ->
        Forall2 (fun cav body => Caveat_Encode cav = Ok body) cavs bodies ->
        t2c reg !! uint64_of z = None ->
        DecodeCaveats reg
          (TArrayLen (2 * N.of_nat (length cavs + S m)) ::
           alternating cavs bodies ++ TInt z :: rest) =
        Fail (unregistered (uint64_of z)))
  /\ (forall (items : list json) (i : nat) (item : json) (jc : jsonCaveat),
        items !! i = Some item ->
        jsonlib.decode_struct "macaroon.jsonCaveat" set_jsonCaveat item
          {| jc_Type := EmptyString; jc_Body := None |} = Ok jc ->
        t2c reg !! caveatTypeFromString reg (jc_Type jc) = None ->
        exists e, json_Unmarshal reg (JArr items) = Fail e)
  /\ (forall (items : list json) (i : nat) (name : string) (body : json),
        items !! i = Some (JObj [("type"%string, JStr name); ("body"%string, body)]) ->
        s2t reg !! name = None -> t2c reg !! CavUnregistered = None ->
        exists e, json_Unmarshal reg (JArr items) = Fail e).
Proof.
  split; [apply DecodeMsgpack_unregistered|].
  split; [apply DecodeCaveats_unregistered|].
  split; [apply json_Unmarshal_unregistered|].
  intros items i name body Hi Hname Hun.
  apply (json_Unmarshal_unregistered items i _
           {| jc_Type := name; jc_Body := Some body |} Hi); [done|].
  unfold caveatTypeFromString. cbn [jc_Type]. by rewrite Hname.
Qed.

(** *** Fuel: [DecodeCaveats] has enough *)

Lemma dbind_returns {X Y : Type} (d : Dec X) (k : X -> Dec Y) s :
  d s <> OutOfFuel ->
  (forall x s', d s = Ok (x, s') -> k x s' <> OutOfFuel) ->
  dbind d k s <> OutOfFuel.
Proof.
  intros Hd Hk. rewrite dbind_run. destruct (d s) as [[x s']| | |]; try done.
  by apply Hk.
Qed.

Lemma dbind_consumes {X Y : Type} (d : Dec X) (k : X -> Dec Y) :
  consumes d -> (forall x, consumes (k x)) -> consumes (dbind d k).
Proof.
  intros Hd Hk s y rest (x & s' & H1 & H2)%dbind_Ok.
  specialize (Hd _ _ _ H1). specialize (Hk _ _ _ _ H2). lia.
Qed.

Lemma dret_consumes {X : Type} (x : X) : consumes (dret x).
Proof. by intros s y rest [= <- <-]. Qed.

Lemma reads_consumes {X : Type} (d : Dec X) : reads d -> consumes d.
Proof. intros H s x rest Hs. destruct (proj2 (H s) x rest Hs) as [t ->]. simpl. lia. Qed.

Ltac prove_reads :=
  let s := fresh "s" in
  intros s; split;
  [ by destruct s as [|[] ?]
  | intros ? ?; destruct s as [|[] ?]; try done; intros [= <- <-]; eauto ].

Lemma DecodeArrayLen_reads : reads msgpack.DecodeArrayLen.
Proof. prove_reads. Qed.

Lemma DecodeUint_reads : reads msgpack.DecodeUint.
Proof. prove_reads. Qed.

Lemma DecodeInt64_reads : reads msgpack.DecodeInt64.
Proof. prove_reads. Qed.

Lemma DecodeString_reads : reads msgpack.DecodeString.
Proof. prove_reads. Qed.

Lemma DecodeBytes_reads : reads msgpack.DecodeBytes.
Proof. prove_reads. Qed.

Lemma DecodeStructLen_reads (n : Z) : reads (msgpack.DecodeStructLen n).
Proof.
  intros s. unfold msgpack.DecodeStructLen. rewrite dbind_run.
  destruct (DecodeArrayLen_reads s) as [Hr Hs].
  destruct (msgpack.DecodeArrayLen s) as [[l s']| | |]; try done. cbn [rbind fst snd].
  destruct (Hs l s' eq_refl) as [t ->]. case_match; split; try done.
  intros x rest [= <- <-]. eauto.
Qed.

Create HintDb decoders.

#[local] Hint Resolve DecodeArrayLen_reads DecodeUint_reads DecodeInt64_reads
  DecodeString_reads DecodeBytes_reads DecodeStructLen_reads
  reads_consumes dret_consumes : decoders.

Ltac consumes_steps :=
  repeat first [ solve [eauto with decoders]
               | apply dbind_consumes; [|intros ?] ].

Lemma Caveat_Decode_consumes (decSet : CaveatSet U -> Dec (CaveatSet U)) cav :
  (forall c, consumes (decSet c)) -> consumes (Caveat_Decode decSet cav).
Proof.
  intros Hset. destruct cav; cbn [Caveat_Decode]; consumes_steps.
  apply U_DecodeMsgpack_consumes.
Qed.

Lemma decode_pairs_consumes (decSet : CaveatSet U -> Dec (CaveatSet U)) (n : nat) c :
  (forall c, consumes (decSet c)) -> consumes (decode_pairs reg decSet n c).
Proof.
  intros Hset. revert c. induction n as [|n IH]; intros c; cbn [decode_pairs].
  - apply dret_consumes.
  - apply dbind_consumes; [eauto with decoders|]. intros t.
    apply dbind_consumes.
    { intros s x rest. unfold dlift. destruct (typeToCaveat reg _); try done.
      by intros [= <- <-]. }
    intros cav. apply dbind_consumes; [by apply Caveat_Decode_consumes|].
    intros cav'. apply IH.
Qed.

Lemma CaveatSet_DecodeMsgpack_consumes (fuel : nat) c :
  consumes (CaveatSet_DecodeMsgpack reg fuel c).
Proof.
  revert c. induction fuel as [|fuel IH]; intros c; [done|].
  cbn [CaveatSet_DecodeMsgpack]. apply dbind_consumes; [eauto with decoders|].
  intros aLen. case_match; [done|]. by apply decode_pairs_consumes.
Qed.

Lemma Caveat_Decode_returns (decSet : CaveatSet U -> Dec (CaveatSet U)) (n : nat)
    cav s :
  (forall c s', (length s' < n)%nat -> decSet c s' <> OutOfFuel) ->
  (length s <= n)%nat ->
  Caveat_Decode decSet cav s <> OutOfFuel.
Proof.
  intros Hset Hlen.
  assert (Hrd : forall X (d : Dec X) Y (k : X -> Dec Y) s0, reads d ->
            (forall x t rest, s0 = t :: rest -> k x rest <> OutOfFuel) ->
            dbind d k s0 <> OutOfFuel).
  { intros X d Y k s0 Hd Hk. apply dbind_returns; [apply Hd|].
    intros x s' Hx. destruct (proj2 (Hd s0) x s' Hx) as [t ->]. by eapply Hk. }
  assert (Hret : forall X (x : X) s0, dret x s0 <> OutOfFuel) by done.
  destruct cav; cbn [Caveat_Decode].
  - repeat (apply Hrd; [eauto with decoders|]; intros ? ? ? ->). done.
  - apply Hrd; [eauto with decoders|]. intros _ t rest ->.
    apply dbind_returns; [apply Hset; simpl in Hlen; lia|].
    intros Ifs' s' _. apply Hrd; [eauto with decoders | done].
  - repeat (apply Hrd; [eauto with decoders|]; intros ? ? ? ->). done.
  - apply Hrd; [eauto with decoders | done].
  - apply dbind_returns; [apply U_DecodeMsgpack_returns | done].
Qed.

Lemma decode_pairs_returns (decSet : CaveatSet U -> Dec (CaveatSet U)) (n k : nat)
    c s :
  (forall c, consumes (decSet c)) ->
  (forall c s', (length s' < n)%nat -> decSet c s' <> OutOfFuel) ->
  (length s <= n)%nat ->
  decode_pairs reg decSet k c s <> OutOfFuel.
Proof.
  intros Hcons Hset. revert c s. induction k as [|k IH]; intros c s Hlen; [done|].
  cbn [decode_pairs]. apply dbind_returns; [apply DecodeUint_reads|].
  intros t s1 Ht. destruct (proj2 (DecodeUint_reads s) t s1 Ht) as [tok ->].
  simpl in Hlen. apply dbind_returns.
  { unfold dlift, typeToCaveat. by destruct (t2c reg !! t). }
  intros cav s2. unfold dlift. destruct (typeToCaveat reg t) as [zero| | |]; try done.
  intros [= <- <-]. apply dbind_returns.
  { apply (Caveat_Decode_returns decSet n); [done | lia]. }
  intros cav' s3 Hd. apply IH.
  pose proof (Caveat_Decode_consumes decSet zero Hcons _ _ _ Hd). lia.
Qed.

Lemma CaveatSet_DecodeMsgpack_returns (fuel : nat) c s :
  (length s < fuel)%nat -> CaveatSet_DecodeMsgpack reg fuel c s <> OutOfFuel.
Proof.
  revert c s. induction fuel as [|fuel IH]; intros c s Hlen; [lia|].
  cbn [CaveatSet_DecodeMsgpack]. apply dbind_returns; [apply DecodeArrayLen_reads|].
  intros aLen s1 Ha. destruct (proj2 (DecodeArrayLen_reads s) aLen s1 Ha) as [t ->].
  simpl in Hlen. case_match; [done|].
  apply (decode_pairs_returns _ fuel); [|done|lia].
  intros c0. apply CaveatSet_DecodeMsgpack_consumes.
Qed.

Lemma DecodeCaveats_returns (buf : list token) : DecodeCaveats reg buf <> OutOfFuel.
Proof.
  unfold DecodeCaveats.
  pose proof (CaveatSet_DecodeMsgpack_returns (S (length buf)) [] buf ltac:(lia)).
  by destruct (CaveatSet_DecodeMsgpack reg (S (length buf)) [] buf).
Qed.

End Roundtrip.

End CodecProperties.

(** ** Macaroons *)

Section MacaroonProperties.
Context {U A : Type} {access_A : Access A} {user_U : UserCaveat U A}
  {codes : CaveatCodes} {codec_U : UserCodec U} {leaves : JSONLeaves}
  {eq_U : EqDecision U} {crypto : Crypto}.
Context (reg : Registry U).
Context {laws_U : UserCodecLaws U} {laws_leaves : JSONLeavesLaws}.

Implicit Types (m : Macaroon U) (c : Caveat U) (cavs : CaveatSet U).

(** *** Adding caveats *)

Lemma Add_singleton m c : Add m [c] = Add1 m c.
Proof. reflexivity. Qed.

Lemma Add1_present m c : c ∈ UnsafeCaveats m -> Add1 m c = Ok m.
Proof. intros H. unfold Add1. by rewrite bool_decide_eq_true_2. Qed.

Lemma Add1_absent m c m1 :
  c ∉ UnsafeCaveats m -> Add1 m c = Ok m1 ->
  UnsafeCaveats m1 = UnsafeCaveats m ++ [c] /\ step (Tail m) c = Ok (Tail m1).
Proof.
  intros H. unfold Add1. rewrite bool_decide_eq_false_2 by done.
  destruct (step (Tail m) c) as [tail| | |]; try discriminate.
  by intros [= <-].
Qed.

Lemma Add1_prefix m c m1 :
  Add1 m c = Ok m1 -> UnsafeCaveats m `prefix_of` UnsafeCaveats m1.
Proof.
  destruct (decide (c ∈ UnsafeCaveats m)) as [Hin|Hnin].
  - rewrite Add1_present by done. by intros [= <-].
  - intros [-> _]%Add1_absent; [|done]. by apply prefix_app_r.
Qed.

Lemma Add_prefix m (caveats : list (Caveat U)) m1 :
  Add m caveats = Ok m1 -> UnsafeCaveats m `prefix_of` UnsafeCaveats m1.
Proof.
  unfold Add. revert m. induction caveats as [|c caveats IH]; intros m; cbn [fold_left].
  - by intros [= <-].
  - cbn [rbind]. destruct (Add1 m c) as [m'| | |] eqn:H1.
    + intros H. etrans; [by eapply Add1_prefix | by apply IH].
    + assert (G : forall e, fold_left (fun r c => rbind r (fun m' => Add1 m' c))
                              caveats (Fail e) = Fail e)
        by (clear; induction caveats; [done | intros; cbn; auto]).
      by rewrite G.
    + assert (G : forall w, fold_left (fun r c => rbind r (fun m' => Add1 m' c))
                              caveats (Absent w) = Absent w)
        by (clear; induction caveats; [done | intros; cbn; auto]).
      by rewrite G.
    + assert (G : fold_left (fun r c => rbind r (fun m' => Add1 m' c))
                    caveats (@OutOfFuel (Macaroon U)) = OutOfFuel)
        by (clear; induction caveats; [done | intros; cbn; auto]).
      by rewrite G.
Qed.

(** C7: adding a caveat twice is adding it once; a caveat deep-equal to one
    of the list is skipped and the macaroon is left as it is; a caveat that
    differs from every caveat of the list is appended at the end; the
    caveats that were there stay, in their order.  Nothing depends on the
    type of the caveat. *)
Theorem Add_deduplicates :
  (forall m c m1, Add m [c] = Ok m1 ->
     Add m1 [c] = Ok m1 /\
     UnsafeCaveats m1 =
       if bool_decide (c ∈ UnsafeCaveats m) then UnsafeCaveats m
       else UnsafeCaveats m ++ [c])
  /\ (forall m c, c ∈ UnsafeCaveats m -> Add m [c] = Ok m)
  /\ (forall m c o, c ∉ UnsafeCaveats m -> encode_caveat c = Ok o ->
        exists m1, Add m [c] = Ok m1 /\
                   UnsafeCaveats m1 = UnsafeCaveats m ++ [c] /\
                   Tail m1 = sign (Tail m) (wire o))
  /\ (forall m (caveats : list (Caveat U)) m1, Add m caveats = Ok m1 ->
        UnsafeCaveats m `prefix_of` UnsafeCaveats m1).
Proof.
  split; [|split; [|split]].
  - intros m c m1. rewrite !Add_singleton. intros H.
    destruct (decide (c ∈ UnsafeCaveats m)) as [Hin|Hnin].
    + rewrite bool_decide_eq_true_2 by done.
      rewrite Add1_present in H by done. injection H as <-.
      split; [by apply Add1_present | done].
    + rewrite bool_decide_eq_false_2 by done.
      destruct (Add1_absent m c m1 Hnin H) as [Hc _]. split; [|done].
      apply Add1_present. rewrite Hc. apply elem_of_app. right. by left.
  - intros m c. rewrite Add_singleton. apply Add1_present.
  - intros m c o Hnin Henc. rewrite Add_singleton. unfold Add1, step.
    rewrite bool_decide_eq_false_2 by done. rewrite Henc. by eexists.
  - apply Add_prefix.
Qed.

(** *** Binding ids *)

Lemma HasPrefix_spec (s prefix : list byte) :
  HasPrefix s prefix = true <-> prefix `prefix_of` s.
Proof.
  unfold HasPrefix. rewrite bool_decide_eq_true. split.
  - intros <-. apply prefix_take.
  - intros [k ->]. by rewrite take_app_length.
Qed.

Lemma check_bindings_Ok cavs (ids : list (list byte)) (prefix : list byte) :
  check_bindings cavs ids = Ok tt -> BindToParentToken prefix ∈ cavs ->
  exists tbid, tbid ∈ ids /\ HasPrefix tbid prefix = true.
Proof.
  induction cavs as [|c cavs IH]; [by intros _ ?%elem_of_nil|].
  intros Hc Hin. apply elem_of_cons in Hin as [<-|Hin].
  - cbn [check_bindings] in Hc.
    destruct (existsb _ ids) eqn:E; [|discriminate].
    apply existsb_exists in E as (tbid & Hid & Hp). exists tbid.
    split; [by apply list_elem_of_In | done].
  - apply IH; [|done]. destruct c; cbn [check_bindings] in Hc; try done.
    by destruct (existsb _ ids).
Qed.

Lemma check_bindings_no_ids cavs (prefix : list byte) :
  BindToParentToken prefix ∈ cavs -> check_bindings cavs [] = Fail binding_failure.
Proof.
  induction cavs as [|c cavs IH]; [by intros ?%elem_of_nil|].
  intros [<-|Hin]%elem_of_cons; [done|]. destruct c; cbn [check_bindings existsb]; auto.
Qed.

Lemma rmap_plain {X Y : Type} (g : X -> Y) (r : result X) :
  plain r -> plain (rmap g r).
Proof. by destruct r. Qed.

Lemma enc_seq_plain (e1 e2 : Enc) : plain e1 -> plain e2 -> plain (e1 >>> e2).
Proof. by destruct e1, e2. Qed.

Lemma EncodeBytes_plain (bs : list byte) : plain (msgpack.EncodeBytes bs).
Proof. by destruct bs. Qed.

Lemma encode_pairs_plain (enc : Caveat U -> Enc) cavs :
  Forall (fun c => plain (enc c)) cavs -> plain (encode_pairs enc cavs).
Proof.
  induction 1 as [|c cavs Hc _ IH]; [done|]. cbn [encode_pairs].
  by repeat apply enc_seq_plain.
Qed.

Lemma Caveat_Encode_plain c : plain (Caveat_Encode c).
Proof.
  induction c as [l v c r|Ifs Else IH|nb na|p|u] using Caveat_ind;
    cbn [Caveat_Encode].
  - repeat apply enc_seq_plain; try done; apply EncodeBytes_plain.
  - unfold encode_set. repeat apply enc_seq_plain; try done.
    by apply encode_pairs_plain.
  - done.
  - apply EncodeBytes_plain.
  - apply U_EncodeMsgpack_plain.
Qed.

Lemma step_plain (K : list byte) c : plain (step K c).
Proof.
  unfold step, encode_caveat. apply rmap_plain, enc_seq_plain; [done|].
  apply Caveat_Encode_plain.
Qed.

Lemma chain_plain (expected : list byte) cavs rns : plain (chain expected cavs rns).
Proof.
  revert expected rns. induction cavs as [|c cavs IH]; intros expected rns; [done|].
  cbn [chain].
  assert (H : forall r : result (list (string * list byte)), plain r ->
    plain (rbind r (fun rns' => rbind (step expected c)
             (fun expected' => chain expected' cavs rns')))).
  { intros [rns'| | |]; try done. intros _. cbn [rbind].
    pose proof (step_plain expected c) as Hs.
    destruct (step expected c); try done. apply IH. }
  apply H. destruct c; try done. by destruct (unseal expected VID).
Qed.

Lemma verify_signature_plain (key : list byte) m : plain (verify_signature key m).
Proof.
  unfold verify_signature.
  assert (Hd : plain (derive key (Nonce_ m))).
  { unfold derive, Nonce_Encode. apply rmap_plain.
    repeat apply enc_seq_plain; try done; apply EncodeBytes_plain. }
  destruct (derive key (Nonce_ m)) as [K| | |]; try done. cbn [rbind].
  pose proof (chain_plain K (UnsafeCaveats m) []) as Hc.
  destruct (chain K (UnsafeCaveats m) []) as [r| | |]; try done. cbn [rbind].
  by case_bool_decide.
Qed.

(** C8: when verification of a root succeeds, every [BindToParentToken] of
    the root has a prefix that some supplied binding id starts with; the
    empty prefix is at the start of every id, and no id starts with a
    prefix longer than itself; with no binding id supplied, a root that
    carries a [BindToParentToken] fails verification. *)
Theorem Verify_enforces_BindToParentToken :
  (forall m (key : list byte) (discharges : list (list token))
          (token_binding_ids : list (list byte)) (prefix : list byte) cs,
     Verify reg m key discharges token_binding_ids = Ok cs ->
     BindToParentToken prefix ∈ UnsafeCaveats m ->
     exists tbid, tbid ∈ token_binding_ids /\ prefix `prefix_of` tbid)
  /\ (forall tbid : list byte, HasPrefix tbid [] = true)
  /\ (forall tbid prefix : list byte,
        (length tbid < length prefix)%nat -> HasPrefix tbid prefix = false)
  /\ (forall m (key : list byte) (discharges : list (list token))
             (prefix : list byte),
        BindToParentToken prefix ∈ UnsafeCaveats m ->
        exists e, Verify reg m key discharges [] = Fail e).
Proof.
  split; [|split; [|split]].
  - intros m key discharges ids prefix cs Hv Hin. unfold Verify in Hv.
    destruct (verify_signature key m) as [slots| | |]; try discriminate.
    cbn [rbind] in Hv.
    destruct (check_bindings (UnsafeCaveats m) ids) as [[]| | |] eqn:Hc;
      try discriminate.
    destruct (check_bindings_Ok _ _ prefix Hc Hin) as (tbid & Hid & Hp).
    exists tbid. split; [done | by apply HasPrefix_spec].
  - intros tbid. by apply HasPrefix_spec, prefix_nil.
  - intros tbid prefix Hlen. unfold HasPrefix. apply bool_decide_eq_false.
    intros Heq. apply (f_equal length) in Heq. rewrite length_take in Heq. lia.
  - intros m key discharges prefix Hin. unfold Verify.
    pose proof (verify_signature_plain key m) as Hp.
    destruct (verify_signature key m) as [slots|e| |]; try done; [|by exists e].
    cbn [rbind]. rewrite (check_bindings_no_ids _ prefix Hin). by eexists.
Qed.

(** *** Round trip of a macaroon *)

Lemma Nonce_roundtrip (n : Nonce) rest :
  exists o, Nonce_Encode n = Ok o /\ Nonce_Decode (o ++ rest) = Ok (n, rest).
Proof.
  destruct n as [kid rnd p]. destruct kid, rnd; eexists; split; reflexivity.
Qed.

Lemma Macaroon_roundtrip m o :
  forallb (well_formed reg) (UnsafeCaveats m) = true ->
  Macaroon_Encode m = Ok o ->
  Macaroon_Decode reg o =
    Ok {| Nonce_ := Nonce_ m; Location := Location m;
          UnsafeCaveats := map erase_rn (UnsafeCaveats m); Tail := Tail m |}.
Proof.
  intros Hwf Henc. unfold Macaroon_Encode in Henc.
  apply enc_seq_Ok in Henc as (o1 & ot & Henc & Ht & ->).
  apply enc_seq_Ok in Henc as (o2 & oset & Henc & Hset & ->).
  apply enc_seq_Ok in Henc as (o3 & ol & Henc & [= <-] & ->).
  apply enc_seq_Ok in Henc as (o4 & on & [= <-] & Hn & ->).
  unfold Macaroon_Decode.
  set (fuel := length _).
  assert (Hfuel : (length oset <= fuel)%nat).
  { unfold fuel. rewrite !length_app. lia. }
  clearbody fuel.
  rewrite <- !app_assoc. cbn [app]. rewrite dbind_run. cbn.
  destruct (Nonce_roundtrip (Nonce_ m) (TStr (Location m) :: oset ++ ot))
    as (on' & Hn' & Hdec).
  assert (on' = on) as -> by congruence.
  rewrite dbind_run, Hdec. cbn [rbind fst snd]. rewrite dbind_run. cbn.
  rewrite dbind_run.
  rewrite (set_msgpack_roundtrip reg (UnsafeCaveats m)) with (c0 := []);
    [|apply Forall_forall; intros c _; exact (Caveat_msgpack_roundtrip reg c)
     |done|done|done].
  cbn [rbind fst snd app]. rewrite dbind_run.
  rewrite <- (app_nil_r ot).
  rewrite (DecodeBytes_EncodeBytes (Tail m) ot [] Ht). done.
Qed.

(** C5 (amended): the codecs reproduce a value up to the [rn] of its
    [Caveat3P] caveats, which is not serialized.  For every set of
    well-formed caveats (registered types, numbers that are values of their
    Go types), decoding the msgpack encoding gives the set with every [rn]
    nil, and so does unmarshalling the JSON encoding when the set has no
    [BindToParentToken] of the nil slice; decoding the encoding of a
    macaroon gives the macaroon with every [rn] nil.  The round trip is the
    identity on the values that hold no [rn]. *)
Theorem roundtrip_up_to_rn :
  (forall cavs o,
     forallb (well_formed reg) cavs = true ->
     CaveatSet_MarshalMsgpack cavs = Ok o ->
     DecodeCaveats reg o = Ok (map erase_rn cavs))
  /\ (forall cavs j,
        forallb (well_formed reg) cavs = true ->
        forallb bound_prefixes cavs = true ->
        CaveatSet_MarshalJSON reg cavs = Ok j ->
        json_Unmarshal reg j = Ok (map erase_rn cavs))
  /\ (forall m o,
        forallb (well_formed reg) (UnsafeCaveats m) = true ->
        Macaroon_Encode m = Ok o ->
        Macaroon_Decode reg o =
          Ok {| Nonce_ := Nonce_ m; Location := Location m;
                UnsafeCaveats := map erase_rn (UnsafeCaveats m); Tail := Tail m |})
  /\ (forall cavs o,
        forallb (well_formed reg) cavs = true ->
        map erase_rn cavs = cavs ->
        CaveatSet_MarshalMsgpack cavs = Ok o ->
        DecodeCaveats reg o = Ok cavs).
Proof.
  split; [intros cavs o; exact (DecodeCaveats_MarshalMsgpack reg cavs o)|].
  split; [intros cavs j; exact (json_Unmarshal_MarshalJSON reg cavs j)|].
  split; [apply Macaroon_roundtrip|].
  intros cavs o Hwf Hrn Henc.
  rewrite (DecodeCaveats_MarshalMsgpack reg cavs o Hwf Henc). by rewrite Hrn.
Qed.

End MacaroonProperties.

(** ** The codecs of the test suite keep the laws *)

Section TestCodecLaws.
Import Test.
Context {leaves : JSONLeaves} {laws_leaves : JSONLeavesLaws}.

Lemma testCaveat_msgpack_roundtrip (u : testCaveat) o rest :
  testCaveat_valid u = true -> testCaveat_EncodeMsgpack u = Ok o ->
  testCaveat_DecodeMsgpack (testCaveat_zero u) (o ++ rest) = Ok (u, rest).
Proof.
  destruct u as [ID Permission|ID Permission]; cbn [testCaveat_valid];
    intros [H1 H2]%andb_true_iff [= <-]; cbn; unfold dret;
    rewrite !uint64_of_N; done.
Qed.

Lemma set_testCaveat_fields (ID : N) (Permission : Action) (p : json) :
  (ID <? 2 ^ 64)%N = true -> Action_UnmarshalJSON p = Ok Permission ->
  forall what,
  jsonlib.decode_struct what set_testCaveat
    (JObj [("ID"%string, JNum (Z.of_N ID)); ("Permission"%string, p)]) (0%N, 0%N) =
  Ok (ID, Permission).
Proof.
  intros HID Hp what. unfold jsonlib.decode_struct. cbn [fold_left fst snd].
  change (jsonlib.fold_name "ID") with "id"%string.
  change (jsonlib.fold_name "Permission") with "permission"%string.
  change (set_testCaveat "id" (JNum (Z.of_N ID)))
    with (rmap (fun upd (t : N * Action) => (upd t.1, t.2))
            (decode_uint64 (JNum (Z.of_N ID)))).
  change (set_testCaveat "permission" p)
    with (rmap (fun x (t : N * Action) => (t.1, x)) (Action_UnmarshalJSON p)).
  rewrite Hp. unfold decode_uint64.
  apply N.ltb_lt in HID.
  replace ((0 <=? Z.of_N ID) && (Z.of_N ID <? 2 ^ 64))%Z with true.
  - cbn. by rewrite N2Z.id.
  - symmetry. apply andb_true_iff. split; [apply Z.leb_le | apply Z.ltb_lt]; lia.
Qed.

Lemma testCaveat_json_roundtrip (u : testCaveat) j :
  testCaveat_valid u = true -> testCaveat_MarshalJSON u = Ok j ->
  j <> JNull /\ testCaveat_UnmarshalJSON (testCaveat_zero u) j = Ok u.
Proof.
  destruct u as [ID Permission|ID Permission]; cbn [testCaveat_valid];
    intros [H1 H2]%andb_true_iff; cbn [testCaveat_MarshalJSON];
    destruct (Action_MarshalJSON Permission) as [p| | |] eqn:Hp; try discriminate;
    intros [= <-]; (split; [done|]);
    cbn [testCaveat_zero testCaveat_UnmarshalJSON];
    rewrite (set_testCaveat_fields ID Permission p H1
               (Action_json_roundtrip Permission p Hp)); done.
Qed.

Lemma testCaveat_UnmarshalJSON_returns (u : testCaveat) j :
  testCaveat_UnmarshalJSON u j <> OutOfFuel.
Proof.
  assert (G : forall kv : string * json,
            set_testCaveat (jsonlib.fold_name kv.1) kv.2 <> OutOfFuel).
  { intros kv. unfold set_testCaveat. repeat case_bool_decide; try done;
      apply rmap_returns; [|apply Action_UnmarshalJSON_returns].
    destruct kv.2; try done. cbn. by case_match. }
  destruct u; cbn [testCaveat_UnmarshalJSON]; apply rmap_returns,
    decode_struct_returns; intros fields _; apply Forall_forall; intros kv _;
    apply G.
Qed.

Lemma testCaveat_DecodeMsgpack_inv (u : testCaveat) s u' rest :
  testCaveat_DecodeMsgpack u s = Ok (u', rest) ->
  exists a b c, s = a :: b :: c :: rest.
Proof.
  unfold testCaveat_DecodeMsgpack.
  intros (x1 & s1 & H1 & H)%dbind_Ok.
  apply (proj2 (DecodeStructLen_reads 2 s)) in H1 as [a ->].
  apply dbind_Ok in H as (ID & s2 & H2 & H).
  apply (proj2 (DecodeUint_reads s1)) in H2 as [b ->].
  apply dbind_Ok in H as (P & s3 & H3 & H).
  apply (proj2 (DecodeUint_reads s2)) in H3 as [c ->].
  unfold dret in H. injection H as _ <-. eauto.
Qed.

#[global] Instance testCaveat_laws : UserCodecLaws testCaveat.
Proof.
  split.
  - apply testCaveat_msgpack_roundtrip.
  - apply testCaveat_json_roundtrip.
  - apply testCaveat_UnmarshalJSON_returns.
  - by intros [].
  - intros u s. unfold testCaveat_DecodeMsgpack.
    apply dbind_returns; [apply DecodeStructLen_reads|]. intros _ s1 _.
    apply dbind_returns; [apply DecodeUint_reads|]. intros ID s2 _.
    apply dbind_returns; [apply DecodeUint_reads | done].
  - intros u s u' rest (a & b & c & ->)%testCaveat_DecodeMsgpack_inv. simpl. lia.
Qed.

End TestCodecLaws.

#[global] Instance sample_leaves_laws : @JSONLeavesLaws Test.sample_leaves.
Proof.
  split.
  - intros bs. change (Some (list_byte_of_string (string_of_list_byte bs)) = Some bs).
    by rewrite list_byte_of_string_of_list_byte.
  - intros a j [= <-]. cbn. by rewrite N2Z.id.
  - by intros [].
Qed.

(** ** The properties on the values of the test suite *)

Section Scenarios.
Import Test.

#[local] Existing Instance sample_codes.
#[local] Existing Instance sample_leaves.
#[local] Existing Instance sample_crypto.
#[local] Existing Instance scenario_access.

(** C1, as the claim words it, does not hold: for an access that fails its
    own [Validate()], the caveats are skipped, so the failure of the expired
    window is not part of the result. *)
Lemma Validate_as_specified_counterexample :
  let cs : CaveatSet testCaveat := [ValidityWindow 10 20] in
  Validate cs [orphan_access] = [Sent ErrResourceUnspecified]
  /\ concat (map (access_outcome_as_specified cs) [orphan_access]) =
     [Sent ErrResourceUnspecified;
      Errorf "%w: token only valid until %s" (Some ErrUnauthorized)
        [ATime (time_Unix 20 0)]]
  /\ Validate cs [orphan_access] <>
     concat (map (access_outcome_as_specified cs) [orphan_access]).
Proof. split; [reflexivity|]. split; [reflexivity | discriminate]. Qed.

Lemma Validate_accumulates_witness :
  Errorf "%w action" (Some ErrUnauthorizedForAction) [] ∈
  Validate [ValidityWindow 10 20;
            UserDefined (testCaveatParentResource 110 ActionWrite)]
    [orphan_access; parent_access].
Proof.
  apply (proj2 (proj2 (proj2 (Validate_accumulates _ _))) parent_access
           (UserDefined (testCaveatParentResource 110 ActionWrite))).
  - right. left.
  - reflexivity.
  - right. left.
  - reflexivity.
  - vm_compute. left.
Defined.

Lemma IfPresent_Prohibits_spec_witness :
  Prohibits (IfPresent [UserDefined (testCaveatChildResource 5 ActionRead)]
               ActionRead) parent_access = [].
Proof.
  apply (proj2 (IfPresent_Prohibits_spec
                  [UserDefined (testCaveatChildResource 5 ActionRead)]
                  ActionRead parent_access)); reflexivity.
Defined.

Lemma Caveat3P_always_denies_witness :
  is_nil (Validate [Caveat3P "https://auth" [] [] []] [parent_access]) = false.
Proof.
  apply (proj2 (proj2 (proj2 (Caveat3P_always_denies "https://auth" [] [] [])))
           [Caveat3P "https://auth" [] [] []] [parent_access] parent_access);
    left.
Defined.



Lemma unregistered_types_fail_decoding_witness :
  DecodeCaveats sample_registry
    [TArrayLen 4; TInt 3; TArrayLen 2; TInt 10; TInt 20; TInt 999] =
  Fail (unregistered 999)
  /\ exists e,
       json_Unmarshal sample_registry
         (JArr [JObj [("type"%string, JStr "Bogus"); ("body"%string, JObj [])]]) =
       Fail e.
Proof.
  split.
  - change (DecodeCaveats sample_registry
              (TArrayLen (2 * N.of_nat (length [ValidityWindow 10 20 : Caveat testCaveat] + 1))
               :: alternating [ValidityWindow 10 20]
                    [[TArrayLen 2; TInt 10; TInt 20]] ++ [TInt 999]) =
            Fail (unregistered (uint64_of 999))).
    apply (proj1 (proj2 (unregistered_types_fail_decoding sample_registry))
             [ValidityWindow 10 20] [[TArrayLen 2; TInt 10; TInt 20]] 999%Z [] 0%nat).
    + reflexivity.
    + repeat constructor.
    + reflexivity.
  - apply (proj2 (proj2 (proj2 (unregistered_types_fail_decoding sample_registry)))
             _ 0%nat "Bogus"%string (JObj [])); reflexivity.
Defined.

(** C5, as the claim words it, does not hold: the [rn] that a
    [Caveat3P] holds is not serialized, so what is decoded differs from
    what was encoded, in the binary form and in the JSON form. *)
Lemma roundtrip_counterexample :
  CaveatSet_MarshalMsgpack sample_set = Ok sample_set_tokens
  /\ DecodeCaveats sample_registry sample_set_tokens = Ok sample_set_decoded
  /\ DecodeCaveats sample_registry sample_set_tokens <> Ok sample_set
  /\ CaveatSet_MarshalJSON sample_registry sample_set = Ok sample_set_json
  /\ json_Unmarshal sample_registry sample_set_json = Ok sample_set_decoded
  /\ json_Unmarshal sample_registry sample_set_json <> Ok sample_set.
Proof.
  assert (H1 : DecodeCaveats sample_registry sample_set_tokens = Ok sample_set_decoded)
    by (vm_compute; reflexivity).
  assert (H2 : json_Unmarshal sample_registry sample_set_json = Ok sample_set_decoded)
    by (vm_compute; reflexivity).
  split; [vm_compute; reflexivity|]. split; [exact H1|].
  split; [rewrite H1; discriminate|].
  split; [vm_compute; reflexivity|]. split; [exact H2|].
  rewrite H2; discriminate.
Qed.

Lemma roundtrip_up_to_rn_witness :
  DecodeCaveats sample_registry sample_set_tokens = Ok sample_set_decoded
  /\ json_Unmarshal sample_registry sample_set_json = Ok sample_set_decoded.
Proof.
  split.
  - apply (proj1 (roundtrip_up_to_rn sample_registry) sample_set);
      vm_compute; reflexivity.
  - apply (proj1 (proj2 (roundtrip_up_to_rn sample_registry)) sample_set);
      vm_compute; reflexivity.
Defined.

Lemma Add_deduplicates_witness :
  Add bound_root [BindToParentToken [xde; xad]] = Ok bound_root.
Proof.
  apply (proj1 (proj2 Add_deduplicates)). vm_compute. left.
Defined.

Lemma Verify_enforces_BindToParentToken_witness :
  exists tbid, tbid ∈ [[xff]; [xde; xad; xbe; xef]] /\
               [xde; xad] `prefix_of` tbid.
Proof.
  eapply (proj1 (Verify_enforces_BindToParentToken sample_registry)
            bound_root [x00; x01] [] _ [xde; xad]).
  - vm_compute. reflexivity.
  - vm_compute. left.
Defined.

Lemma rn_never_serialized_witness :
  CaveatSet_EncodeMsgpack [third_party] = CaveatSet_EncodeMsgpack [third_party_decoded]
  /\ CaveatSet_MarshalJSON sample_registry [third_party] =
     CaveatSet_MarshalJSON sample_registry [third_party_decoded].
Proof.
  apply (proj2 (rn_never_serialized sample_registry)). reflexivity.
Defined.

End Scenarios.

(* ===================================================================== *)
(** * Further properties of the caveat layer *)
(* ===================================================================== *)

Lemma errors_Is_concat (l : list error) (t : Sentinel) :
  errors_Is (concat l) t = existsb (fun r => errors_Is r t) l.
Proof.
  induction l as [|r l IH]; [done|]. simpl. by rewrite errors_Is_app, IH.
Qed.

Section ValidateComposition.
Context {U A : Type} {access_A : Access A} {user_U : UserCaveat U A}
  {codes : CaveatCodes}.

Lemma Validate_app_accesses (cs : CaveatSet U) (as1 as2 : list A) :
  Validate cs (as1 ++ as2) = Validate cs as1 ++ Validate cs as2.
Proof. by rewrite !Validate_concat, map_app, concat_app. Qed.


Lemma Validate_of_failures (cs cs' : CaveatSet U) (accesses : list A) :
  (forall a, caveat_failures cs a = caveat_failures cs' a) ->
  Validate cs accesses = Validate cs' accesses.
Proof.
  intros H. rewrite !Validate_concat. f_equal. apply map_ext. intros a.
  unfold access_outcome. by rewrite H.
Qed.

(** X1: the caveats of a set are conjunctive.  A set made of two sets
    approves a list of accesses exactly when both sets approve it, so adding
    caveats can only restrict; a set approves whenever a set that holds all
    its caveats approves, whatever the order and the repetitions. *)
Theorem Validate_caveats_conjunctive :
  (forall (cs1 cs2 : CaveatSet U) (accesses : list A),
     Validate (cs1 ++ cs2) accesses = [] <->
     Validate cs1 accesses = [] /\ Validate cs2 accesses = [])
  /\ (forall (cs cs' : CaveatSet U) (accesses : list A),
        cs ⊆ cs' -> Validate cs' accesses = [] -> Validate cs accesses = [])
  /\ (forall (cs cs' : CaveatSet U) (accesses : list A),
        Validate cs accesses <> [] -> Validate (cs ++ cs') accesses <> [] /\
                                      Validate (cs' ++ cs) accesses <> []).
Proof.
  assert (Happ : forall (cs1 cs2 : CaveatSet U) (accesses : list A),
     Validate (cs1 ++ cs2) accesses = [] <->
     Validate cs1 accesses = [] /\ Validate cs2 accesses = []).
  { intros cs1 cs2 accesses. rewrite !Validate_nil. split.
    - intros H. split; intros a Ha; destruct (H a Ha) as [Hv Hc];
        (split; [done|]); intros c Hin; apply Hc; apply elem_of_app; auto.
    - intros [H1 H2] a Ha. destruct (H1 a Ha) as [Hv Hc1].
      destruct (H2 a Ha) as [_ Hc2]. split; [done|].
      intros c [Hin|Hin]%elem_of_app; auto. }
  split; [exact Happ|]. split.
  - intros cs cs' accesses Hsub. rewrite !Validate_nil.
    intros H a Ha. destruct (H a Ha) as [Hv Hc]. split; [done|].
    intros c Hin. apply Hc. by apply Hsub.
  - intros cs cs' accesses Hne.
    split; intros Hnil; apply Happ in Hnil; tauto.
Qed.

(** X2: the accesses are judged one by one.  The result for a list of
    accesses is the results for its parts, one after the other; a set
    approves a list exactly when it approves each access alone; and with no
    access at all the result is [nil], whatever the set holds. *)
Theorem Validate_per_access :
  (forall (cs : CaveatSet U) (as1 as2 : list A),
     Validate cs (as1 ++ as2) = Validate cs as1 ++ Validate cs as2)
  /\ (forall (cs : CaveatSet U) (accesses : list A),
        Validate cs accesses = [] <->
        forall a, a ∈ accesses -> Validate cs [a] = [])
  /\ (forall cs : CaveatSet U, Validate cs [] = [])
  /\ (forall (accesses : list A),
        Validate ([] : CaveatSet U) accesses = concat (map Access_Validate accesses)).
Proof.
  split; [apply Validate_app_accesses|]. split; [|split; [done|]].
  - intros cs accesses. rewrite Validate_nil. split.
    + intros H a Ha. apply Validate_nil. intros a' ->%list_elem_of_singleton. auto.
    + intros H a Ha. apply (proj1 (Validate_nil cs [a]) (H a Ha)).
      by apply list_elem_of_singleton.
  - intros accesses. rewrite Validate_concat. f_equal. apply map_ext. intros a.
    unfold access_outcome, caveat_failures. simpl.
    by destruct (Access_Validate a).
Qed.


(** *** IfPresent *)

Lemma IfPresent_Prohibits_unfold (Ifs : list (Caveat U)) (Else : Action) (f : A) :
  let R_applies :=
    filter (fun r => errors_Is r ErrResourceUnspecified = false)
      (map (fun cc => Prohibits cc f) Ifs) in
  Prohibits (IfPresent Ifs Else) f =
  if negb (bool_decide (R_applies <> [])) && negb (IsSubsetOf (GetAction f) Else)
  then [Errorf "%w access %s (%s not allowed)" (Some ErrUnauthorizedForAction)
          [AAction (GetAction f); AAction (Remove (GetAction f) Else)]]
  else concat R_applies.
Proof.
  intros R_applies. cbn [Prohibits]. rewrite ifs_loop_spec. fold R_applies.
  cbn [fst snd]. by rewrite orb_false_l, app_nil_l.
Qed.

Lemma IfPresent_not_ResourceUnspecified (Ifs : list (Caveat U)) (Else : Action) (f : A) :
  errors_Is (Prohibits (IfPresent Ifs Else) f) ErrResourceUnspecified = false.
Proof.
  rewrite IfPresent_Prohibits_unfold. case_match; [done|].
  rewrite errors_Is_concat. apply not_true_iff_false. intros Hex.
  apply existsb_exists in Hex as (r & Hin & Hr).
  apply list_elem_of_In, list_elem_of_filter in Hin as [Hf _]. congruence.
Qed.

Lemma builtin_not_ResourceUnspecified (cc : Caveat U) (f : A) :
  is_builtin cc = true ->
  errors_Is (Prohibits cc f) ErrResourceUnspecified = false.
Proof.
  destruct cc as [l v c r|Ifs Else|nb na|p|u]; intros Hb; try done.
  - apply IfPresent_not_ResourceUnspecified.
  - cbn [Prohibits]. by repeat case_match.
Qed.

Lemma IfPresent_Else_unused (Ifs : list (Caveat U)) cc (f : A) (Else Else' : Action) :
  cc ∈ Ifs -> errors_Is (Prohibits cc f) ErrResourceUnspecified = false ->
  Prohibits (IfPresent Ifs Else) f = Prohibits (IfPresent Ifs Else') f.
Proof.
  intros Hin Hcc. rewrite !IfPresent_Prohibits_unfold.
  rewrite bool_decide_eq_true_2; [done|].
  intros Hnil.
  assert (Hr : Prohibits cc f ∈
               filter (fun r => errors_Is r ErrResourceUnspecified = false)
                 (map (fun cc => Prohibits cc f) Ifs)).
  { apply list_elem_of_filter. split; [done|].
    apply list_elem_of_fmap. by exists cc. }
  rewrite Hnil in Hr. inversion Hr.
Qed.

(** X6: an [IfPresent] never answers [ErrResourceUnspecified], so inside
    the [Ifs] of another [IfPresent] it always counts as applying.  Whenever
    some caveat of [Ifs] answers anything else than
    [ErrResourceUnspecified], and every caveat of caveats.go does, [Else]
    is not consulted: the result is the same for every [Else]. *)
Theorem IfPresent_never_ResourceUnspecified :
  (forall (Ifs : list (Caveat U)) (Else : Action) (f : A),
     errors_Is (Prohibits (IfPresent Ifs Else) f) ErrResourceUnspecified = false)
  /\ (forall (Ifs : list (Caveat U)) cc (f : A) (Else Else' : Action),
        cc ∈ Ifs -> errors_Is (Prohibits cc f) ErrResourceUnspecified = false ->
        Prohibits (IfPresent Ifs Else) f = Prohibits (IfPresent Ifs Else') f)
  /\ (forall (Ifs : list (Caveat U)) cc (f : A) (Else Else' : Action),
        cc ∈ Ifs -> is_builtin cc = true ->
        Prohibits (IfPresent Ifs Else) f = Prohibits (IfPresent Ifs Else') f).
Proof.
  split; [apply IfPresent_not_ResourceUnspecified|].
  split; [apply IfPresent_Else_unused|].
  intros Ifs cc f Else Else' Hin Hb. apply (IfPresent_Else_unused Ifs cc); [done|].
  by apply builtin_not_ResourceUnspecified.
Qed.

(** *** ValidityWindow *)

Lemma ValidityWindow_Prohibits_nil (NotBefore NotAfter : Z) (f : A) :
  Prohibits (ValidityWindow NotBefore NotAfter : Caveat U) f = [] <->
  (time_Unix NotBefore 0 <= Now f <= time_Unix NotAfter 0)%Z.
Proof.
  cbn [Prohibits]. unfold After, Before.
  destruct (Z.ltb_spec (time_Unix NotAfter 0) (Now f));
    [|destruct (Z.ltb_spec (Now f) (time_Unix NotBefore 0))];
    (split; [try discriminate; lia | try lia; done]).
Qed.



(** *** BindToParentToken *)

(** X9: [BindToParentToken.Prohibits] returns, for every access, an error
    that wraps [ErrBadCaveat], and the caveat is not an attestation: a set
    that holds one denies every access it is asked about. *)
Theorem BindToParentToken_always_denies (prefix : list byte) :
  (forall f : A, Prohibits (BindToParentToken prefix : Caveat U) f =
                 [Errorf "%w (bind-to-parent)" (Some ErrBadCaveat) []])
  /\ IsAttestation (BindToParentToken prefix : Caveat U) = false
  /\ (forall (cs : CaveatSet U) (accesses : list A) a,
        BindToParentToken prefix ∈ cs -> a ∈ accesses ->
        Validate cs accesses <> [] /\
        (Access_Validate a = [] ->
         errors_Is (Validate cs accesses) ErrBadCaveat = true)).
Proof.
  split; [done|]. split; [done|].
  intros cs accesses a Hc Ha. split.
  - rewrite Validate_nil. intros H. destruct (H a Ha) as [_ Hp].
    by specialize (Hp _ Hc eq_refl).
  - intros Hv. apply errors_Is_true.
    exists (Errorf "%w (bind-to-parent)" (Some ErrBadCaveat) []). split; [|done].
    apply (Validate_has_caveat_failure cs accesses a (BindToParentToken prefix));
      try done. by left.
Qed.

End ValidateComposition.

(** ** GetCaveats *)

Section GetCaveatsProperties.
Context {U : Type}.
Implicit Types (T : Caveat U -> bool) (c : CaveatSet U) (cav x : Caveat U).

Lemma GetCaveats_round_found T ret cav :
  GetCaveats_round T ret cav = ret ++ found_in T cav.
Proof.
  unfold found_in, GetCaveats.
  destruct cav; cbn [GetCaveats_round]; destruct (T _);
    by rewrite <- ?app_assoc, ?app_nil_r.
Qed.

Lemma GetCaveats_fold T c ret :
  fold_left (GetCaveats_round T) c ret = ret ++ concat (map (found_in T) c).
Proof.
  revert ret. induction c as [|cav c IH]; intros ret; simpl.
  - by rewrite app_nil_r.
  - by rewrite IH, GetCaveats_round_found, <- app_assoc.
Qed.

Lemma GetCaveats_concat T c : GetCaveats T c = concat (map (found_in T) c).
Proof. unfold GetCaveats. by rewrite GetCaveats_fold. Qed.

Lemma GetCaveats_app T c1 c2 :
  GetCaveats T (c1 ++ c2) = GetCaveats T c1 ++ GetCaveats T c2.
Proof. by rewrite !GetCaveats_concat, map_app, concat_app. Qed.

Lemma GetCaveats_cons T cav c :
  GetCaveats T (cav :: c) = found_in T cav ++ GetCaveats T c.
Proof. by rewrite !GetCaveats_concat. Qed.

Lemma occurs_in_cons x cav c :
  occurs_in x (cav :: c) <->
  x = cav \/ (exists Ifs Else, cav = IfPresent Ifs Else /\ occurs_in x Ifs) \/
  occurs_in x c.
Proof.
  split.
  - intros H. inversion H as [? ? Hin|? Ifs Else ? Hin Hx]; subst.
    + apply elem_of_cons in Hin as [->|Hin]; [by left|].
      right. right. by constructor.
    + apply elem_of_cons in Hin as [<-|Hin]; [right; left; eauto|].
      right. right. by apply (occurs_nested x Ifs Else).
  - intros [->|[(Ifs & Else & -> & Hx)|Hx]].
    + constructor. by left.
    + apply (occurs_nested x Ifs Else); [by left | done].
    + inversion Hx as [? ? Hin|? Ifs Else ? Hin Hx']; subst.
      * constructor. by right.
      * apply (occurs_nested x Ifs Else); [by right | done].
Qed.

Lemma occurs_in_nil x : ~ occurs_in x [].
Proof. intros H. inversion H as [? ? Hin|? ? ? ? Hin]; inversion Hin. Qed.

Lemma GetCaveats_elem_of T c x :
  x ∈ GetCaveats T c <-> T x = true /\ occurs_in x c.
Proof.
  revert x. induction c as [|cav c IHc]; intros x.
  - split; [intros H; inversion H | intros [_ H]; by apply occurs_in_nil in H].
  - rewrite GetCaveats_cons, occurs_in_cons, elem_of_app, IHc. clear IHc.
    assert (Hcav : x ∈ found_in T cav <->
              T x = true /\
              (x = cav \/ exists Ifs Else, cav = IfPresent Ifs Else /\ occurs_in x Ifs));
      [|rewrite Hcav; clear; tauto].
    revert x. induction cav as [l v ci r|Ifs Else IH|nb na|p|u] using Caveat_ind;
      intros x; unfold found_in;
      try (rewrite app_nil_r; destruct (T _) eqn:E;
           [rewrite list_elem_of_singleton; split;
              [intros ->; auto | intros [_ [->|(? & ? & ? & _)]]; done]
           |split; [intros H; inversion H
                   |intros [Hx [->|(? & ? & ? & _)]]; congruence]]).
    rewrite elem_of_app.
    assert (Hifs : x ∈ GetCaveats T Ifs <-> T x = true /\ occurs_in x Ifs).
    { clear Else. induction IH as [|cc Ifs Hcc _ IHIfs].
      - split; [intros H; inversion H | intros [_ H]; by apply occurs_in_nil in H].
      - rewrite GetCaveats_cons, occurs_in_cons, elem_of_app, IHIfs, Hcc. tauto. }
    rewrite Hifs. split.
    + intros [Hx|[Hx Ho]].
      * destruct (T (IfPresent Ifs Else)) eqn:E; [|inversion Hx].
        apply list_elem_of_singleton in Hx as ->. auto.
      * split; [done|]. right. eauto.
    + intros [Hx [->|(Ifs' & Else' & [= <- <-] & Ho)]].
      * left. rewrite Hx. by left.
      * right. auto.
Qed.

(** X4: [GetCaveats[T]] returns the caveats of type [T] of the set and of
    the [Ifs] of its [IfPresent] caveats, at every depth of nesting:
    a caveat is returned exactly when it is a [T] and occurs in the set, and
    nothing else is. *)
Theorem GetCaveats_finds_nested T c :
  (forall x, x ∈ GetCaveats T c <-> T x = true /\ occurs_in x c)
  /\ Forall (fun x => T x = true) (GetCaveats T c)
  /\ (forall Ifs Else x, IfPresent Ifs Else ∈ c -> x ∈ GetCaveats T Ifs ->
        x ∈ GetCaveats T c).
Proof.
  split; [apply GetCaveats_elem_of|]. split.
  - apply Forall_forall. intros x Hx. by apply GetCaveats_elem_of in Hx as [? _].
  - intros Ifs Else x Hin Hx. apply GetCaveats_elem_of in Hx as [HT Ho].
    apply GetCaveats_elem_of. split; [done|]. by apply (occurs_nested x Ifs Else).
Qed.

(** X5: the order of [GetCaveats[T]].  The caveats come in the order of the
    set, an [IfPresent] that is itself a [T] before what its [Ifs] hold, and
    those before what follows in the set; the result for two sets put
    together is the two results put together; on a set without [IfPresent]
    it is the caveats of type [T], in order. *)
Theorem GetCaveats_in_order :
  (forall T c1 c2, GetCaveats T (c1 ++ c2) = GetCaveats T c1 ++ GetCaveats T c2)
  /\ (forall T Ifs Else c,
        GetCaveats T (IfPresent Ifs Else :: c) =
        (if T (IfPresent Ifs Else) then [IfPresent Ifs Else] else []) ++
        GetCaveats T Ifs ++ GetCaveats T c)
  /\ (forall T c, Forall (fun cav => is_IfPresent cav = false) c ->
        GetCaveats T c = filter (fun cav => T cav = true) c)
  /\ (forall T, GetCaveats T [] = []).
Proof.
  split; [apply GetCaveats_app|]. split; [|split; [|done]].
  - intros T Ifs Else c. rewrite GetCaveats_cons. unfold found_in.
    by rewrite <- app_assoc.
  - intros T c Hflat. induction Hflat as [|cav c Hcav _ IH]; [done|].
    rewrite GetCaveats_cons, IH. unfold found_in.
    destruct cav; try discriminate; rewrite app_nil_r;
      destruct (T _) eqn:E;
      by (rewrite filter_cons_True by done) || (rewrite filter_cons_False by congruence).
Qed.

End GetCaveatsProperties.

(** ** The access of the flyio package *)

Section FlyioProperties.

Ltac flyio_cases f :=
  destruct f as [org app act feat vol mach mf mut src clu];
  unfold flyio.Validate;
  cbn [flyio.OrgID flyio.AppID flyio.Action flyio.Feature flyio.Volume
       flyio.Machine flyio.MachineFeature flyio.Mutation flyio.SourceMachine
       flyio.Cluster];
  destruct (N.eqb_spec org 0);
  destruct app, feat, vol, mach, mf; cbn.

(** X10: [Validate] of a flyio access returns [nil] exactly when the access
    names an organization, not both an app and a feature, an app whenever
    it names a machine or a volume, not both a machine and a volume, and a
    machine whenever it names a machine feature.  So a valid access that
    names a machine feature names its machine, its app and its
    organization, and one that names a machine or a volume names no
    feature. *)
Theorem flyio_Validate_nil (f : flyio.Access) :
  (flyio.Validate f = [] <->
   flyio.OrgID f <> 0%N
   /\ ~ (flyio.non_nil (flyio.AppID f) = true /\ flyio.non_nil (flyio.Feature f) = true)
   /\ (flyio.non_nil (flyio.Machine f) = true \/ flyio.non_nil (flyio.Volume f) = true ->
       flyio.non_nil (flyio.AppID f) = true)
   /\ ~ (flyio.non_nil (flyio.Machine f) = true /\ flyio.non_nil (flyio.Volume f) = true)
   /\ (flyio.non_nil (flyio.MachineFeature f) = true ->
       flyio.non_nil (flyio.Machine f) = true))
  /\ (flyio.Validate f = [] -> flyio.non_nil (flyio.MachineFeature f) = true ->
      flyio.non_nil (flyio.Machine f) = true /\ flyio.non_nil (flyio.AppID f) = true /\
      flyio.OrgID f <> 0%N /\
      flyio.Volume f = None /\ flyio.Feature f = None)
  /\ (flyio.Validate f = [] ->
      flyio.non_nil (flyio.Machine f) = true \/ flyio.non_nil (flyio.Volume f) = true ->
      flyio.Feature f = None).
Proof.
  flyio_cases f; intuition (try discriminate; try congruence; eauto).
Qed.

(** X11: every error of [Validate] of a flyio access is one failure that
    wraps [ErrResourceUnspecified], when a parent resource is missing, or
    [ErrResourcesMutuallyExclusive], when two resources of one parent are
    named; an access without organization gets the "org" error whatever
    else it names. *)
Theorem flyio_Validate_errors (f : flyio.Access) :
  (flyio.Validate f <> [] ->
   exists format s, flyio.Validate f = [Errorf format (Some s) []] /\
     (s = ErrResourceUnspecified \/ s = ErrResourcesMutuallyExclusive))
  /\ (flyio.OrgID f = 0%N ->
      flyio.Validate f = [Errorf "%w org" (Some ErrResourceUnspecified) []])
  /\ (errors_Is (flyio.Validate f) ErrResourceUnspecified = true ->
      flyio.OrgID f = 0%N
      \/ ((flyio.non_nil (flyio.Machine f) = true \/ flyio.non_nil (flyio.Volume f) = true)
          /\ flyio.AppID f = None)
      \/ (flyio.non_nil (flyio.MachineFeature f) = true /\ flyio.Machine f = None))
  /\ (errors_Is (flyio.Validate f) ErrResourcesMutuallyExclusive = true ->
      (flyio.non_nil (flyio.AppID f) = true /\ flyio.non_nil (flyio.Feature f) = true)
      \/ (flyio.non_nil (flyio.Machine f) = true /\ flyio.non_nil (flyio.Volume f) = true)).
Proof.
  flyio_cases f;
    (split; [intros Hne; try done; eauto|]);
    (split; [intros Horg; try done|]);
    (split; [intros His; try discriminate; auto|]);
    intros His; try discriminate; auto.
Qed.

(** X12: [Validate] of a flyio access looks only at which resources are
    named and at whether the organization is zero: two accesses that agree
    on these get the same answer, whatever their action, mutation, source
    machine, cluster, and whatever the ids and names are. *)
Theorem flyio_Validate_by_presence (f g : flyio.Access) :
  (flyio.OrgID f = 0%N <-> flyio.OrgID g = 0%N) ->
  flyio.non_nil (flyio.AppID f) = flyio.non_nil (flyio.AppID g) ->
  flyio.non_nil (flyio.Feature f) = flyio.non_nil (flyio.Feature g) ->
  flyio.non_nil (flyio.Volume f) = flyio.non_nil (flyio.Volume g) ->
  flyio.non_nil (flyio.Machine f) = flyio.non_nil (flyio.Machine g) ->
  flyio.non_nil (flyio.MachineFeature f) = flyio.non_nil (flyio.MachineFeature g) ->
  flyio.Validate f = flyio.Validate g.
Proof.
  intros Horg Happ Hfeat Hvol Hmach Hmf. unfold flyio.Validate.
  rewrite Happ, Hfeat, Hvol, Hmach, Hmf.
  destruct (N.eqb_spec (flyio.OrgID f) 0) as [Hf|Hf],
           (N.eqb_spec (flyio.OrgID g) 0) as [Hg|Hg]; tauto.
Qed.

Section BuiltinCaveats.
Context {U A : Type} {access_A : Access A} {user_U : UserCaveat U A}
  {codes : CaveatCodes}.

Lemma builtin_only_Prohibits (c : Caveat U) (f g : A) :
  builtin_only c = true -> GetAction f = GetAction g -> Now f = Now g ->
  Prohibits c f = Prohibits c g.
Proof.
  intros Hb Hact Hnow. induction c as [l v ci r|Ifs Else IH|nb na|p|u] using Caveat_ind;
    try done.
  - rewrite !IfPresent_Prohibits_unfold, Hact.
    replace (map (fun cc => Prohibits cc f) Ifs)
      with (map (fun cc => Prohibits cc g) Ifs); [done|].
    cbn [builtin_only] in Hb. induction IH as [|cc Ifs Hcc _ IHIfs]; [done|].
    cbn [forallb] in Hb. apply andb_true_iff in Hb as [Hb1 Hb2].
    cbn [map]. by rewrite Hcc, IHIfs.
  - cbn [Prohibits]. by rewrite Hnow.
Qed.

(** X13: the caveats of caveats.go look only at the action and the time of
    an access.  A caveat that holds no caveat registered from outside the
    package, at any depth, gives the same answer to two accesses that have
    the same action and the same time; so two valid accesses with the same
    action and the same time get the same result from a set of such
    caveats.  For flyio accesses, whose time is the clock at the check, the
    result does not depend on the organization, app or machine named. *)
Theorem builtin_caveats_see_action_and_time :
  (forall (c : Caveat U) (f g : A),
     builtin_only c = true -> GetAction f = GetAction g -> Now f = Now g ->
     Prohibits c f = Prohibits c g)
  /\ (forall (cs : CaveatSet U) (f g : A),
        forallb builtin_only cs = true ->
        GetAction f = GetAction g -> Now f = Now g ->
        Access_Validate f = [] -> Access_Validate g = [] ->
        Validate cs [f] = Validate cs [g]).
Proof.
  split; [apply builtin_only_Prohibits|].
  intros cs f g Hb Hact Hnow Hf Hg.
  rewrite !Validate_concat. cbn [map concat]. unfold access_outcome.
  rewrite Hf, Hg. cbn [is_nil]. f_equal. unfold caveat_failures. f_equal.
  induction cs as [|c cs IH]; [done|].
  cbn [forallb] in Hb. apply andb_true_iff in Hb as [Hc Hcs].
  rewrite filter_cons. case_decide; [|by apply IH].
  cbn [map]. f_equal; [by apply builtin_only_Prohibits | by apply IH].
Qed.

End BuiltinCaveats.

End FlyioProperties.

(** ** The caveats and the access of the test suite *)

Section TestSuiteProperties.
Import Test.
Context {codes : CaveatCodes} (clock : Time).

(** X14: the resource caveats of the tests.  Each returns [nil] exactly
    when the access names its resource with the caveat's id and asks for an
    action within the caveat's permission; it answers
    [ErrResourceUnspecified] exactly when the access does not name the
    resource; a wrong id is reported before a forbidden action. *)
Theorem testCaveat_Prohibits_spec (c : testCaveat) (tf : testAccess) :
  let ID := match c with
            | testCaveatParentResource ID _ | testCaveatChildResource ID _ => ID
            end in
  let Permission := match c with
                    | testCaveatParentResource _ p | testCaveatChildResource _ p => p
                    end in
  (testCaveat_Prohibits c tf = [] <->
   resource_of c tf = Some ID /\ IsSubsetOf (action tf) Permission = true)
  /\ (errors_Is (testCaveat_Prohibits c tf) ErrResourceUnspecified = true <->
      resource_of c tf = None)
  /\ (forall r, resource_of c tf = Some r -> r <> ID ->
        testCaveat_Prohibits c tf =
        [Errorf "%w resource" (Some ErrUnauthorizedForResource) []])
  /\ (resource_of c tf = Some ID -> IsSubsetOf (action tf) Permission = false ->
      testCaveat_Prohibits c tf =
      [Errorf "%w action" (Some ErrUnauthorizedForAction) []]).
Proof.
  destruct c as [ID Permission|ID Permission];
    cbn [resource_of testCaveat_Prohibits]; cbv zeta;
    [destruct (parentResource tf) as [r|] | destruct (childResource tf) as [r|]].
  all: try (destruct (N.eqb_spec r ID) as [->|Hne]; cbn [negb];
            [destruct (IsSubsetOf (action tf) Permission) eqn:E; cbn [negb]|]).
  all: repeat split; try done; try discriminate; try congruence.
  all: try (intros [? ?]; congruence).
  all: try (intros ? ? ?; congruence).
  all: try (intros [[= ?] ?]; congruence).
Qed.

Lemma testCaveat_unspecified (c : testCaveat) (tf : testAccess) :
  errors_Is (testCaveat_Prohibits c tf) ErrResourceUnspecified =
  negb (bool_decide (is_Some (resource_of c tf))).
Proof.
  destruct c as [ID p|ID p]; cbn [resource_of testCaveat_Prohibits];
    [destruct (parentResource tf) | destruct (childResource tf)];
    try done; by repeat case_match.
Qed.

(** X15: [IfPresent] over the resource caveats of the tests.  When the
    access names none of the resources that the caveats of [Ifs] look at,
    [Else] decides: the result is [nil] exactly when the action is within
    [Else].  When it names one of them, [Else] is not consulted and the
    result is the combined answers of the caveats whose resource is named,
    in order. *)
Theorem IfPresent_over_resources (us : list testCaveat) (Else : Action)
    (tf : testAccess) :
  let Ifs := map UserDefined us : list (Caveat testCaveat) in
  (Forall (fun u => resource_of u tf = None) us ->
   (Prohibits (access_A := testAccess_Access clock) (IfPresent Ifs Else) tf = [] <->
    IsSubsetOf (action tf) Else = true))
  /\ (Exists (fun u => is_Some (resource_of u tf)) us ->
      Prohibits (access_A := testAccess_Access clock) (IfPresent Ifs Else) tf =
      concat (map (fun u => testCaveat_Prohibits u tf)
                (filter (fun u => is_Some (resource_of u tf)) us))).
Proof.
  intros Ifs.
  assert (HR : filter (fun r => errors_Is r ErrResourceUnspecified = false)
                 (map (fun cc => Prohibits (access_A := testAccess_Access clock) cc tf) Ifs) =
               map (fun u => testCaveat_Prohibits u tf)
                 (filter (fun u => is_Some (resource_of u tf)) us)).
  { unfold Ifs. clear Ifs. induction us as [|u us IH]; [done|].
    cbn [map]. change (Prohibits (UserDefined u) tf) with (testCaveat_Prohibits u tf).
    rewrite !filter_cons, IH, testCaveat_unspecified.
    destruct (decide (is_Some (resource_of u tf))) as [Hs|Hs].
    - rewrite bool_decide_eq_true_2 by done. cbn [negb].
      by rewrite decide_True by done.
    - rewrite bool_decide_eq_false_2 by done. cbn [negb].
      by rewrite decide_False by done. }
  split.
  - intros Hnone. rewrite (IfPresent_Prohibits_unfold (access_A := testAccess_Access clock)), HR.
    replace (filter (fun u => is_Some (resource_of u tf)) us) with ([] : list testCaveat).
    + cbn [map]. rewrite bool_decide_eq_false_2 by auto. cbn [negb andb concat].
      change (GetAction tf) with (action tf).
      destruct (IsSubsetOf (action tf) Else); cbn [negb]; split; intros; done.
    + symmetry. clear HR. clear Ifs. induction Hnone as [|u us Hu _ IH]; [done|].
      rewrite filter_cons_False; [done|]. rewrite Hu. by intros [? ?].
  - intros Hsome. rewrite (IfPresent_Prohibits_unfold (access_A := testAccess_Access clock)), HR.
    rewrite bool_decide_eq_true_2; [done|].
    apply Exists_exists in Hsome as (u & Hin & Hu).
    intros Hnil. apply fmap_nil_inv in Hnil.
    assert (Hf : u ∈ filter (fun u => is_Some (resource_of u tf)) us)
      by (by apply list_elem_of_filter).
    rewrite Hnil in Hf. inversion Hf.
Qed.

Lemma Time_Unix_bounds (t : Time) :
  (time_Unix (Time_Unix t) 0 <= t < time_Unix (Time_Unix t) 0 + 1000000000)%Z.
Proof. unfold time_Unix, Time_Unix. Z.div_mod_to_equations. lia. Qed.

(** X16: the window that [cavExpiry(d)] builds, its clock read as [clock1]
    then [clock2].  It opens at the whole second of [clock1] and closes at
    the whole second of [clock2 + d]: an access is never approved after
    [clock2 + d], it is approved from [clock1] until one second before
    [clock2 + d], and the part of a second that the rounding cuts off at
    the end is refused. *)
Theorem cavExpiry_lifetime (clock1 clock2 d : Z) (tf : testAccess) :
  let w := cavExpiry clock1 clock2 d in
  let t := Now (Access := testAccess_Access clock) tf in
  (Prohibits (access_A := testAccess_Access clock) w tf = [] <->
   (time_Unix (Time_Unix clock1) 0 <= t <= time_Unix (Time_Unix (clock2 + d)) 0)%Z)
  /\ ((clock1 <= t)%Z -> (t + 1000000000 <= clock2 + d)%Z ->
      Prohibits (access_A := testAccess_Access clock) w tf = [])
  /\ ((clock2 + d < t)%Z ->
      Prohibits (access_A := testAccess_Access clock) w tf <> [] /\
      errors_Is (Prohibits (access_A := testAccess_Access clock) w tf) ErrUnauthorized = true)
  /\ ((time_Unix (Time_Unix (clock2 + d)) 0 < t)%Z ->
      Prohibits (access_A := testAccess_Access clock) w tf =
      [Errorf "%w: token only valid until %s" (Some ErrUnauthorized)
         [ATime (time_Unix (Time_Unix (clock2 + d)) 0)]]).
Proof.
  intros w t. unfold w, cavExpiry, Time_Add.
  pose proof (Time_Unix_bounds clock1) as B1.
  pose proof (Time_Unix_bounds (clock2 + d)) as B2.
  assert (Hlate : (time_Unix (Time_Unix (clock2 + d)) 0 < t)%Z ->
      Prohibits (access_A := testAccess_Access clock)
        (ValidityWindow (Time_Unix clock1) (Time_Unix (clock2 + d))) tf =
      [Errorf "%w: token only valid until %s" (Some ErrUnauthorized)
         [ATime (time_Unix (Time_Unix (clock2 + d)) 0)]]).
  { intros Hl. cbn [Prohibits]. unfold After. fold t.
    by rewrite (proj2 (Z.ltb_lt _ _) Hl). }
  split; [apply (ValidityWindow_Prohibits_nil (access_A := testAccess_Access clock))|].
  split; [|split; [|exact Hlate]].
  - intros H1 H2. apply (ValidityWindow_Prohibits_nil (access_A := testAccess_Access clock)).
    fold t. lia.
  - intros H. rewrite Hlate by lia. split; done.
Qed.

(** X17: the check that ends the third-party tests.  An access that
    carries no time is judged at the clock; it names a parent resource and
    no child, so its own [Validate()] passes; against the caveats
    [cavParent(p, id)] and [cavExpiry(d)] it is approved when its resource
    is [id], its action is within [p], and the clock at the check is
    between the clock at minting and one second before the expiry. *)
Theorem Validate_parent_and_expiry (clock1 clock2 d : Z) (p : Action) (id : N)
    (tf : testAccess) :
  now tf = zeroTime -> parentResource tf = Some id -> childResource tf = None ->
  IsSubsetOf (action tf) p = true ->
  (clock1 <= clock)%Z -> (clock + 1000000000 <= clock2 + d)%Z ->
  Validate (access_A := testAccess_Access clock) [cavParent p id; cavExpiry clock1 clock2 d] [tf] = [].
Proof.
  intros Hnow Hpar Hchild Hact H1 H2.
  apply (Validate_nil (access_A := testAccess_Access clock)).
  intros a ->%list_elem_of_singleton. split.
  - change (Access_Validate tf) with (testAccess_Validate tf).
    unfold testAccess_Validate. by rewrite Hchild.
  - assert (Ht : Now (Access := testAccess_Access clock) tf = clock).
    { change (Now tf) with (testAccess_Now clock tf). unfold testAccess_Now, IsZero.
      by rewrite Hnow, Z.eqb_refl. }
    intros c Hin _. apply elem_of_cons in Hin as [->|Hin];
      [|apply list_elem_of_singleton in Hin as ->].
    + change (Prohibits (cavParent p id) tf) with
        (testCaveat_Prohibits (testCaveatParentResource id p) tf).
      cbn [testCaveat_Prohibits]. by rewrite Hpar, N.eqb_refl, Hact.
    + unfold cavExpiry, Time_Add.
      apply (ValidityWindow_Prohibits_nil (access_A := testAccess_Access clock)). rewrite Ht.
      pose proof (Time_Unix_bounds clock1). pose proof (Time_Unix_bounds (clock2 + d)).
      lia.
Qed.

End TestSuiteProperties.

(** ** Further properties of the codecs *)

Section MoreCodecProperties.
Context {U A : Type} {access_A : Access A} {user_U : UserCaveat U A}
  {codes : CaveatCodes} {codec_U : UserCodec U} {leaves : JSONLeaves}
  {eq_U : EqDecision U}.
Context (reg : Registry U).

Lemma marshal_jcavs_iff (m : Caveat U -> result json) cavs jcavs :
  marshal_jcavs reg m cavs = Ok jcavs <->
  Forall2 (fun cav jc =>
             caveatTypeToString reg (Caveat_CaveatType cav) <> EmptyString /\
             exists body, m cav = Ok body /\
               jc = {| jc_Type := caveatTypeToString reg (Caveat_CaveatType cav);
                       jc_Body := Some body |}) cavs jcavs.
Proof.
  revert jcavs. induction cavs as [|cav cavs IH]; intros jcavs; cbn [marshal_jcavs].
  - split; [intros [= <-]; constructor | by intros ->%Forall2_nil_inv_l].
  - split.
    + case_bool_decide as Hn; [done|].
      destruct (m cav) as [body| | |] eqn:Hm; try done. cbn [rbind].
      destruct (marshal_jcavs reg m cavs) as [jcavs'| | |] eqn:Hl; try done.
      intros [= <-]. constructor; [eauto | by apply IH].
    + intros HF. apply Forall2_cons_inv_l in HF
        as (jc & jcavs' & (Hn & body & Hm & ->) & HF & ->).
      rewrite bool_decide_eq_false_2 by done. rewrite Hm. cbn [rbind].
      by rewrite (proj2 (IH jcavs') HF).
Qed.

(** X18: the JSON form of a set.  [MarshalJSON] succeeds exactly when every
    caveat of the set has a registered name and marshals, and the result is
    then the array, in the order of the set, of the objects with the two
    members ["type"], the name registered for the caveat's type, and
    ["body"], the JSON of the caveat; the empty set gives the empty
    array. *)
Theorem CaveatSet_json_form :
  (forall (c : CaveatSet U) (j : json),
     CaveatSet_MarshalJSON reg c = Ok j <->
     exists bodies,
       Forall2 (fun cav body =>
                  caveatTypeToString reg (Caveat_CaveatType cav) <> EmptyString /\
                  Caveat_MarshalJSON reg cav = Ok body) c bodies /\
       j = JArr (zip_with
                   (fun cav body =>
                      JObj [("type"%string,
                             JStr (caveatTypeToString reg (Caveat_CaveatType cav)));
                            ("body"%string, body)]) c bodies))
  /\ CaveatSet_MarshalJSON reg [] = Ok (JArr []).
Proof.
  split; [|done]. intros c j. unfold CaveatSet_MarshalJSON, marshal_set. split.
  - destruct (marshal_jcavs reg (Caveat_MarshalJSON reg) c) as [jcavs| | |] eqn:Hm;
      try done. cbn [rbind]. intros [= <-].
    apply marshal_jcavs_iff in Hm. clear -Hm.
    induction Hm as [|cav jc c jcavs (Hn & body & Hb & ->) _ (bodies & HF & IH)].
    + exists []. split; [constructor | done].
    + exists (body :: bodies). split; [by constructor|].
      cbn [map zip_with]. injection IH as ->. done.
  - intros (bodies & HF & ->).
    assert (Hm : marshal_jcavs reg (Caveat_MarshalJSON reg) c =
                 Ok (zip_with (fun cav body =>
                        {| jc_Type := caveatTypeToString reg (Caveat_CaveatType cav);
                           jc_Body := Some body |}) c bodies)).
    { apply marshal_jcavs_iff. clear -HF.
      induction HF as [|cav body c bodies [Hn Hb] _ IH]; [constructor|].
      cbn [zip_with]. constructor; [eauto | done]. }
    rewrite Hm. cbn [rbind]. do 2 f_equal. clear.
    revert bodies. induction c as [|cav c IH]; intros [|body bodies]; try done.
    cbn [zip_with map]. by rewrite IH.
Qed.

Lemma marshal_jcavs_named (m : Caveat U -> result json) cavs jcavs cav :
  marshal_jcavs reg m cavs = Ok jcavs -> cav ∈ cavs ->
  caveatTypeToString reg (Caveat_CaveatType cav) <> EmptyString /\
  exists body, m cav = Ok body.
Proof.
  intros Hm Hin. apply marshal_jcavs_iff in Hm.
  apply list_elem_of_lookup in Hin as [i Hi].
  destruct (Forall2_lookup_l _ _ _ _ _ Hm Hi) as (jc & _ & Hn & body & Hb & _).
  eauto.
Qed.

Lemma MarshalJSON_named_nested cav :
  forall body, Caveat_MarshalJSON reg cav = Ok body ->
  forall Ifs Else x, cav = IfPresent Ifs Else -> occurs_in x Ifs ->
  caveatTypeToString reg (Caveat_CaveatType x) <> EmptyString.
Proof.
  induction cav as [l v ci r|Ifs0 Else0 IH|nb na|p|u] using Caveat_ind;
    intros body Hb Ifs Else x Heq Ho; try discriminate.
  injection Heq as <- <-. cbn [Caveat_MarshalJSON] in Hb. unfold marshal_set in Hb.
  destruct (marshal_jcavs reg (Caveat_MarshalJSON reg) Ifs0) as [jcavs| | |] eqn:Hm;
    try done. clear Hb body.
  induction Ho as [x c Hin|x Ifs' Else' c Hin Ho IHo].
  - by destruct (marshal_jcavs_named _ _ _ _ Hm Hin).
  - destruct (marshal_jcavs_named _ _ _ _ Hm Hin) as [_ [body' Hb']].
    rewrite Forall_forall in IH. by apply (IH _ Hin body' Hb' Ifs' Else').
Qed.

(** X19: [MarshalJSON] and the caveats that have no registered name.  At
    the first caveat of the set whose type has no name, the caveats before
    it being marshalled without error, [MarshalJSON] fails with
    "unregistered caveat type" and the code; and when [MarshalJSON]
    succeeds, every caveat of the set has a registered name, also those
    inside the [Ifs] of an [IfPresent], at every depth. *)
Theorem MarshalJSON_needs_registered_names :
  (forall (pre post : CaveatSet U) cav j,
     CaveatSet_MarshalJSON reg pre = Ok j ->
     caveatTypeToString reg (Caveat_CaveatType cav) = EmptyString ->
     CaveatSet_MarshalJSON reg (pre ++ cav :: post) =
     Fail (Errorf "unregistered caveat type: %d" None
             [ANum (Z.of_N (Caveat_CaveatType cav))]))
  /\ (forall (c : CaveatSet U) (j : json) x,
        CaveatSet_MarshalJSON reg c = Ok j -> occurs_in x c ->
        caveatTypeToString reg (Caveat_CaveatType x) <> EmptyString).
Proof.
  split.
  - intros pre post cav j Hj Hn. unfold CaveatSet_MarshalJSON, marshal_set in *.
    destruct (marshal_jcavs reg (Caveat_MarshalJSON reg) pre) as [jcavs| | |] eqn:Hpre;
      try done. clear Hj j.
    assert (Hm : marshal_jcavs reg (Caveat_MarshalJSON reg) (pre ++ cav :: post) =
                 Fail (Errorf "unregistered caveat type: %d" None
                         [ANum (Z.of_N (Caveat_CaveatType cav))]));
      [|by rewrite Hm].
    revert jcavs Hpre. induction pre as [|c0 pre IH]; intros jcavs Hpre.
    + cbn [app marshal_jcavs]. by rewrite bool_decide_eq_true_2.
    + cbn [app marshal_jcavs] in *. case_bool_decide; [done|].
      destruct (Caveat_MarshalJSON reg c0); try done. cbn [rbind] in *.
      destruct (marshal_jcavs reg (Caveat_MarshalJSON reg) pre) as [jcavs'| | |];
        try done. by rewrite (IH jcavs' eq_refl).
  - intros c j x Hj Ho. unfold CaveatSet_MarshalJSON, marshal_set in Hj.
    destruct (marshal_jcavs reg (Caveat_MarshalJSON reg) c) as [jcavs| | |] eqn:Hm;
      try done. clear Hj j.
    inversion Ho as [? ? Hin|? Ifs Else ? Hin Ho']; subst.
    + by destruct (marshal_jcavs_named _ _ _ _ Hm Hin).
    + destruct (marshal_jcavs_named _ _ _ _ Hm Hin) as [_ [body Hb]].
      by apply (MarshalJSON_named_nested _ body Hb Ifs Else).
Qed.


Section Framing.
Context {laws_U : UserCodecLaws U} {laws_leaves : JSONLeavesLaws}.

(** X20: the encodings determine the set, up to [rn].  Two sets built from
    registered caveat types that have the same msgpack encoding are equal
    once the [rn] of their third-party caveats is set aside, and so are two
    such sets with the same JSON, when they hold no [BindToParentToken] of
    the nil slice. *)
Theorem encodings_determine_the_set (cs1 cs2 : CaveatSet U) :
  forallb (well_formed reg) cs1 = true -> forallb (well_formed reg) cs2 = true ->
  (forall o, CaveatSet_MarshalMsgpack cs1 = Ok o -> CaveatSet_MarshalMsgpack cs2 = Ok o ->
     map erase_rn cs1 = map erase_rn cs2)
  /\ (forallb bound_prefixes cs1 = true -> forallb bound_prefixes cs2 = true ->
      forall j, CaveatSet_MarshalJSON reg cs1 = Ok j -> CaveatSet_MarshalJSON reg cs2 = Ok j ->
        map erase_rn cs1 = map erase_rn cs2).
Proof.
  intros Hwf1 Hwf2. split.
  - intros o H1 H2.
    pose proof (DecodeCaveats_MarshalMsgpack reg cs1 o Hwf1 H1) as D1.
    pose proof (DecodeCaveats_MarshalMsgpack reg cs2 o Hwf2 H2) as D2.
    congruence.
  - intros Hb1 Hb2 j H1 H2.
    pose proof (json_Unmarshal_MarshalJSON reg cs1 j Hwf1 Hb1 H1) as D1.
    pose proof (json_Unmarshal_MarshalJSON reg cs2 j Hwf2 Hb2 H2) as D2.
    congruence.
Qed.

Lemma Forall_msgpack_roundtrip (cavs : CaveatSet U) :
  Forall (msgpack_roundtrip_at reg) cavs.
Proof. apply Forall_forall. intros cav _. exact (Caveat_msgpack_roundtrip reg cav). Qed.

(** X21: the msgpack encoding of a set frames itself.  [DecodeMsgpack]
    reads the tokens that [EncodeMsgpack] wrote and leaves what follows
    them in the stream; it adds the caveats it reads to those that the
    receiver already holds; so two encoded sets written one after the other
    are read back one after the other. *)
Theorem msgpack_encoding_frames_itself (cavs : CaveatSet U) (o : list token) :
  forallb (well_formed reg) cavs = true ->
  CaveatSet_EncodeMsgpack cavs = Ok o ->
  (forall (rest : list token) (c0 : CaveatSet U) (fuel : nat),
     (length o <= fuel)%nat ->
     CaveatSet_DecodeMsgpack reg fuel c0 (o ++ rest) =
     Ok (c0 ++ map erase_rn cavs, rest))
  /\ (forall (cavs' : CaveatSet U) (o' : list token) (fuel : nat),
        forallb (well_formed reg) cavs' = true ->
        CaveatSet_EncodeMsgpack cavs' = Ok o' ->
        (length (o ++ o') <= fuel)%nat ->
        (s1 <- CaveatSet_DecodeMsgpack reg fuel [] ;;
         s2 <- CaveatSet_DecodeMsgpack reg fuel [] ;;
         dret (s1, s2)) (o ++ o') =
        Ok ((map erase_rn cavs, map erase_rn cavs'), [])).
Proof.
  intros Hwf Henc.
  assert (Hone : forall cavs o, forallb (well_formed reg) cavs = true ->
            CaveatSet_EncodeMsgpack cavs = Ok o ->
            forall (rest : list token) (c0 : CaveatSet U) (fuel : nat),
              (length o <= fuel)%nat ->
              CaveatSet_DecodeMsgpack reg fuel c0 (o ++ rest) =
              Ok (c0 ++ map erase_rn cavs, rest)).
  { intros cavs1 o1 Hwf1 Henc1 rest c0 fuel Hf.
    by apply (set_msgpack_roundtrip reg cavs1 (Forall_msgpack_roundtrip cavs1) Hwf1). }
  split; [by apply Hone|].
  intros cavs' o' fuel Hwf' Henc' Hf. rewrite length_app in Hf.
  rewrite dbind_run, (Hone cavs o Hwf Henc o' [] fuel) by lia. cbn [rbind fst snd].
  rewrite dbind_run. rewrite <- (app_nil_r o') at 1.
  rewrite (Hone cavs' o' Hwf' Henc' [] [] fuel) by lia. done.
Qed.

Lemma Prohibits_erase_rn (c : Caveat U) (f : A) :
  Prohibits (erase_rn c) f = Prohibits c f.
Proof.
  induction c as [l v ci r|Ifs Else IH|nb na|p|u] using Caveat_ind; try done.
  cbn [erase_rn]. rewrite !IfPresent_Prohibits_unfold, map_map.
  replace (map (fun cc => Prohibits (erase_rn cc) f) Ifs)
    with (map (fun cc => Prohibits cc f) Ifs); [done|].
  induction IH as [|cc Ifs Hcc _ IHIfs]; [done|]. cbn [map]. by rewrite Hcc, IHIfs.
Qed.

Lemma Validate_erase_rn (cs : CaveatSet U) (accesses : list A) :
  Validate (map erase_rn cs) accesses = Validate cs accesses.
Proof.
  apply Validate_of_failures. intros a. unfold caveat_failures. f_equal.
  induction cs as [|c cs IH]; [done|]. cbn [map].
  rewrite !filter_cons.
  replace (IsAttestation (erase_rn c)) with (IsAttestation c) by (by destruct c).
  case_decide; [|done]. cbn [map]. by rewrite Prohibits_erase_rn, IH.
Qed.

(** X23: a round trip through either encoding does not change what a set
    allows.  The set that [DecodeCaveats] reads from the msgpack encoding of
    a set built from registered caveat types, and the set that
    [UnmarshalJSON] reads from its JSON, give every list of accesses the
    result that the original set gives: the [rn] that the encodings leave
    out plays no part in [Validate]. *)
Theorem Validate_after_roundtrip (cs : CaveatSet U) (accesses : list A) :
  forallb (well_formed reg) cs = true ->
  (forall o cs', CaveatSet_MarshalMsgpack cs = Ok o -> DecodeCaveats reg o = Ok cs' ->
     Validate cs' accesses = Validate cs accesses)
  /\ (forallb bound_prefixes cs = true ->
      forall j cs', CaveatSet_MarshalJSON reg cs = Ok j -> json_Unmarshal reg j = Ok cs' ->
        Validate cs' accesses = Validate cs accesses)
  /\ Validate (map erase_rn cs) accesses = Validate cs accesses.
Proof.
  intros Hwf. split; [|split; [|apply Validate_erase_rn]].
  - intros o cs' Henc Hdec.
    rewrite (DecodeCaveats_MarshalMsgpack reg cs o Hwf Henc) in Hdec.
    injection Hdec as <-. apply Validate_erase_rn.
  - intros Hb j cs' Henc Hdec.
    rewrite (json_Unmarshal_MarshalJSON reg cs j Hwf Hb Henc) in Hdec.
    injection Hdec as <-. apply Validate_erase_rn.
Qed.

End Framing.

End MoreCodecProperties.

(** ** The further properties on the values of the test suite *)

Section MoreScenarios.
Import Test.

#[local] Existing Instance sample_codes.
#[local] Existing Instance sample_leaves.
#[local] Existing Instance scenario_access.

Lemma Validate_caveats_conjunctive_witness :
  Validate [parent_110] [parent_access] = [].
Proof.
  apply (proj1 (proj2 Validate_caveats_conjunctive) [parent_110]
           [ValidityWindow 10 20; parent_110] [parent_access]).
  - intros x ->%list_elem_of_singleton. right. left.
  - reflexivity.
Defined.

Lemma Validate_per_access_witness :
  Validate [ValidityWindow 10 20; parent_110] [parent_access; parent_access] = [].
Proof.
  apply (proj2 (proj1 (proj2 Validate_per_access) _ _)).
  intros a Ha. apply elem_of_cons in Ha as [->|Ha];
    [|apply list_elem_of_singleton in Ha as ->]; reflexivity.
Defined.


Lemma GetCaveats_finds_nested_witness :
  ValidityWindow 10 20 ∈
  GetCaveats is_ValidityWindow
    [parent_110; IfPresent [IfPresent [ValidityWindow 10 20] 1] 3].
Proof.
  apply (proj1 (GetCaveats_finds_nested _ _)). split; [reflexivity|].
  apply (occurs_nested _ [IfPresent [ValidityWindow 10 20] 1] 3); [right; left|].
  apply (occurs_nested _ [ValidityWindow 10 20] 1); [left|].
  constructor. left.
Defined.

Lemma GetCaveats_in_order_witness :
  GetCaveats is_ValidityWindow sample_set =
  filter (fun cav => is_ValidityWindow cav = true) sample_set.
Proof.
  apply (proj1 (proj2 (proj2 GetCaveats_in_order))).
  repeat constructor.
Defined.

Lemma IfPresent_never_ResourceUnspecified_witness :
  Prohibits (IfPresent [parent_110; ValidityWindow 10 20] 0) orphan_access =
  Prohibits (IfPresent [parent_110; ValidityWindow 10 20] 3) orphan_access.
Proof.
  apply (proj2 (proj2 IfPresent_never_ResourceUnspecified) _ (ValidityWindow 10 20)).
  - right. left.
  - reflexivity.
Defined.



Lemma BindToParentToken_always_denies_witness :
  Validate [parent_110; BindToParentToken [xde; xad]] [parent_access] <> [].
Proof.
  apply (proj2 (proj2 (BindToParentToken_always_denies [xde; xad])) _ _ parent_access).
  - right. left.
  - left.
Defined.

Lemma flyio_Validate_nil_witness :
  flyio.non_nil (flyio.Machine machine_access) = true /\
  flyio.non_nil (flyio.AppID machine_access) = true /\
  flyio.OrgID machine_access <> 0%N /\
  flyio.Volume machine_access = None /\ flyio.Feature machine_access = None.
Proof.
  apply (proj1 (proj2 (flyio_Validate_nil machine_access))); reflexivity.
Defined.

Lemma flyio_Validate_errors_witness :
  flyio.Validate no_org_access = [Errorf "%w org" (Some ErrResourceUnspecified) []].
Proof.
  apply (proj1 (proj2 (flyio_Validate_errors no_org_access))). reflexivity.
Defined.

Lemma flyio_Validate_by_presence_witness :
  flyio.Validate machine_access =
  flyio.Validate
    {| flyio.OrgID := 77; flyio.AppID := Some 5%N; flyio.Action := 2;
       flyio.Feature := None; flyio.Volume := None;
       flyio.Machine := Some "other"%string;
       flyio.MachineFeature := Some "logs"%string;
       flyio.Mutation := Some "restart"%string; flyio.SourceMachine := None;
       flyio.Cluster := Some "c"%string |}.
Proof.
  apply flyio_Validate_by_presence; try reflexivity.
  split; discriminate.
Defined.

Lemma builtin_caveats_see_action_and_time_witness :
  Validate (access_A := flyio_Access 15000000000) (user_U := no_user_caveats)
    [ValidityWindow 10 20; IfPresent [ValidityWindow 12 30] 1] [machine_access] =
  Validate (access_A := flyio_Access 15000000000) (user_U := no_user_caveats)
    [ValidityWindow 10 20; IfPresent [ValidityWindow 12 30] 1]
    [{| flyio.OrgID := 9; flyio.AppID := None; flyio.Action := 1;
        flyio.Feature := Some "wg"%string; flyio.Volume := None;
        flyio.Machine := None; flyio.MachineFeature := None;
        flyio.Mutation := None; flyio.SourceMachine := None;
        flyio.Cluster := None |}].
Proof.
  apply (proj2 (builtin_caveats_see_action_and_time
                  (access_A := flyio_Access 15000000000)
                  (user_U := no_user_caveats))); reflexivity.
Defined.

Lemma testCaveat_Prohibits_spec_witness :
  testCaveat_Prohibits (testCaveatParentResource 234 ActionWrite) parent_access =
  [Errorf "%w resource" (Some ErrUnauthorizedForResource) []].
Proof.
  apply (proj1 (proj2 (proj2 (testCaveat_Prohibits_spec
           (testCaveatParentResource 234 ActionWrite) parent_access))) 110%N).
  - reflexivity.
  - discriminate.
Defined.

Lemma IfPresent_over_resources_witness :
  Prohibits (IfPresent (map UserDefined [testCaveatChildResource 7 ActionWrite])
               ActionRead) parent_access = [].
Proof.
  apply (proj1 (IfPresent_over_resources 1700000000000000000
                  [testCaveatChildResource 7 ActionWrite] ActionRead parent_access)).
  - repeat constructor.
  - reflexivity.
Defined.

Lemma cavExpiry_lifetime_witness :
  Prohibits (cavExpiry 14500000000 14500000001 5000000000) parent_access = [].
Proof.
  apply (proj1 (proj2 (cavExpiry_lifetime 1700000000000000000
                         14500000000 14500000001 5000000000 parent_access)));
    vm_compute; discriminate.
Defined.

Lemma Validate_parent_and_expiry_witness :
  Validate [cavParent 3 110; cavExpiry 1699999999500000000 1699999999500000001 300000000000]
    [{| action := 3; parentResource := Some 110%N; childResource := None;
        now := zeroTime |}] = [].
Proof.
  apply (Validate_parent_and_expiry 1700000000000000000); try reflexivity;
    vm_compute; discriminate.
Defined.

Lemma CaveatSet_json_form_witness :
  exists bodies,
    Forall2 (fun cav body =>
               caveatTypeToString sample_registry (Caveat_CaveatType cav) <> EmptyString /\
               Caveat_MarshalJSON sample_registry cav = Ok body) sample_set bodies /\
    sample_set_json =
    JArr (zip_with
            (fun cav body =>
               JObj [("type"%string,
                      JStr (caveatTypeToString sample_registry (Caveat_CaveatType cav)));
                     ("body"%string, body)]) sample_set bodies).
Proof.
  apply (proj1 (proj1 (CaveatSet_json_form sample_registry) sample_set sample_set_json)).
  reflexivity.
Defined.

Lemma MarshalJSON_needs_registered_names_witness :
  CaveatSet_MarshalJSON (empty_registry : Registry testCaveat)
    ([] ++ ValidityWindow 10 20 :: [parent_110]) =
  Fail (Errorf "unregistered caveat type: %d" None [ANum (Z.of_N CavValidityWindow)]).
Proof.
  apply (proj1 (MarshalJSON_needs_registered_names empty_registry) [] [parent_110]
           (ValidityWindow 10 20) (JArr [])); reflexivity.
Defined.


Lemma encodings_determine_the_set_witness :
  map erase_rn [third_party] = map erase_rn [third_party_decoded].
Proof.
  eapply (proj1 (encodings_determine_the_set sample_registry
                   [third_party] [third_party_decoded] _ _));
    vm_compute; reflexivity.
  Unshelve. all: vm_compute; reflexivity.
Defined.

Lemma Validate_after_roundtrip_witness :
  Validate sample_set_decoded [parent_access] = Validate sample_set [parent_access].
Proof.
  refine (proj1 (Validate_after_roundtrip sample_registry sample_set [parent_access] _)
            sample_set_tokens sample_set_decoded _ _); vm_compute; reflexivity.
Defined.

Lemma msgpack_encoding_frames_itself_witness :
  CaveatSet_DecodeMsgpack sample_registry 100 [parent_110]
    (sample_set_tokens ++ [TNil]) =
  Ok ([parent_110] ++ map erase_rn sample_set, [TNil]).
Proof.
  refine (proj1 (msgpack_encoding_frames_itself sample_registry sample_set
                   sample_set_tokens _ _) _ _ _ _);
    first [vm_compute; reflexivity | cbn; lia].
Defined.

End MoreScenarios.
